(** * LSH: a shallow embedding of [lsh.c] and its verified properties

    The shell of [lsh.c] reads a line from standard input, splits it on
    white space, runs a builtin ([cd], [help], [exit]) or forks and waits
    for an external program, and starts over.  [main] guards the loop by
    three checks (address white list, already running, login).

    The C functions are embedded as state-passing functions over a
    [World] record that holds what the process can observe of the
    operating system.  A C [int] is a [Z], a [char] is an [ascii], a
    [char *] buffer is a [list ascii], a NULL-terminated [char **] is a
    [list (option string)].

    What the model takes from the platform:
    - [int] has 32 bits and wraps around, [size_t] has 64 bits, and no
      object is larger than [PTRDIFF_MAX] bytes;
    - [malloc], [realloc] and [fork] succeed or fail as the lists [heap]
      and [forks] of the world say, one answer a call; fresh memory holds
      [garbage];
    - the standard streams are those of a terminal, as under the [sshd]
      that sets [SSH_CLIENT]: what the shell has written has left its
      buffers when it forks, and the input cannot be sought back; the
      logs are files, and a stream to a file keeps what is written until
      it is flushed, which [exit] does, and the end of [main];
    - a child that cannot [execvp] writes to the error stream of its
      parent, and flushes, when it exits, its copy of the streams that are
      open; a program that is started reports, through [waitpid], the
      statuses of its [run], and takes nothing from the input of the
      shell;
    - an array of the stack that is read before it is assigned holds
      what [stack] says, and the arrays of fixed size of the checks of
      [main] are large enough for what is written to them;
    - a loop of C that need not end is given a number of turns
      ([lsh_loop]) or ends as [Hang] (the wait for a child that never
      ends). *)

From Stdlib Require Import ZArith List String Ascii Bool Lia.
From Stdlib Require Import DecimalString DecimalPos.
From Equations Require Import Equations.
Import ListNotations.

Local Open Scope string_scope.
Local Open Scope list_scope.
Local Open Scope Z_scope.

(** ** C integers and constants *)

Module C.

Definition INT_MAX : Z := 2147483647.
Definition PTRDIFF_MAX : Z := 9223372036854775807.

(** Two's complement wrap-around of a 32-bit [int]. *)
Definition wrap_int (z : Z) : Z := (z + 2 ^ 31) mod 2 ^ 32 - 2 ^ 31.

(** Conversion of an [int] to a 64-bit [size_t]. *)
Definition to_size_t (z : Z) : Z := z mod 2 ^ 64.

Definition EOF : Z := -1.
Definition EXIT_SUCCESS : Z := 0.
Definition EXIT_FAILURE : Z := 1.

Definition ENOENT : Z := 2.
Definition EAGAIN : Z := 11.
Definition ENOMEM : Z := 12.
Definition EACCES : Z := 13.
Definition ENOTDIR : Z := 20.

Definition strerror (e : Z) : string :=
  if e =? ENOENT then "No such file or directory"
  else if e =? EAGAIN then "Resource temporarily unavailable"
  else if e =? ENOMEM then "Cannot allocate memory"
  else if e =? EACCES then "Permission denied"
  else if e =? ENOTDIR then "Not a directory"
  else ("Unknown error " ++ NilZero.string_of_int (Z.to_int e))%string.

(** A character as [getchar] hands it out (an [unsigned char] turned
    into an [int]) and as an assignment to a [char] cell stores it. *)
Definition int_of_char (a : ascii) : Z := Z.of_N (N_of_ascii a).
Definition char_of_int (c : Z) : ascii := ascii_of_N (Z.to_N (c mod 256)).

Definition NUL : ascii := Ascii.zero.
Definition newline : ascii := "010"%char.

(** The string a [char *] denotes: the cells before the first NUL. *)
Fixpoint c_str (buf : list ascii) : list ascii :=
  match buf with
  | [] => []
  | a :: buf' => if Ascii.eqb a NUL then [] else a :: c_str buf'
  end.

(** The wait status macros of <sys/wait.h> (glibc's bits/waitstatus.h). *)
Definition W_EXITCODE (ret sig : Z) : Z := Z.lor (Z.shiftl ret 8) sig.
Definition W_STOPCODE (sig : Z) : Z := Z.lor (Z.shiftl sig 8) 127.
Definition WTERMSIG (status : Z) : Z := Z.land status 127.
Definition WIFEXITED (status : Z) : bool := WTERMSIG status =? 0.
Definition signed_char (z : Z) : Z := (z + 128) mod 256 - 128.
Definition WIFSIGNALED (status : Z) : bool :=
  Z.shiftr (signed_char (Z.land status 127 + 1)) 1 >? 0.
Definition WIFSTOPPED (status : Z) : bool := Z.land status 255 =? 127.

End C.
Import C.

(** ** The world of the process *)

(** How a program started by [execvp] behaves, as its parent sees it
    through [waitpid (.., WUNTRACED)]: it is stopped by the signals of
    [stops], one after the other, and then ends as [ending] says, or
    never ends. *)
Inductive ending : Type :=
| Exits (code : Z)
| Killed (sig : Z).

Record run : Type := {
  stops : list Z;
  final : option ending
}.

Definition status_of_ending (e : ending) : Z :=
  match e with
  | Exits code => W_EXITCODE (Z.land code 255) 0
  | Killed sig => W_EXITCODE 0 sig
  end.

Definition reports (r : run) : list Z :=
  map W_STOPCODE (stops r) ++
  match final r with
  | Some e => [status_of_ending e]
  | None => []
  end.

(** What the process finds and does not change. *)
Record Env : Type := {
  dirs : list string;                 (* directories [chdir] can enter *)
  chdir_errno : string -> Z;          (* the error of [chdir] for another path *)
  programs : list (string * run);     (* what [execvp] finds on the path *)
  garbage : ascii;                    (* contents of fresh memory *)
  ssh_client : option string;         (* $SSH_CLIENT *)
  file_list : option (list string);   (* file "list", as [fgets] reads it *)
  file_data : option string;          (* first line of file "data" *)
  proc : option (list string);        (* entries of /proc *)
  proc_status : list (Z * string);    (* first line of /proc/<pid>/status *)
  clock : string;                     (* what [ctime] answers *)
  stack : string -> list ascii        (* what the named array of the stack
                                         holds before it is assigned *)
}.

Record World : Type := {
  env : Env;
  stdin : list ascii;                 (* characters not read yet *)
  stdout : list string;               (* what was written, oldest first *)
  stderr : list string;
  cwd : string;
  heap : list bool;                   (* answers to the next allocations *)
  forks : list bool;                  (* answers to the next [fork]s *)
  next_pid : positive;
  pending : list Z;                   (* wait statuses of the child to come *)
  errno : Z;
  login_log : option (list string);   (* None: cannot be opened *)
  login_stream : list string;         (* written to the login log, and not
                                         flushed yet *)
  failed_log : option (list string)
}.

Definition set_stdin (x : list ascii) (w : World) : World :=
  {| env := env w; stdin := x; stdout := stdout w; stderr := stderr w;
     cwd := cwd w; heap := heap w; forks := forks w; next_pid := next_pid w;
     pending := pending w; errno := errno w; login_log := login_log w;
     login_stream := login_stream w; failed_log := failed_log w |}.

Definition set_stdout (x : list string) (w : World) : World :=
  {| env := env w; stdin := stdin w; stdout := x; stderr := stderr w;
     cwd := cwd w; heap := heap w; forks := forks w; next_pid := next_pid w;
     pending := pending w; errno := errno w; login_log := login_log w;
     login_stream := login_stream w; failed_log := failed_log w |}.

Definition set_stderr (x : list string) (w : World) : World :=
  {| env := env w; stdin := stdin w; stdout := stdout w; stderr := x;
     cwd := cwd w; heap := heap w; forks := forks w; next_pid := next_pid w;
     pending := pending w; errno := errno w; login_log := login_log w;
     login_stream := login_stream w; failed_log := failed_log w |}.

Definition set_cwd (x : string) (w : World) : World :=
  {| env := env w; stdin := stdin w; stdout := stdout w; stderr := stderr w;
     cwd := x; heap := heap w; forks := forks w; next_pid := next_pid w;
     pending := pending w; errno := errno w; login_log := login_log w;
     login_stream := login_stream w; failed_log := failed_log w |}.

Definition set_heap (x : list bool) (w : World) : World :=
  {| env := env w; stdin := stdin w; stdout := stdout w; stderr := stderr w;
     cwd := cwd w; heap := x; forks := forks w; next_pid := next_pid w;
     pending := pending w; errno := errno w; login_log := login_log w;
     login_stream := login_stream w; failed_log := failed_log w |}.

Definition set_forks (x : list bool) (w : World) : World :=
  {| env := env w; stdin := stdin w; stdout := stdout w; stderr := stderr w;
     cwd := cwd w; heap := heap w; forks := x; next_pid := next_pid w;
     pending := pending w; errno := errno w; login_log := login_log w;
     login_stream := login_stream w; failed_log := failed_log w |}.

Definition set_next_pid (x : positive) (w : World) : World :=
  {| env := env w; stdin := stdin w; stdout := stdout w; stderr := stderr w;
     cwd := cwd w; heap := heap w; forks := forks w; next_pid := x;
     pending := pending w; errno := errno w; login_log := login_log w;
     login_stream := login_stream w; failed_log := failed_log w |}.

Definition set_pending (x : list Z) (w : World) : World :=
  {| env := env w; stdin := stdin w; stdout := stdout w; stderr := stderr w;
     cwd := cwd w; heap := heap w; forks := forks w; next_pid := next_pid w;
     pending := x; errno := errno w; login_log := login_log w;
     login_stream := login_stream w; failed_log := failed_log w |}.

Definition set_errno (x : Z) (w : World) : World :=
  {| env := env w; stdin := stdin w; stdout := stdout w; stderr := stderr w;
     cwd := cwd w; heap := heap w; forks := forks w; next_pid := next_pid w;
     pending := pending w; errno := x; login_log := login_log w;
     login_stream := login_stream w; failed_log := failed_log w |}.

Definition set_login_log (x : option (list string)) (w : World) : World :=
  {| env := env w; stdin := stdin w; stdout := stdout w; stderr := stderr w;
     cwd := cwd w; heap := heap w; forks := forks w; next_pid := next_pid w;
     pending := pending w; errno := errno w; login_log := x;
     login_stream := login_stream w; failed_log := failed_log w |}.

Definition set_login_stream (x : list string) (w : World) : World :=
  {| env := env w; stdin := stdin w; stdout := stdout w; stderr := stderr w;
     cwd := cwd w; heap := heap w; forks := forks w; next_pid := next_pid w;
     pending := pending w; errno := errno w; login_log := login_log w;
     login_stream := x; failed_log := failed_log w |}.

Definition set_failed_log (x : option (list string)) (w : World) : World :=
  {| env := env w; stdin := stdin w; stdout := stdout w; stderr := stderr w;
     cwd := cwd w; heap := heap w; forks := forks w; next_pid := next_pid w;
     pending := pending w; errno := errno w; login_log := login_log w;
     login_stream := login_stream w; failed_log := x |}.

(** ** Computations of the process *)

(** A C function call returns a value, or ends the process through
    [exit], or blocks for ever, or runs into undefined behaviour, or (in a
    forked child) replaces the process image.  The world of [Exit] is the
    one [exit] is called in: what [exit] does to the streams is [flush]. *)
Inductive Result (A : Type) : Type :=
| Ret (a : A) (w : World)
| Exit (status : Z) (w : World)
| Hang (w : World)
| Fault (w : World)
| Image (program : string) (w : World).

Arguments Ret {A} a w.
Arguments Exit {A} status w.
Arguments Hang {A} w.
Arguments Fault {A} w.
Arguments Image {A} program w.

Definition Program (A : Type) : Type := World -> Result A.

Definition ret {A} (a : A) : Program A := fun w => Ret a w.

Definition bind {A B} (m : Program A) (k : A -> Program B) : Program B :=
  fun w =>
    match m w with
    | Ret a w' => k a w'
    | Exit s w' => Exit s w'
    | Hang w' => Hang w'
    | Fault w' => Fault w'
    | Image p w' => Image p w'
    end.

Declare Scope prog_scope.
Delimit Scope prog_scope with prog.
Notation "x <- m ;; k" := (bind m (fun x => k))
  (at level 100, m at next level, right associativity) : prog_scope.
Notation "m ;; k" := (bind m (fun _ => k))
  (at level 100, right associativity) : prog_scope.
Local Open Scope prog_scope.

Definition exit {A} (status : Z) : Program A := fun w => Exit status w.

Definition world_of {A} (r : Result A) : World :=
  match r with
  | Ret _ w | Exit _ w | Hang w | Fault w | Image _ w => w
  end.

(** What [exit], and the return of [main], do to the stream of the login
    log: what it holds is written to the file. *)
Definition flush (w : World) : World :=
  match login_log w with
  | Some l => set_login_stream [] (set_login_log (Some (l ++ login_stream w)) w)
  | None => w
  end.

(** The world a process leaves: an [exit] flushes its streams; a process
    image that is replaced, or a process that is killed, takes what they
    hold with it. *)
Definition left_by {A} (r : Result A) : World :=
  match r with
  | Exit _ w => flush w
  | Ret _ w | Hang w | Fault w | Image _ w => w
  end.

(** ** The C library *)

Definition printf (s : string) : Program unit :=
  fun w => Ret tt (set_stdout (stdout w ++ [s]) w).

Definition fprintf_stderr (s : string) : Program unit :=
  fun w => Ret tt (set_stderr (stderr w ++ [s]) w).

Definition LF : string := String newline "".

Definition TAB : ascii := "009"%char.

Definition allocation_error : string := ("lsh: allocation error" ++ LF)%string.

Definition perror (s : string) : Program unit :=
  fun w => fprintf_stderr (s ++ ": " ++ strerror (errno w) ++ LF)%string w.

(** An allocation of [n] bytes fails when [n], as a [size_t], is more
    than an object can hold, and otherwise as the heap decides. *)
Definition allocate (n : Z) (w : World) : bool * World :=
  if to_size_t n >? PTRDIFF_MAX then (false, set_errno ENOMEM w)
  else match heap w with
       | false :: h => (false, set_errno ENOMEM (set_heap h w))
       | h => (true, set_heap (tl h) w)
       end.

(** [malloc] and [realloc] of an array of cells of type [T]; [cell] is
    the size of a cell, [fill] what a fresh cell holds.  [None] is NULL. *)
Definition malloc {T} (fill : T) (cell : Z) (n : Z)
  : Program (option (list T)) :=
  fun w =>
    match allocate n w with
    | (true, w') => Ret (Some (repeat fill (Z.to_nat (to_size_t n / cell)))) w'
    | (false, w') => Ret None w'
    end.

Definition realloc {T} (fill : T) (cell : Z) (buf : list T) (n : Z)
  : Program (option (list T)) :=
  fun w =>
    match allocate n w with
    | (true, w') =>
        let cells := Z.to_nat (to_size_t n / cell) in
        Ret (Some (firstn cells buf ++ repeat fill (cells - List.length buf)%nat)) w'
    | (false, w') => Ret None w'
    end.

(** [buf[i] = x]; writing outside of the array is undefined. *)
Fixpoint update {T} (buf : list T) (i : nat) (x : T) : option (list T) :=
  match buf, i with
  | [], _ => None
  | _ :: buf', O => Some (x :: buf')
  | y :: buf', S i' =>
      match update buf' i' x with
      | Some r => Some (y :: r)
      | None => None
      end
  end.

Definition store {T} (buf : list T) (i : Z) (x : T) : Program (list T) :=
  fun w =>
    if i <? 0 then Fault w
    else match update buf (Z.to_nat i) x with
         | Some buf' => Ret buf' w
         | None => Fault w
         end.

(** ** The line reader *)

Definition LSH_RL_BUFSIZE : Z := 1024.

(** The [while (1)] loop of [lsh_read_line].  [getchar] takes the
    characters of [input], the part of standard input not read yet, and
    answers [EOF] when there is none: the loop is by recursion on it. *)
Fixpoint lsh_read_line_loop (input : list ascii) (bufsize position : Z)
    (buffer : list ascii) : Program (list ascii) :=
  match input with
  | [] =>
      (* c == EOF *)
      fun w => exit EXIT_SUCCESS (set_stdin [] w)
  | a :: input' =>
      fun w =>
        let w := set_stdin input' w in
        let c := int_of_char a in
        if c =? EOF then exit EXIT_SUCCESS w
        else if c =? int_of_char newline then
          store buffer position NUL w
        else
          (buffer <- store buffer position (char_of_int c) ;;
           let position := wrap_int (position + 1) in
           if position >=? bufsize then
             let bufsize := wrap_int (bufsize + LSH_RL_BUFSIZE) in
             buffer <- realloc (garbage (env w)) 1 buffer bufsize ;;
             match buffer with
             | None =>
                 fprintf_stderr allocation_error ;; exit EXIT_FAILURE
             | Some buffer =>
                 lsh_read_line_loop input' bufsize position buffer
             end
           else lsh_read_line_loop input' bufsize position buffer) w
  end.

Definition lsh_read_line : Program (list ascii) :=
  fun w =>
    (let bufsize := LSH_RL_BUFSIZE in
     let position := 0 in
     buffer <- malloc (garbage (env w)) 1 (1 * bufsize) ;;
     match buffer with
     | None =>
         fprintf_stderr allocation_error ;; exit EXIT_FAILURE
     | Some buffer =>
         fun w => lsh_read_line_loop (stdin w) bufsize position buffer w
     end) w.

(** *** The line reader built with [LSH_USE_STD_GETLINE] *)

(** [getline] of POSIX: the characters up to the end of the line, the
    newline among them, or up to the end of the input, in a buffer it
    allocates; -1, here [None], at the end of the input or when it cannot
    allocate. *)
Fixpoint getline_chars (input : list ascii) : list ascii * list ascii :=
  match input with
  | [] => ([], [])
  | a :: input' =>
      if Ascii.eqb a newline then ([a], input')
      else let (l, r) := getline_chars input' in (a :: l, r)
  end.

Definition getline : Program (option (list ascii)) :=
  fun w =>
    match stdin w with
    | [] => Ret None w
    | input =>
        let (l, r) := getline_chars input in
        match allocate (Z.of_nat (List.length l) + 1) w with
        | (true, w') => Ret (Some (l ++ [NUL])) (set_stdin r w')
        | (false, w') => Ret None w'
        end
    end.

(** [feof (stdin)]. *)
Definition feof_stdin (w : World) : bool :=
  match stdin w with
  | [] => true
  | _ => false
  end.

Definition lsh_read_line_getline : Program (list ascii) :=
  line <- getline ;;
  match line with
  | None =>
      fun w =>
        if feof_stdin w then exit EXIT_SUCCESS w
        else (perror ("lsh: getline" ++ LF)%string ;; exit EXIT_FAILURE) w
  | Some line => ret line
  end.

(** ** The tokenizer *)

Definition LSH_TOK_BUFSIZE : Z := 64.

(** " \t\r\n\a" *)
Definition LSH_TOK_DELIM : list ascii :=
  [" "; "009"; "013"; "010"; "007"]%char.

Definition is_delim (delim : list ascii) (a : ascii) : bool :=
  existsb (Ascii.eqb a) delim.

(** [strtok]: skip the delimiters in front; if the string ends there,
    there is no token; otherwise the token runs up to the next delimiter,
    which is overwritten by NUL, and the scan resumes behind it. *)
Fixpoint skip_delims (delim s : list ascii) : list ascii :=
  match s with
  | [] => []
  | a :: s' => if is_delim delim a then skip_delims delim s' else s
  end.

Fixpoint scan_token (delim s : list ascii) : list ascii * list ascii :=
  match s with
  | [] => ([], [])
  | a :: s' =>
      if is_delim delim a then ([], s')
      else let (t, r) := scan_token delim s' in (a :: t, r)
  end.

(** [strtok olds delim] is the token found, if any, and the place the
    next call [strtok (NULL, delim)] starts from. *)
Definition strtok (olds delim : list ascii)
  : option (list ascii) * list ascii :=
  match skip_delims delim olds with
  | [] => (None, [])
  | s => let (t, r) := scan_token delim s in (Some t, r)
  end.

(** What remains to scan, counted for the termination of the loop. *)
Definition to_scan (token : option (list ascii)) (olds : list ascii) : nat :=
  match token with
  | Some _ => S (List.length olds)
  | None => List.length olds
  end.

Lemma skip_delims_length delim s :
  (List.length (skip_delims delim s) <= List.length s)%nat.
Proof.
  induction s as [|a s IH]; simpl; [lia|].
  destruct (is_delim delim a); simpl; lia.
Qed.

Lemma scan_token_length delim s t r :
  scan_token delim s = (t, r) -> s <> [] ->
  (List.length r < List.length s)%nat.
Proof.
  revert t r. induction s as [|a s IH]; intros t r H Hs; [congruence|].
  simpl in H. destruct (is_delim delim a).
  - inversion H; subst. simpl. lia.
  - destruct (scan_token delim s) as [t' r'] eqn:E. inversion H; subst.
    destruct s as [|b s].
    + simpl in E. inversion E; subst. simpl. lia.
    + specialize (IH _ _ eq_refl ltac:(discriminate)). simpl in *. lia.
Qed.

Lemma strtok_length olds delim token olds' :
  strtok olds delim = (token, olds') ->
  (to_scan token olds' <= List.length olds)%nat.
Proof.
  unfold strtok, to_scan. intros H.
  pose proof (skip_delims_length delim olds) as Hk.
  destruct (skip_delims delim olds) as [|a s] eqn:E.
  - inversion H; subst. simpl. lia.
  - destruct (scan_token delim (a :: s)) as [t r] eqn:E'.
    inversion H; subst.
    apply scan_token_length in E'; [|discriminate]. lia.
Qed.

(** The [while (token != NULL)] loop of [lsh_split_line].  [olds] is the
    place [strtok] has saved for its next call, [strtok (NULL, ..)], which
    ends the body of the loop. *)
Equations? lsh_split_line_loop (token : option (list ascii))
    (olds : list ascii) (bufsize position : Z)
    (tokens : list (option string)) : Program (list (option string))
    by wf (to_scan token olds) lt :=
  lsh_split_line_loop None olds bufsize position tokens :=
    store tokens position None;
  lsh_split_line_loop (Some t) olds bufsize position tokens :=
    tokens <- store tokens position (Some (string_of_list_ascii t)) ;;
    let position := wrap_int (position + 1) in
    if position >=? bufsize then
      let bufsize := wrap_int (bufsize + LSH_TOK_BUFSIZE) in
      tokens <- realloc (@None string) 8 tokens (bufsize * 8) ;;
      match tokens with
      | None => fprintf_stderr allocation_error ;; exit EXIT_FAILURE
      | Some tokens =>
          lsh_split_line_loop (fst (strtok olds LSH_TOK_DELIM))
            (snd (strtok olds LSH_TOK_DELIM)) bufsize position tokens
      end
    else
      lsh_split_line_loop (fst (strtok olds LSH_TOK_DELIM))
        (snd (strtok olds LSH_TOK_DELIM)) bufsize position tokens.
Proof.
  all: pose proof (strtok_length olds LSH_TOK_DELIM _ _
                     (surjective_pairing _)) as H; simpl; lia.
Qed.

Definition lsh_split_line (line : list ascii)
  : Program (list (option string)) :=
  let bufsize := LSH_TOK_BUFSIZE in
  let position := 0 in
  tokens <- malloc (@None string) 8 (bufsize * 8) ;;
  match tokens with
  | None => fprintf_stderr allocation_error ;; exit EXIT_FAILURE
  | Some tokens =>
      let (token, olds) := strtok (c_str line) LSH_TOK_DELIM in
      lsh_split_line_loop token olds bufsize position tokens
  end.

(** The arguments a NULL-terminated [char **] holds. *)
Fixpoint argv (tokens : list (option string)) : list string :=
  match tokens with
  | Some t :: tokens' => t :: argv tokens'
  | _ => []
  end.

(** ** The builtin commands *)

Definition strcmp (a b : string) : Z :=
  match String.compare a b with
  | Eq => 0
  | Lt => -1
  | Gt => 1
  end.

Definition dquote : string := String "034"%char "".

Definition cd_usage : string :=
  ("lsh: expected argument to " ++ dquote ++ "cd" ++ dquote ++ LF)%string.

(** [chdir] enters the directories of the environment and no other; for
    another path it sets [errno] as the environment says (no such file,
    not a directory, permission denied, ...). *)
Definition chdir (path : string) : Program Z :=
  fun w =>
    if existsb (String.eqb path) (dirs (env w))
    then Ret 0 (set_cwd path w)
    else Ret (-1) (set_errno (chdir_errno (env w) path) w).

Definition builtin_str : list string := ["cd"; "help"; "exit"].

Definition lsh_num_builtins : Z := Z.of_nat (List.length builtin_str).

Definition lsh_cd (args : list string) : Program Z :=
  match nth_error args 1 with
  | None => fprintf_stderr cd_usage ;; ret 1
  | Some dir =>
      r <- chdir dir ;;
      (if negb (r =? 0) then perror "lsh" else ret tt) ;;
      ret 1
  end.

(** The [for] loop of [lsh_help] over the names from index [i] on. *)
Fixpoint lsh_help_loop (names : list string) : Program unit :=
  match names with
  | [] => ret tt
  | name :: names' =>
      printf ("  " ++ name ++ LF)%string ;; lsh_help_loop names'
  end.

Definition lsh_help (args : list string) : Program Z :=
  printf ("Stephen Brennan's LSH" ++ LF)%string ;;
  printf ("Type program names and arguments, and hit enter." ++ LF)%string ;;
  printf ("The following are built in:" ++ LF)%string ;;
  lsh_help_loop builtin_str ;;
  printf ("Use the man command for information on other programs." ++ LF)%string ;;
  ret 1.

Definition lsh_exit (args : list string) : Program Z := ret 0.

Definition builtin_func : list (list string -> Program Z) :=
  [lsh_cd; lsh_help; lsh_exit].

(** ** The process launcher *)

Fixpoint lookup {V} (key : string) (table : list (string * V)) : option V :=
  match table with
  | [] => None
  | (k, v) :: table' => if String.eqb key k then Some v else lookup key table'
  end.

(** [fork] in the parent: the pid of the child, or -1. *)
Definition fork (w : World) : Z * World :=
  match forks w with
  | false :: f => (-1, set_errno EAGAIN (set_forks f w))
  | f => (Zpos (next_pid w),
          set_next_pid (Pos.succ (next_pid w)) (set_forks (tl f) w))
  end.

(** [execvp] returns only when it fails. *)
Definition execvp (file : string) (args : list string) : Program Z :=
  fun w =>
    match lookup file (programs (env w)) with
    | Some _ => Image file w
    | None => Ret (-1) (set_errno ENOENT w)
    end.

(** The [do .. while] loop around [waitpid (pid, &status, WUNTRACED)]:
    [waitpid] blocks until the child changes state and hands out the next
    status of [pend]; it blocks for ever when there is none to come. *)
Fixpoint lsh_launch_wait (pend : list Z) : Program Z :=
  match pend with
  | [] => fun w => Hang w
  | status :: pend' =>
      fun w =>
        let w := set_pending pend' w in
        if negb (WIFEXITED status) && negb (WIFSIGNALED status)
        then lsh_launch_wait pend' w
        else Ret status w
  end.

(** The body of [lsh_launch] behind [pid = fork ()], in the child
    ([pid] is 0) and in the parent. *)
Definition lsh_launch_as (pid : Z) (args : list string) : Program Z :=
  if pid =? 0 then
    r <- execvp (hd "" args) args ;;
    (if r =? -1 then perror "lsh" else ret tt) ;;
    exit EXIT_FAILURE
  else if pid <? 0 then
    perror "lsh" ;; ret 1
  else
    (fun w => lsh_launch_wait (pending w) w) ;; ret 1.

(** What the parent will be told of a child that ended as [child]. *)
Definition child_reports (child : Result Z) : list Z :=
  match child with
  | Exit status _ => [status_of_ending (Exits status)]
  | Image program w =>
      match lookup program (programs (env w)) with
      | Some r => reports r
      | None => []
      end
  | Fault _ => [status_of_ending (Killed 11)]
  | Hang _ => []
  | Ret _ _ => []
  end.

(** The parent's world once the child has run: the child writes to the
    same terminal, a child that exits writes what its copy of the stream
    of the login log holds to the file, while the parent keeps its own
    copy, and the wait statuses of the child are to come. *)
Definition after_child (child : Result Z) (w : World) : World :=
  set_pending (child_reports child)
    (set_login_log (login_log (left_by child))
       (set_stderr (stderr (world_of child))
          (set_stdout (stdout (world_of child)) w))).

Definition lsh_launch (args : list string) : Program Z :=
  fun w =>
    let (pid, w) := fork w in
    if pid <? 0 then lsh_launch_as pid args w
    else lsh_launch_as pid args (after_child (lsh_launch_as 0 args w) w).

(** ** The dispatcher *)

(** The [for] loop of [lsh_execute], from index [i] on, over the [n]
    builtins that remain. *)
Fixpoint lsh_execute_loop (n : nat) (i : nat) (args : list string)
  : Program Z :=
  match n with
  | O => lsh_launch args
  | S n' =>
      if strcmp (hd "" args) (nth i builtin_str "") =? 0
      then nth i builtin_func lsh_launch args
      else lsh_execute_loop n' (S i) args
  end.

Definition lsh_execute (args : list string) : Program Z :=
  match args with
  | [] => ret 1
  | _ => lsh_execute_loop (Z.to_nat lsh_num_builtins) 0 args
  end.

(** ** The interactive loop *)

Definition prompt : string := "> ".

(** One turn of the [do .. while (status)] loop of [lsh_loop]. *)
Definition lsh_loop_body : Program Z :=
  printf prompt ;;
  line <- lsh_read_line ;;
  args <- lsh_split_line line ;;
  lsh_execute (argv args).

(** [lsh_loop] with a bound on the number of turns: [None] when the
    bound is reached. *)
Fixpoint lsh_loop (turns : nat) (w : World) : option (Result unit) :=
  match turns with
  | O => None
  | S turns' =>
      match lsh_loop_body w with
      | Ret status w' =>
          if status =? 0 then Some (Ret tt w') else lsh_loop turns' w'
      | Exit s w' => Some (Exit s w')
      | Hang w' => Some (Hang w')
      | Fault w' => Some (Fault w')
      | Image p w' => Some (Image p w')
      end
  end.

(** ** The checks before the loop *)

Definition BUF_SIZE : Z := 1024.
Definition MAX_LOGIN : Z := 1.

Definition isspace (a : ascii) : bool :=
  let c := int_of_char a in (c =? 32) || ((9 <=? c) && (c <=? 13)).

(** The conversion [%s] of [sscanf]: white space is skipped, the word
    runs up to the next white space. *)
Fixpoint skip_space (s : list ascii) : list ascii :=
  match s with
  | [] => []
  | a :: s' => if isspace a then skip_space s' else s
  end.

Fixpoint scan_word (s : list ascii) : list ascii * list ascii :=
  match s with
  | [] => ([], [])
  | a :: s' =>
      if isspace a then ([], s)
      else let (word, r) := scan_word s' in (a :: word, r)
  end.

Definition scanf_s (s : list ascii) : option (string * list ascii) :=
  match skip_space s with
  | [] => None
  | s' => let (word, r) := scan_word s' in Some (string_of_list_ascii word, r)
  end.

(** [s[strlen (s) - 1] = '\0']; undefined on the empty string. *)
Fixpoint chop (s : string) : string :=
  match s with
  | EmptyString => EmptyString
  | String a EmptyString => EmptyString
  | String a s' => String a (chop s')
  end.

Definition chop_last (s : string) : Program string :=
  fun w => match s with
           | EmptyString => Fault w
           | _ => Ret (chop s) w
           end.

(** [time (&now); cur_time = ctime (&now)] and the removal of the
    newline that ends it. *)
Definition cur_time : Program string :=
  fun w => chop_last (clock (env w)) w.

Definition log_error : string := ("error! failed to write log" ++ LF)%string.

(** [fwrite] to the stream that [fopen] has opened on the login log: the
    line stays in the stream, which the function neither flushes nor
    closes. *)
Definition store_login_log (log : string) : Program unit :=
  fun w =>
    match login_log w with
    | None => (printf log_error ;; exit 0) w
    | Some _ => Ret tt (set_login_stream (login_stream w ++ [log]) w)
    end.

(** The same for the failed log; every call of it is followed by
    [exit (0)], in the caller or in [main], with nothing read or written
    in between: [failed_log] has the line as this [exit] writes it. *)
Definition store_failed_log (log : string) : Program unit :=
  fun w =>
    match failed_log w with
    | None => (printf log_error ;; exit 0) w
    | Some l => Ret tt (set_failed_log (Some (l ++ [log])) w)
    end.

(** The [while (fgets (list_ip[i], BUF_SIZE, fp))] loop of [white_list]. *)
Fixpoint white_list_read (lines : list string) : Program (list string) :=
  match lines with
  | [] => ret []
  | line :: lines' =>
      ip <- chop_last line ;;
      list_ip <- white_list_read lines' ;;
      ret (ip :: list_ip)
  end.

(** Its [for] loop: is [ip_addr] one of [list_ip]? *)
Fixpoint white_list_find (list_ip : list string) (ip_addr : string) : bool :=
  match list_ip with
  | [] => false
  | ip :: list_ip' =>
      if strcmp ip ip_addr =? 0 then true else white_list_find list_ip' ip_addr
  end.

Definition white_list (ip_addr : string) : Program Z :=
  fun w =>
    match file_list (env w) with
    | None => (printf ("error! block all IP" ++ LF)%string ;; exit 0) w
    | Some lines =>
        (list_ip <- white_list_read lines ;;
         if white_list_find list_ip ip_addr then ret 0
         else
           printf ("NOT ALLOWED IP" ++ LF)%string ;;
           now <- cur_time ;;
           store_failed_log (now ++ " NOT ALLOWED IP " ++ ip_addr ++ LF)%string ;;
           ret 1) w
    end.

Definition is_digit (a : ascii) : bool :=
  (int_of_char "0"%char <=? int_of_char a)
  && (int_of_char a <=? int_of_char "9"%char).

Definition atoi (s : string) : Z :=
  fold_left (fun n a => wrap_int (10 * n + (int_of_char a - 48)))
    (list_ascii_of_string s) 0.

Definition get_pid (s : string) : Z :=
  if forallb is_digit (list_ascii_of_string s) then atoi s else -1.

Fixpoint lookup_pid (pid : Z) (table : list (Z * string)) : option string :=
  match table with
  | [] => None
  | (p, line) :: table' => if pid =? p then Some line else lookup_pid pid table'
  end.

(** [sscanf (line, "%s %s", tag, name)]: [name] keeps what it held when
    the line has no second word. *)
Definition scan_name (line : string) (name : string) : string :=
  match scanf_s (list_ascii_of_string line) with
  | None => name
  | Some (_, r) =>
      match scanf_s r with
      | None => name
      | Some (word, _) => word
      end
  end.

Definition already_running : string := ("이미실행중입니다." ++ LF)%string.

(** The [while ((dir = readdir (dp)) != NULL)] loop of [check_logon]. *)
Fixpoint check_logon_loop (entries : list string) (name : string)
    (logon_count : Z) (ip_addr : string) : Program Z :=
  match entries with
  | [] => ret 0
  | d_name :: entries' =>
      let pid := get_pid d_name in
      if pid =? -1 then check_logon_loop entries' name logon_count ip_addr
      else
        fun w =>
          match lookup_pid pid (proc_status (env w)) with
          | None => check_logon_loop entries' name logon_count ip_addr w
          | Some line =>
              let name := scan_name line name in
              if strcmp name "lsh" =? 0 then
                let logon_count := logon_count + 1 in
                if logon_count =? MAX_LOGIN + 1 then
                  (printf already_running ;;
                   now <- cur_time ;;
                   store_failed_log
                     (now ++ " FULL LOGIN " ++ ip_addr ++ LF)%string ;;
                   ret 1) w
                else check_logon_loop entries' name logon_count ip_addr w
              else check_logon_loop entries' name logon_count ip_addr w
          end
  end.

Definition check_logon (ip_addr : string) : Program Z :=
  fun w =>
    match proc (env w) with
    | None => Ret (-1) w
    | Some entries =>
        check_logon_loop entries
          (string_of_list_ascii (c_str (stack (env w) "name"))) 0 ip_addr w
    end.

(** [fgets (buf, size, stdin)]: the characters up to the end of the line,
    at most [size - 1] of them, and a NUL behind them; at the end of the
    input [buf] is left as it was.  [buf] and the result are the strings
    the array denotes before and after: a NUL that was read ends the
    string. *)
Fixpoint fgets_chars (n : nat) (input : list ascii)
  : list ascii * list ascii :=
  match n, input with
  | O, _ => ([], input)
  | _, [] => ([], [])
  | S n', a :: input' =>
      if Ascii.eqb a newline then ([a], input')
      else let (l, r) := fgets_chars n' input' in (a :: l, r)
  end.

Definition fgets_stdin (buf : string) (size : Z) : Program string :=
  fun w =>
    match stdin w with
    | [] => Ret buf w
    | input =>
        let (l, r) := fgets_chars (Z.to_nat (size - 1)) input in
        Ret (string_of_list_ascii (c_str l)) (set_stdin r w)
    end.

(** [getch]: [getchar] with the echo of the terminal off. *)
Definition getch : Program Z :=
  fun w =>
    match stdin w with
    | [] => Ret EOF w
    | a :: input' => Ret (int_of_char a) (set_stdin input' w)
    end.

(** The [for (i = 0; i < 11; i++)] loop of [login] that reads the
    password, with [n] turns to go. *)
Fixpoint login_read_pw (n : nat) (i : Z) (input_pw : list ascii)
  : Program (list ascii) :=
  match n with
  | O => ret input_pw
  | S n' =>
      c <- getch ;;
      let single_pw := char_of_int c in
      if signed_char (int_of_char single_pw) =? 10 then ret input_pw
      else
        input_pw <- store input_pw i single_pw ;;
        login_read_pw n' (i + 1) input_pw
  end.

Definition decimal (z : Z) : string := NilZero.string_of_int (Z.to_int z).

(** [enc_pw]: each character less one, then 46 less one. *)
Definition enc_pw (input_pw : list ascii) : list Z :=
  flat_map (fun a => [signed_char (int_of_char a) - 1; 46 - 1]) input_pw.

(** The loop of [sprintf (enc_str_pw, "%s%d", enc_str_pw, enc_pw[i])]. *)
Definition enc_str_pw (start : string) (enc : list Z) : string :=
  fold_left (fun s d => (s ++ decimal d)%string) enc start.

(** [sscanf (data_account, "%s : %s", data_id, data_pw)]; an array that
    is not assigned keeps what the stack held. *)
Definition scan_account (line : string) (w : World) : string * string :=
  let id0 := string_of_list_ascii (c_str (stack (env w) "data_id")) in
  let pw0 := string_of_list_ascii (c_str (stack (env w) "data_pw")) in
  match scanf_s (list_ascii_of_string line) with
  | None => (id0, pw0)
  | Some (id, r) =>
      match skip_space r with
      | ":"%char :: r' =>
          match scanf_s r' with
          | None => (id, pw0)
          | Some (pw, _) => (id, pw)
          end
      | _ => (id, pw0)
      end
  end.

Definition login_done : string := (LF ++ "로그인완료" ++ LF)%string.
Definition login_failed : string := (LF ++ "로그인실패" ++ LF)%string.

Definition login (ip_addr : string) : Program unit :=
  fun w =>
    match file_data (env w) with
    | None => Fault w
    | Some data_account =>
        (let (data_id, data_pw) := scan_account data_account w in
         printf "ID : " ;;
         input_id <- fgets_stdin
                       (string_of_list_ascii (c_str (stack (env w) "input_id")))
                       BUF_SIZE ;;
         input_id <- chop_last input_id ;;
         printf "PW : " ;;
         input_pw <- login_read_pw 11 0 (stack (env w) "input_pw") ;;
         let enc := enc_pw (c_str input_pw) in
         let enc_str :=
           enc_str_pw
             (string_of_list_ascii (c_str (stack (env w) "enc_str_pw"))) enc in
         if (strcmp data_id input_id =? 0) && (strcmp data_pw enc_str =? 0)
         then
           printf login_done ;;
           now <- cur_time ;;
           let log := (now ++ " Login at " ++ ip_addr ++ LF)%string in
           printf log ;;
           store_login_log log
         else
           printf login_failed ;;
           now <- cur_time ;;
           store_failed_log (now ++ " Login failed at " ++ ip_addr ++ LF)%string ;;
           exit 0) w
    end.

(** ** The entry point *)

(** [sscanf (s, "%s %s %s", CLIENT_IP, CLIENT_PORT, SERVER_PORT)]. *)
Definition client_ip (s : string) (w : World) : string :=
  match scanf_s (list_ascii_of_string s) with
  | None => string_of_list_ascii (c_str (stack (env w) "CLIENT_IP"))
  | Some (ip, _) => ip
  end.

(** [main] up to the call of [lsh_loop]: the three checks. *)
Definition main_checks : Program unit :=
  fun w =>
    match ssh_client (env w) with
    | None => Fault w
    | Some s =>
        (let CLIENT_IP := client_ip s w in
         IP_result <- white_list CLIENT_IP ;;
         (if IP_result =? 1 then exit 0 else ret tt) ;;
         check_result <- check_logon CLIENT_IP ;;
         (if check_result =? 1 then exit 0 else ret tt) ;;
         login CLIENT_IP) w
    end.

(** [main], with a bound on the number of turns of [lsh_loop]. *)
Definition main (turns : nat) (w : World) : option (Result Z) :=
  match main_checks w with
  | Ret _ w' =>
      match lsh_loop turns w' with
      | Some (Ret _ w'') => Some (Ret EXIT_SUCCESS w'')
      | Some (Exit s w'') => Some (Exit s w'')
      | Some (Hang w'') => Some (Hang w'')
      | Some (Fault w'') => Some (Fault w'')
      | Some (Image p w'') => Some (Image p w'')
      | None => None
      end
  | Exit s w' => Some (Exit s w')
  | Hang w' => Some (Hang w')
  | Fault w' => Some (Fault w')
  | Image p w' => Some (Image p w')
  end.

(** The status the process ends with: the one given to [exit], or the
    one [main] returns. *)
Definition exit_status (r : option (Result Z)) : option Z :=
  match r with
  | Some (Ret s _) => Some s
  | Some (Exit s _) => Some s
  | _ => None
  end.

(** ** A sample world *)

Definition sample_env : Env :=
  {| dirs := ["/"; "/tmp"];
     chdir_errno := fun path =>
       if String.eqb path "/etc/passwd" then ENOTDIR
       else if String.eqb path "/root" then EACCES
       else ENOENT;
     programs := [("ls", {| stops := []; final := Some (Exits 0) |});
                  ("vi", {| stops := [20; 20]; final := Some (Killed 9) |});
                  ("yes", {| stops := [19]; final := None |})];
     garbage := "#"%char;
     ssh_client := Some "10.0.0.7 50514 22";
     file_list := Some ["10.0.0.1" ++ LF; "10.0.0.7" ++ LF]%string;
     file_data := Some ("admin : 1114511845" ++ LF)%string;
     proc := Some ["1"; "self"; "812"; "4077"];
     proc_status := [(1, "Name:" ++ String TAB "init" ++ LF);
                     (812, "Name:" ++ String TAB "sshd" ++ LF);
                     (4077, "Name:" ++ String TAB "lsh" ++ LF)]%string;
     clock := ("Fri Oct 30 10:48:00 2026" ++ LF)%string;
     stack := fun _ => repeat NUL 2048 |}.

Definition sample_world_of (input : list ascii) : World :=
  {| env := sample_env; stdin := input;
     stdout := []; stderr := []; cwd := "/home"; heap := []; forks := [];
     next_pid := 4078%positive; pending := []; errno := 0;
     login_log := Some []; login_stream := []; failed_log := Some [] |}.

Definition sample_world (input : string) : World :=
  sample_world_of (list_ascii_of_string input).


Definition with_proc (x : option (list string)) (e : Env) : Env :=
  {| dirs := dirs e; chdir_errno := chdir_errno e; programs := programs e;
     garbage := garbage e;
     ssh_client := ssh_client e; file_list := file_list e;
     file_data := file_data e; proc := x; proc_status := proc_status e;
     clock := clock e; stack := stack e |}.

Definition with_file_data (x : option string) (e : Env) : Env :=
  {| dirs := dirs e; chdir_errno := chdir_errno e; programs := programs e;
     garbage := garbage e;
     ssh_client := ssh_client e; file_list := file_list e;
     file_data := x; proc := proc e; proc_status := proc_status e;
     clock := clock e; stack := stack e |}.

Definition set_env (x : Env) (w : World) : World :=
  {| env := x; stdin := stdin w; stdout := stdout w; stderr := stderr w;
     cwd := cwd w; heap := heap w; forks := forks w; next_pid := next_pid w;
     pending := pending w; errno := errno w; login_log := login_log w;
     login_stream := login_stream w; failed_log := failed_log w |}.

(** ** Notions the properties are stated with *)

(** Every allocation to come succeeds. *)
Definition heap_ok (w : World) : bool := forallb (fun b => b) (heap w).

(** The tokens [strtok] hands out, one call after the other. *)
Equations? strtok_all (token : option (list ascii)) (olds : list ascii)
  : list (list ascii) by wf (to_scan token olds) lt :=
  strtok_all None olds := [];
  strtok_all (Some t) olds :=
    t :: strtok_all (fst (strtok olds LSH_TOK_DELIM))
           (snd (strtok olds LSH_TOK_DELIM)).
Proof.
  pose proof (strtok_length olds LSH_TOK_DELIM _ _ (surjective_pairing _)).
  simpl. lia.
Qed.

Definition tokens_of (line : list ascii) : list (list ascii) :=
  strtok_all (fst (strtok line LSH_TOK_DELIM)) (snd (strtok line LSH_TOK_DELIM)).

(** The delimiters of the tokenizer. *)
Definition delim (a : ascii) : bool := is_delim LSH_TOK_DELIM a.

(** A line put together from tokens, each followed by a run of
    separators. *)
Fixpoint join (pieces : list (list ascii * list ascii)) : list ascii :=
  match pieces with
  | [] => []
  | (t, sep) :: pieces' => t ++ sep ++ join pieces'
  end.

(** Every token is non-empty and free of delimiters and NUL, every run
    of separators is made of delimiters and, but for the last one, is
    not empty. *)
Fixpoint separated (pieces : list (list ascii * list ascii)) : bool :=
  match pieces with
  | [] => true
  | (t, sep) :: pieces' =>
      negb (Nat.eqb (List.length t) 0)
      && forallb (fun a => negb (delim a) && negb (Ascii.eqb a NUL)) t
      && forallb delim sep
      && (negb (Nat.eqb (List.length sep) 0)
          || Nat.eqb (List.length pieces') 0)
      && separated pieces'
  end.

(** A line of 2^31 - 1024 letters. *)
Definition long_line : list ascii :=
  repeat "a"%char (Z.to_nat (2 ^ 31 - LSH_RL_BUFSIZE)).

(** The two answers of the dispatcher to the loop. *)
Definition Continue : Z := 1.
Definition Terminate : Z := 0.

(** An ending the kernel can report: a signal is a number from 1 to 64. *)
Definition valid_ending (e : ending) : bool :=
  match e with
  | Exits _ => true
  | Killed sig => (1 <=? sig) && (sig <=? 64)
  end.

(** The program [file], if [execvp] finds it, comes to an end. *)
Definition comes_to_an_end (file : string) (w : World) : bool :=
  match lookup file (programs (env w)) with
  | Some r =>
      match final r with
      | Some e => valid_ending e
      | None => false
      end
  | None => true
  end.

(** A wait status that ends the [do .. while] loop of [lsh_launch]. *)
Definition terminal (status : Z) : bool :=
  WIFEXITED status || WIFSIGNALED status.

(** The error [perror] reports when the launcher cannot start a program in
    [w]: no process, or else no such program. *)
Definition spawn_error (w : World) : string :=
  match hd_error (forks w) with
  | Some false => ("lsh: " ++ strerror EAGAIN ++ LF)%string
  | _ => ("lsh: " ++ strerror ENOENT ++ LF)%string
  end.

(** [w'] comes after [w] without a prompt written in between. *)
Definition no_prompt_since (w w' : World) : Prop :=
  exists written, stdout w' = stdout w ++ written /\ ~ In prompt written.

(** A computation that writes no prompt. *)
Definition promptless {A} (m : Program A) : Prop :=
  forall w, no_prompt_since w (world_of (m w)).

(** The error [perror] reports when [chdir] cannot enter [path]. *)
Definition cd_error (path : string) (w : World) : string :=
  ("lsh: " ++ strerror (chdir_errno (env w) path) ++ LF)%string.

(** [triple P m Q X]: from a world where [P] holds, [m] returns only a
    value and a world that [Q] holds of, and ends the process only with a
    status and in a world that [X] holds of. *)
Definition triple {A} (P : World -> Prop) (m : Program A)
    (Q : A -> World -> Prop) (X : Z -> World -> Prop) : Prop :=
  forall w, P w ->
    match m w with
    | Ret a w' => Q a w'
    | Exit s w' => X s w'
    | Hang _ | Fault _ | Image _ _ => True
    end.

(** A computation that takes nothing from the input. *)
Definition keeps_stdin {A} (m : Program A) : Prop :=
  forall s, triple (fun w => stdin w = s) m (fun _ w => stdin w = s)
              (fun _ _ => True).



(** The first line of a status file has a second word. *)
Definition has_name (line : string) : bool :=
  match scanf_s (list_ascii_of_string line) with
  | None => false
  | Some (_, r) =>
      match scanf_s r with
      | None => false
      | Some _ => true
      end
  end.

(** The entries of /proc that are process ids with a status file that
    can be read all have a name in it. *)
Fixpoint all_named (entries : list string) (w : World) : bool :=
  match entries with
  | [] => true
  | d_name :: entries' =>
      (if get_pid d_name =? -1 then true
       else match lookup_pid (get_pid d_name) (proc_status (env w)) with
            | None => true
            | Some line => has_name line
            end)
      && all_named entries' w
  end.

(** How many of them are named lsh. *)
Fixpoint lsh_processes (entries : list string) (w : World) : Z :=
  match entries with
  | [] => 0
  | d_name :: entries' =>
      (if get_pid d_name =? -1 then 0
       else match lookup_pid (get_pid d_name) (proc_status (env w)) with
            | None => 0
            | Some line => if String.eqb (scan_name line "") "lsh" then 1 else 0
            end)
      + lsh_processes entries' w
  end.

(** The world once [check_logon] has found the shell running. *)
Definition full_login (ip_addr : string) (lf : list string) (w : World)
  : World :=
  set_failed_log
    (Some (lf ++ [(chop (clock (env w)) ++ " FULL LOGIN " ++ ip_addr ++ LF)%string]))
    (set_stdout (stdout w ++ [already_running]) w).

(** A computation that ends the process with the status 0 only. *)
Definition exits_zero {A} (m : Program A) : Prop :=
  forall w s w', m w = Exit s w' -> s = 0.

(** Both logs can be written and hold [lf] and [ll], and [ls] waits in
    the stream of the login log. *)
Definition logs (lf ll ls : list string) (w : World) : Prop :=
  failed_log w = Some lf /\ login_log w = Some ll /\ login_stream w = ls.

(** One line was added to the failed log, none to the login log or to
    its stream. *)
Definition refused (lf ll ls : list string) (w : World) : Prop :=
  login_log w = Some ll /\ login_stream w = ls
  /\ exists x, failed_log w = Some (lf ++ [x]).

(** One line was written to the stream of the login log, where it waits:
    the file of the login log and the failed log are as they were. *)
Definition admitted (lf ll ls : list string) (w : World) : Prop :=
  failed_log w = Some lf /\ login_log w = Some ll
  /\ exists x, login_stream w = ls ++ [x].

(** A computation that returns with the logs as they were and does not
    end the process. *)
Definition keeps_logs {A} (m : Program A) : Prop :=
  forall lf ll ls X, triple (logs lf ll ls) m (fun _ => logs lf ll ls) X.





(** The world after [n] turns of the loop that all answer [Continue]. *)
Fixpoint lsh_turns (n : nat) (w : World) : option World :=
  match n with
  | O => Some w
  | S n' =>
      match lsh_loop_body w with
      | Ret status w' => if status =? 0 then None else lsh_turns n' w'
      | _ => None
      end
  end.

(** The arguments that a turn of the loop hands to the dispatcher: the
    prompt, the line reader and the tokenizer. *)
Definition dispatched : Program (list string) :=
  printf prompt ;;
  line <- lsh_read_line ;;
  args <- lsh_split_line line ;;
  ret (argv args).

(** The command [args] is run without a child that ends through [exit]:
    there is no command, or it is a builtin, or [execvp] finds it. *)
Definition launchable (args : list string) (w : World) : bool :=
  match args with
  | [] => true
  | name :: _ =>
      existsb (String.eqb name) builtin_str
      || match lookup name (programs (env w)) with
         | Some _ => true
         | None => false
         end
  end.

(** So are all the commands of the next [turns] turns of the loop. *)
Fixpoint all_launchable (turns : nat) (w : World) : bool :=
  match turns with
  | O => true
  | S turns' =>
      match dispatched w with
      | Ret args w1 =>
          launchable args w1
          && match lsh_execute args w1 with
             | Ret status w' => (status =? 0) || all_launchable turns' w'
             | _ => true
             end
      | _ => true
      end
  end.

(** The digits of a decimal number. *)
Definition digits (d : Decimal.uint) : list ascii :=
  list_ascii_of_string (NilEmpty.string_of_uint d).

(** [atoi] on an [int] that does not wrap around. *)
Definition atoi_from (n : Z) (l : list ascii) : Z :=
  fold_left (fun n a => 10 * n + (int_of_char a - 48)) l n.

(** * Properties *)

(** ** Characters and buffers *)

Lemma int_of_char_range a : 0 <= int_of_char a < 256.
Proof.
  unfold int_of_char. pose proof (N_ascii_bounded a) as H. lia.
Qed.

Lemma char_of_int_of_char a : char_of_int (int_of_char a) = a.
Proof.
  unfold char_of_int. rewrite Z.mod_small by apply int_of_char_range.
  unfold int_of_char. rewrite N2Z.id. apply ascii_N_embedding.
Qed.

Lemma int_of_char_inj a b : int_of_char a = int_of_char b -> a = b.
Proof.
  intros H. rewrite <- (char_of_int_of_char a), H. apply char_of_int_of_char.
Qed.

Lemma int_of_char_eqb a b : (int_of_char a =? int_of_char b) = Ascii.eqb a b.
Proof.
  destruct (Ascii.eqb_spec a b) as [->|Hne].
  - apply Z.eqb_refl.
  - apply Z.eqb_neq. intros H. apply Hne, int_of_char_inj, H.
Qed.

Lemma int_of_char_not_EOF a : (int_of_char a =? EOF) = false.
Proof.
  apply Z.eqb_neq. pose proof (int_of_char_range a). unfold EOF. lia.
Qed.

Lemma update_app {T} (pre : list T) y post x :
  update (pre ++ y :: post) (List.length pre) x = Some (pre ++ x :: post).
Proof.
  induction pre as [|p pre IH]; simpl; [reflexivity|].
  rewrite IH. reflexivity.
Qed.

Lemma store_app {T} (pre : list T) y post x w :
  store (pre ++ y :: post) (Z.of_nat (List.length pre)) x w
  = Ret (pre ++ x :: post) w.
Proof.
  unfold store.
  destruct (Z.ltb_spec (Z.of_nat (List.length pre)) 0) as [H|_]; [lia|].
  rewrite Nat2Z.id, update_app. reflexivity.
Qed.

Lemma c_str_app l tail :
  ~ In NUL l -> c_str (l ++ NUL :: tail) = l.
Proof.
  induction l as [|a l IH]; simpl; intros H; [reflexivity|].
  destruct (Ascii.eqb_spec a NUL) as [->|_]; [tauto|].
  rewrite IH by tauto. reflexivity.
Qed.

Lemma wrap_int_small z : - 2 ^ 31 <= z <= INT_MAX -> wrap_int z = z.
Proof.
  unfold wrap_int, INT_MAX. intros H. rewrite Z.mod_small; lia.
Qed.

(** ** The heap *)

Lemma allocate_ok n w :
  heap_ok w = true -> 0 <= n <= PTRDIFF_MAX ->
  allocate n w = (true, set_heap (tl (heap w)) w)
  /\ heap_ok (set_heap (tl (heap w)) w) = true.
Proof.
  unfold allocate, heap_ok, to_size_t, PTRDIFF_MAX. intros Hh Hn.
  rewrite Z.mod_small by lia.
  destruct (Z.gtb_spec n 9223372036854775807) as [H|_]; [lia|].
  destruct (heap w) as [|[|] h]; simpl in *; try discriminate; auto.
Qed.

(** ** The line reader (C1, C10) *)

Lemma lsh_read_line_loop_stdin input bufsize position buffer x w :
  lsh_read_line_loop input bufsize position buffer (set_stdin x w)
  = lsh_read_line_loop input bufsize position buffer w.
Proof. destruct input; reflexivity. Qed.

Lemma set_heap_same w : set_heap (heap w) w = w.
Proof. destruct w; reflexivity. Qed.

(** The loop over characters [l] that are no line terminator, when the
    buffer holds [pre] and has the room [free] left: it stores them
    behind [pre] and goes on with what follows them, with room left. *)
Lemma lsh_read_line_loop_chars more l :
  forall pre free w,
    ~ In newline l -> free <> [] -> heap_ok w = true ->
    Z.of_nat (List.length pre + List.length l) + LSH_RL_BUFSIZE <= INT_MAX ->
    exists free' h,
      free' <> [] /\ forallb (fun b => b) h = true
      /\ lsh_read_line_loop (l ++ more)
           (Z.of_nat (List.length (pre ++ free))) (Z.of_nat (List.length pre))
           (pre ++ free) w
         = lsh_read_line_loop more
             (Z.of_nat (List.length ((pre ++ l) ++ free')))
             (Z.of_nat (List.length (pre ++ l)))
             ((pre ++ l) ++ free') (set_heap h w).
Proof.
  unfold LSH_RL_BUFSIZE, INT_MAX.
  induction l as [|a l IH]; intros pre free w Hnl Hfree Hheap Hlen.
  - exists free, (heap w). rewrite app_nil_r, set_heap_same. auto.
  - destruct free as [|y free']; [congruence|]. clear Hfree.
    cbn [lsh_read_line_loop app].
    rewrite int_of_char_not_EOF, int_of_char_eqb.
    destruct (Ascii.eqb_spec a newline) as [->|_]; [simpl in Hnl; tauto|].
    unfold bind at 1. rewrite store_app, char_of_int_of_char.
    cbn [List.length] in Hlen.
    rewrite wrap_int_small by (unfold INT_MAX; lia).
    assert (Hbuf : pre ++ a :: free' = (pre ++ [a]) ++ free')
      by (rewrite <- app_assoc; reflexivity).
    assert (Hsize : Z.of_nat (List.length (pre ++ y :: free'))
                    = Z.of_nat (List.length ((pre ++ [a]) ++ free')))
      by (rewrite !length_app; simpl; lia).
    rewrite Hsize, Hbuf.
    replace (Z.of_nat (List.length pre) + 1)
      with (Z.of_nat (List.length (pre ++ [a])))
      by (rewrite length_app; simpl; lia).
    assert (Hnl' : ~ In newline l) by (simpl in Hnl; tauto).
    assert (Hlen' : Z.of_nat (List.length (pre ++ [a]) + List.length l) + 1024
                    <= 2147483647) by (rewrite length_app; simpl; lia).
    replace (pre ++ a :: l) with ((pre ++ [a]) ++ l)
      by (rewrite <- app_assoc; reflexivity).
    destruct free' as [|y' free''].
    + (* the buffer is full: it grows *)
      rewrite app_nil_r in *.
      set (B := Z.of_nat (List.length (pre ++ [a]))) in *.
      assert (HB : B = Z.of_nat (List.length pre) + 1)
        by (unfold B; rewrite length_app; simpl; lia).
      destruct (Z.geb_spec B B) as [_|H]; [|lia].
      rewrite wrap_int_small by (unfold INT_MAX, LSH_RL_BUFSIZE; lia).
      unfold bind at 1, realloc, LSH_RL_BUFSIZE.
      destruct (allocate_ok (B + 1024) (set_stdin (l ++ more) w))
        as [Ha Hh]; [exact Hheap | unfold PTRDIFF_MAX; lia |].
      rewrite Ha.
      assert (Hcells : Z.to_nat (to_size_t (B + 1024) / 1)
                       = (List.length (pre ++ [a]) + 1024)%nat).
      { unfold to_size_t. rewrite Z.mod_small, Z.div_1_r by lia.
        unfold B. lia. }
      rewrite Hcells, firstn_all2 by lia.
      replace (List.length (pre ++ [a]) + 1024 - List.length (pre ++ [a]))%nat
        with 1024%nat by lia.
      set (free := repeat (garbage (env (set_stdin (l ++ more) w))) 1024).
      assert (Hfl : List.length free = 1024%nat) by apply repeat_length.
      replace (B + 1024)
        with (Z.of_nat (List.length ((pre ++ [a]) ++ free)))
        by (rewrite length_app, Hfl; unfold B; lia).
      destruct (IH (pre ++ [a]) free
                  (set_heap (tl (heap (set_stdin (l ++ more) w)))
                     (set_stdin (l ++ more) w)))
        as (free1 & h & Hf1 & Hok & Hrun); auto.
      { intros E. rewrite E in Hfl. discriminate. }
      exists free1, h. unfold B. rewrite Hrun. repeat split; auto.
      exact (lsh_read_line_loop_stdin more _ _ _ (l ++ more) (set_heap h w)).
    + destruct (Z.geb_spec (Z.of_nat (List.length (pre ++ [a])))
                  (Z.of_nat (List.length ((pre ++ [a]) ++ y' :: free''))))
        as [H|_]; [rewrite length_app in H; simpl in H; lia|].
      destruct (IH (pre ++ [a]) (y' :: free'') (set_stdin (l ++ more) w))
        as (free1 & h & Hf1 & Hok & Hrun); auto; [discriminate|].
      exists free1, h. rewrite Hrun. repeat split; auto.
      exact (lsh_read_line_loop_stdin more _ _ _ (l ++ more) (set_heap h w)).
Qed.

(** The loop over a line [l] and its terminator. *)
Lemma lsh_read_line_loop_line rest l pre free w :
  ~ In newline l -> free <> [] -> heap_ok w = true ->
  Z.of_nat (List.length pre + List.length l) + LSH_RL_BUFSIZE <= INT_MAX ->
  exists tail h,
    lsh_read_line_loop (l ++ newline :: rest)
      (Z.of_nat (List.length (pre ++ free))) (Z.of_nat (List.length pre))
      (pre ++ free) w
    = Ret (pre ++ l ++ NUL :: tail) (set_heap h (set_stdin rest w))
    /\ forallb (fun b => b) h = true.
Proof.
  intros Hnl Hfree Hheap Hlen.
  destruct (lsh_read_line_loop_chars (newline :: rest) l pre free w)
    as (free' & h & Hf & Hok & Hrun); auto.
  destruct free' as [|y free']; [congruence|].
  exists free', h. rewrite Hrun. split; [|exact Hok].
  cbn [lsh_read_line_loop]. rewrite int_of_char_not_EOF, Z.eqb_refl.
  rewrite store_app, <- app_assoc. reflexivity.
Qed.

(** The loop over characters [l] behind which the input ends. *)
Lemma lsh_read_line_loop_eof l pre free w :
  ~ In newline l -> free <> [] -> heap_ok w = true ->
  Z.of_nat (List.length pre + List.length l) + LSH_RL_BUFSIZE <= INT_MAX ->
  exists h,
    lsh_read_line_loop l
      (Z.of_nat (List.length (pre ++ free))) (Z.of_nat (List.length pre))
      (pre ++ free) w
    = Exit EXIT_SUCCESS (set_heap h (set_stdin [] w)).
Proof.
  intros Hnl Hfree Hheap Hlen.
  destruct (lsh_read_line_loop_chars [] l pre free w)
    as (free' & h & Hf & Hok & Hrun); auto.
  rewrite app_nil_r in Hrun. exists h. rewrite Hrun. reflexivity.
Qed.

Lemma lsh_read_line_start w :
  heap_ok w = true ->
  lsh_read_line w
  = lsh_read_line_loop (stdin w)
      (Z.of_nat (List.length ([] ++ repeat (garbage (env w)) 1024)))
      (Z.of_nat (List.length (@nil ascii)))
      ([] ++ repeat (garbage (env w)) 1024)
      (set_heap (tl (heap w)) w).
Proof.
  intros Hheap. unfold lsh_read_line, bind, malloc.
  destruct (allocate_ok (1 * LSH_RL_BUFSIZE) w) as [Ha _];
    [exact Hheap | unfold PTRDIFF_MAX, LSH_RL_BUFSIZE; lia |].
  rewrite Ha. cbn [app]. rewrite repeat_length. reflexivity.
Qed.

(** What [lsh_read_line] returns for a line, when no allocation fails. *)
Lemma lsh_read_line_line w l rest :
  stdin w = l ++ newline :: rest ->
  ~ In newline l ->
  heap_ok w = true ->
  Z.of_nat (List.length l) < 2 ^ 31 - LSH_RL_BUFSIZE ->
  exists tail h,
    lsh_read_line w = Ret (l ++ NUL :: tail) (set_heap h (set_stdin rest w))
    /\ forallb (fun b => b) h = true.
Proof.
  intros Hin Hnl Hheap Hlen.
  rewrite (lsh_read_line_start w Hheap).
  cbn [stdin set_heap]. rewrite Hin.
  destruct (lsh_read_line_loop_line rest l [] (repeat (garbage (env w)) 1024)
              (set_heap (tl (heap w)) w)) as (tail & h & Hrun & Hok).
  - exact Hnl.
  - discriminate.
  - apply (allocate_ok (1 * LSH_RL_BUFSIZE) w Hheap).
    unfold PTRDIFF_MAX, LSH_RL_BUFSIZE. lia.
  - unfold INT_MAX, LSH_RL_BUFSIZE in *. simpl List.length. lia.
  - rewrite Hrun. exists tail, h. split; [reflexivity | exact Hok].
Qed.

(** What it does when the input ends before the line does. *)
Lemma lsh_read_line_eof w :
  ~ In newline (stdin w) ->
  heap_ok w = true ->
  Z.of_nat (List.length (stdin w)) < 2 ^ 31 - LSH_RL_BUFSIZE ->
  exists h, lsh_read_line w = Exit EXIT_SUCCESS (set_heap h (set_stdin [] w)).
Proof.
  intros Hnl Hheap Hlen.
  rewrite (lsh_read_line_start w Hheap).
  cbn [stdin set_heap].
  destruct (lsh_read_line_loop_eof (stdin w) [] (repeat (garbage (env w)) 1024)
              (set_heap (tl (heap w)) w)) as (h & Hrun).
  - exact Hnl.
  - discriminate.
  - apply (allocate_ok (1 * LSH_RL_BUFSIZE) w Hheap).
    unfold PTRDIFF_MAX, LSH_RL_BUFSIZE. lia.
  - unfold INT_MAX, LSH_RL_BUFSIZE in *. simpl List.length. lia.
  - rewrite Hrun. exists h. reflexivity.
Qed.

(** C1 (amended): a line of fewer than 2^31 - 1024 characters is
    returned whole, whatever its length below that bound and however
    often the buffer grew: the buffer returned holds the characters read
    before the line terminator, then NUL; the terminator is consumed and
    not stored; nothing is written.  For a line without NUL the string
    returned is the line itself. *)
Theorem lsh_read_line_whole_line (w : World) (l rest : list ascii) :
  stdin w = l ++ newline :: rest ->
  ~ In newline l ->
  heap_ok w = true ->
  Z.of_nat (List.length l) < 2 ^ 31 - LSH_RL_BUFSIZE ->
  exists buffer w',
    lsh_read_line w = Ret buffer w'
    /\ (exists tail, buffer = l ++ NUL :: tail)
    /\ (~ In NUL l -> c_str buffer = l)
    /\ stdin w' = rest
    /\ stdout w' = stdout w /\ stderr w' = stderr w /\ cwd w' = cwd w.
Proof.
  intros Hin Hnl Hheap Hlen.
  destruct (lsh_read_line_line w l rest Hin Hnl Hheap Hlen)
    as (tail & h & Hrun & _).
  rewrite Hrun. eexists _, _. split; [reflexivity|].
  split; [exists tail; reflexivity|].
  split; [intros Hz; apply c_str_app, Hz|].
  repeat split.
Qed.

Lemma lsh_read_line_whole_line_witness :
  exists buffer w',
    lsh_read_line (sample_world ("ls -l" ++ LF ++ "exit" ++ LF))
    = Ret buffer w'
    /\ (exists tail, buffer = list_ascii_of_string "ls -l" ++ NUL :: tail)
    /\ (~ In NUL (list_ascii_of_string "ls -l")
        -> c_str buffer = list_ascii_of_string "ls -l")
    /\ stdin w' = list_ascii_of_string ("exit" ++ LF)
    /\ stdout w' = [] /\ stderr w' = [] /\ cwd w' = "/home".
Proof.
  apply (lsh_read_line_whole_line
           (sample_world ("ls -l" ++ LF ++ "exit" ++ LF))
           (list_ascii_of_string "ls -l")
           (list_ascii_of_string ("exit" ++ LF))).
  - reflexivity.
  - simpl. intros H. repeat (destruct H as [H|H]; [discriminate H|]). exact H.
  - reflexivity.
  - vm_compute. reflexivity.
Defined.

(** The loop over a line so long that the [int] that holds the size of
    the buffer wraps around when the buffer has to grow once more. *)
Lemma lsh_read_line_loop_overflow more l :
  forall pre free w,
    ~ In newline l -> free <> [] -> heap_ok w = true ->
    Z.of_nat (List.length (pre ++ free)) mod LSH_RL_BUFSIZE = 0 ->
    Z.of_nat (List.length (pre ++ free)) <= 2 ^ 31 - LSH_RL_BUFSIZE ->
    2 ^ 31 - LSH_RL_BUFSIZE <= Z.of_nat (List.length pre + List.length l) ->
    exists w',
      lsh_read_line_loop (l ++ more)
        (Z.of_nat (List.length (pre ++ free))) (Z.of_nat (List.length pre))
        (pre ++ free) w
      = Exit EXIT_FAILURE w'
      /\ stderr w' = stderr w ++ [allocation_error].
Proof.
  unfold LSH_RL_BUFSIZE.
  induction l as [|a l IH]; intros pre free w Hnl Hfree Hheap Hmod Hsz Hlen;
    destruct free as [|y free']; try congruence; clear Hfree.
  - rewrite length_app in Hsz. simpl in *. lia.
  - cbn [lsh_read_line_loop app].
    rewrite int_of_char_not_EOF, int_of_char_eqb.
    destruct (Ascii.eqb_spec a newline) as [->|_]; [simpl in Hnl; tauto|].
    unfold bind at 1. rewrite store_app, char_of_int_of_char.
    cbn [List.length] in Hlen.
    assert (Hsz' : Z.of_nat (List.length pre) + 1 <= 2 ^ 31 - 1024)
      by (rewrite length_app in Hsz; simpl in Hsz; lia).
    rewrite wrap_int_small by (unfold INT_MAX; lia).
    assert (Hnl' : ~ In newline l) by (simpl in Hnl; tauto).
    assert (Hsize : Z.of_nat (List.length (pre ++ y :: free'))
                    = Z.of_nat (List.length ((pre ++ [a]) ++ free')))
      by (rewrite !length_app; simpl; lia).
    assert (Hbuf : pre ++ a :: free' = (pre ++ [a]) ++ free')
      by (rewrite <- app_assoc; reflexivity).
    rewrite Hsize in Hmod, Hsz |- *. rewrite Hbuf.
    replace (Z.of_nat (List.length pre) + 1)
      with (Z.of_nat (List.length (pre ++ [a])))
      by (rewrite length_app; simpl; lia).
    destruct free' as [|y' free''].
    + rewrite app_nil_r in *.
      set (B := Z.of_nat (List.length (pre ++ [a]))) in *.
      destruct (Z.geb_spec B B) as [_|H]; [|lia].
      unfold bind at 1, realloc, LSH_RL_BUFSIZE.
      pose proof (Z.div_mod B 1024 ltac:(lia)) as Hdiv. rewrite Hmod in Hdiv.
      destruct (Z.eq_dec B (2 ^ 31 - 1024)) as [Hmax|Hless].
      * (* the size wraps around and no such object can be allocated *)
        rewrite Hmax.
        change (wrap_int (2 ^ 31 - 1024 + 1024)) with (- 2 ^ 31).
        unfold allocate.
        change (to_size_t (- 2 ^ 31) >? PTRDIFF_MAX) with true.
        cbn iota. unfold bind, fprintf_stderr, exit.
        eexists. split; [reflexivity|]. reflexivity.
      * assert (HB : B + 1024 <= 2 ^ 31 - 1024) by lia.
        rewrite wrap_int_small by (unfold INT_MAX; lia).
        destruct (allocate_ok (B + 1024) (set_stdin (l ++ more) w))
          as [Ha Hh]; [exact Hheap | unfold PTRDIFF_MAX; lia |].
        rewrite Ha.
        assert (Hcells : Z.to_nat (to_size_t (B + 1024) / 1)
                         = (List.length (pre ++ [a]) + 1024)%nat).
        { unfold to_size_t. rewrite Z.mod_small, Z.div_1_r by lia.
          unfold B. lia. }
        rewrite Hcells, firstn_all2 by lia.
        replace (List.length (pre ++ [a]) + 1024 - List.length (pre ++ [a]))%nat
          with 1024%nat by lia.
        set (free := repeat (garbage (env (set_stdin (l ++ more) w))) 1024).
        assert (Hfl : List.length free = 1024%nat) by apply repeat_length.
        assert (Hgrown : B + 1024
                         = Z.of_nat (List.length ((pre ++ [a]) ++ free)))
          by (rewrite length_app, Hfl; unfold B; lia).
        rewrite Hgrown.
        destruct (IH (pre ++ [a]) free
                    (set_heap (tl (heap (set_stdin (l ++ more) w)))
                       (set_stdin (l ++ more) w))) as (w' & Hrun & Herr).
        -- exact Hnl'.
        -- intros E. rewrite E in Hfl. discriminate.
        -- exact Hh.
        -- rewrite <- Hgrown, <- Zplus_mod_idemp_l, Hmod. reflexivity.
        -- lia.
        -- rewrite length_app. simpl. lia.
        -- exists w'. split; [exact Hrun | exact Herr].
    + destruct (Z.geb_spec (Z.of_nat (List.length (pre ++ [a])))
                  (Z.of_nat (List.length ((pre ++ [a]) ++ y' :: free''))))
        as [H|_]; [rewrite length_app in H; simpl in H; lia|].
      destruct (IH (pre ++ [a]) (y' :: free'') (set_stdin (l ++ more) w))
        as (w' & Hrun & Herr).
      * exact Hnl'.
      * discriminate.
      * exact Hheap.
      * exact Hmod.
      * exact Hsz.
      * rewrite length_app. simpl. lia.
      * exists w'. split; [exact Hrun | exact Herr].
Qed.

Lemma lsh_read_line_too_long (w : World) (l more : list ascii) :
  stdin w = l ++ more ->
  ~ In newline l ->
  heap_ok w = true ->
  2 ^ 31 - LSH_RL_BUFSIZE <= Z.of_nat (List.length l) ->
  exists w',
    lsh_read_line w = Exit EXIT_FAILURE w'
    /\ stderr w' = stderr w ++ [allocation_error].
Proof.
  intros Hin Hnl Hheap Hlen.
  rewrite (lsh_read_line_start w Hheap).
  cbn [stdin set_heap]. rewrite Hin.
  apply (lsh_read_line_loop_overflow more l []
           (repeat (garbage (env w)) 1024) (set_heap (tl (heap w)) w)).
  - exact Hnl.
  - discriminate.
  - apply (allocate_ok (1 * LSH_RL_BUFSIZE) w Hheap).
    unfold PTRDIFF_MAX, LSH_RL_BUFSIZE. lia.
  - cbn [app]. rewrite repeat_length. reflexivity.
  - cbn [app]. rewrite repeat_length. unfold LSH_RL_BUFSIZE. lia.
  - exact Hlen.
Qed.

(** C1, as stated, fails: the line reader does not return a line of
    2^31 - 1024 characters, it ends the process with a failure status
    although every allocation the heap is asked for succeeds. *)
Lemma lsh_read_line_long_line_lost :
  heap_ok (sample_world_of (long_line ++ [newline])) = true
  /\ exists w',
       lsh_read_line (sample_world_of (long_line ++ [newline]))
       = Exit EXIT_FAILURE w'.
Proof.
  split; [reflexivity|].
  destruct (lsh_read_line_too_long
              (sample_world_of (long_line ++ [newline])) long_line [newline])
    as (w' & Hrun & _).
  - reflexivity.
  - unfold long_line. intros H. apply repeat_spec in H. discriminate H.
  - reflexivity.
  - unfold long_line. rewrite repeat_length.
    rewrite Z2Nat.id; unfold LSH_RL_BUFSIZE; lia.
  - exists w'. exact Hrun.
Qed.

(** ** The tokenizer (C6) *)

Lemma lsh_split_line_loop_tokens :
  forall token olds pre free w,
    free <> [] -> heap_ok w = true ->
    Z.of_nat (List.length pre + to_scan token olds) + LSH_TOK_BUFSIZE <= INT_MAX ->
    exists tail h,
      lsh_split_line_loop token olds
        (Z.of_nat (List.length (pre ++ free))) (Z.of_nat (List.length pre))
        (pre ++ free) w
      = Ret (pre ++ map (fun t => Some (string_of_list_ascii t))
                      (strtok_all token olds) ++ None :: tail)
          (set_heap h w)
      /\ forallb (fun b => b) h = true.
Proof.
  intros token olds. funelim (strtok_all token olds);
    intros pre free w Hfree Hheap Hlen;
    destruct free as [|y free']; try congruence; clear Hfree;
    simp lsh_split_line_loop.
  2:{ rewrite store_app.
      exists free', (heap w). rewrite set_heap_same. auto. }
  unfold bind at 1. rewrite store_app.
  unfold LSH_TOK_BUFSIZE, INT_MAX in *. cbn [to_scan] in Hlen.
  pose proof (strtok_length olds LSH_TOK_DELIM _ _ (surjective_pairing _))
    as Hscan.
  cbn zeta. rewrite wrap_int_small by (unfold INT_MAX; lia).
  assert (Hbuf : pre ++ Some (string_of_list_ascii t) :: free'
                 = (pre ++ [Some (string_of_list_ascii t)]) ++ free')
    by (rewrite <- app_assoc; reflexivity).
  assert (Hsize : Z.of_nat (List.length (pre ++ y :: free'))
                  = Z.of_nat (List.length
                       ((pre ++ [Some (string_of_list_ascii t)]) ++ free')))
    by (rewrite !length_app; simpl; lia).
  rewrite Hsize, Hbuf.
  replace (Z.of_nat (List.length pre) + 1)
    with (Z.of_nat (List.length (pre ++ [Some (string_of_list_ascii t)])))
    by (rewrite length_app; simpl; lia).
  set (pre' := pre ++ [Some (string_of_list_ascii t)]) in *.
  assert (Hpre' : List.length pre' = S (List.length pre))
    by (unfold pre'; rewrite length_app; simpl; lia).
  destruct free' as [|y' free''].
  - rewrite app_nil_r in *.
    destruct (Z.geb_spec (Z.of_nat (List.length pre'))
                (Z.of_nat (List.length pre'))) as [_|Hlt]; [|lia].
    rewrite wrap_int_small by (unfold INT_MAX; lia).
    unfold bind at 1, realloc.
    destruct (allocate_ok ((Z.of_nat (List.length pre') + 64) * 8) w)
      as [Ha Hh]; [exact Hheap | unfold PTRDIFF_MAX; lia |].
    rewrite Ha.
    assert (Hcells : Z.to_nat
              (to_size_t ((Z.of_nat (List.length pre') + 64) * 8) / 8)
            = (List.length pre' + 64)%nat).
    { unfold to_size_t. rewrite Z.mod_small, Z.div_mul by lia. lia. }
    rewrite Hcells, firstn_all2 by lia.
    replace (List.length pre' + 64 - List.length pre')%nat
      with 64%nat by lia.
    set (free := repeat (@None string) 64).
    replace (Z.of_nat (List.length pre') + 64)
      with (Z.of_nat (List.length (pre' ++ free)))
      by (rewrite length_app; unfold free; rewrite repeat_length; lia).
    destruct (H pre' free (set_heap (tl (heap w)) w))
      as (tail & h & Hrun & Hok); auto; [discriminate | lia |].
    exists tail, h. rewrite Hrun. split; [|exact Hok].
    unfold pre'. rewrite <- !app_assoc. reflexivity.
  - destruct (Z.geb_spec (Z.of_nat (List.length pre'))
                (Z.of_nat (List.length (pre' ++ y' :: free''))))
      as [Hge|_]; [rewrite length_app in Hge; simpl in Hge; lia|].
    destruct (H pre' (y' :: free'') w)
      as (tail & h & Hrun & Hok); auto; [discriminate | lia |].
    exists tail, h. rewrite Hrun. split; [|exact Hok].
    unfold pre'. rewrite <- !app_assoc. reflexivity.
Qed.
(** *** What [strtok] finds *)

Arguments is_delim : simpl never.
Arguments delim : simpl never.

Lemma skip_delims_run ds s :
  forallb delim ds = true ->
  skip_delims LSH_TOK_DELIM (ds ++ s) = skip_delims LSH_TOK_DELIM s.
Proof.
  induction ds as [|d ds IH]; simpl; intros H; [reflexivity|].
  apply andb_prop in H. destruct H as [Hd Hds].
  unfold delim in Hd. rewrite Hd. apply IH, Hds.
Qed.

Lemma skip_delims_token a s :
  delim a = false -> skip_delims LSH_TOK_DELIM (a :: s) = a :: s.
Proof. unfold delim. simpl skip_delims. intros ->. reflexivity. Qed.

Lemma skip_delims_cases s :
  (skip_delims LSH_TOK_DELIM s = [] /\ forallb delim s = true)
  \/ exists ds a s',
       s = ds ++ a :: s' /\ forallb delim ds = true /\ delim a = false
       /\ skip_delims LSH_TOK_DELIM s = a :: s'.
Proof.
  induction s as [|a s IH]; [left; auto|].
  simpl. fold (delim a). destruct (delim a) eqn:Ha.
  - destruct IH as [[H1 H2]|(ds & b & s' & E & Hds & Hb & Hs)].
    + left. auto.
    + right. exists (a :: ds), b, s'. subst s. simpl. rewrite Ha, Hds. auto.
  - right. exists [], a, s. auto.
Qed.

Lemma scan_token_run t :
  forallb (fun a => negb (delim a)) t = true ->
  (forall d s, delim d = true ->
     scan_token LSH_TOK_DELIM (t ++ d :: s) = (t, s))
  /\ scan_token LSH_TOK_DELIM t = (t, []).
Proof.
  induction t as [|a t IH]; simpl; intros H.
  - split; [|reflexivity]. intros d s Hd. unfold delim in Hd. rewrite Hd.
    reflexivity.
  - apply andb_prop in H. destruct H as [Ha Ht].
    apply negb_true_iff in Ha. unfold delim in Ha. rewrite Ha.
    destruct (IH Ht) as [IH1 IH2]. split.
    + intros d s Hd. rewrite (IH1 d s Hd). reflexivity.
    + rewrite IH2. reflexivity.
Qed.

(** A scan splits what it scans into the token, free of delimiters, and
    the rest, with at most one delimiter between them. *)
Lemma scan_token_cases s t r :
  scan_token LSH_TOK_DELIM s = (t, r) ->
  forallb (fun a => negb (delim a)) t = true
  /\ ((s = t /\ r = []) \/ exists d, delim d = true /\ s = t ++ d :: r).
Proof.
  revert t r. induction s as [|a s IH]; simpl; intros t r H.
  - inversion H; subst. auto.
  - fold (delim a) in H. destruct (delim a) eqn:Ha.
    + inversion H; subst. split; [reflexivity|]. right. exists a. auto.
    + destruct (scan_token LSH_TOK_DELIM s) as [t' r'] eqn:E.
      inversion H; subst. destruct (IH _ _ eq_refl) as [Ht Hs].
      split; [simpl; rewrite Ha, Ht; reflexivity|].
      destruct Hs as [[-> ->]|(d & Hd & ->)]; [left; auto|].
      right. exists d. auto.
Qed.

Lemma strtok_all_none olds : strtok_all None olds = [].
Proof. simp strtok_all. reflexivity. Qed.

Lemma strtok_all_some t olds :
  strtok_all (Some t) olds = t :: tokens_of olds.
Proof. simp strtok_all. reflexivity. Qed.

Lemma tokens_of_blank ds : forallb delim ds = true -> tokens_of ds = [].
Proof.
  intros H. unfold tokens_of, strtok.
  rewrite <- (app_nil_r ds), skip_delims_run by exact H. reflexivity.
Qed.

Lemma tokens_of_last ds t :
  forallb delim ds = true -> t <> [] ->
  forallb (fun a => negb (delim a)) t = true ->
  tokens_of (ds ++ t) = [t].
Proof.
  intros Hds Hne Ht. unfold tokens_of, strtok.
  rewrite skip_delims_run by exact Hds.
  destruct t as [|a t]; [congruence|].
  rewrite skip_delims_token
    by (simpl in Ht; apply andb_prop in Ht; apply negb_true_iff, Ht).
  destruct (scan_token_run (a :: t) Ht) as [_ ->]. cbn [fst snd].
  rewrite strtok_all_some. rewrite (tokens_of_blank []); reflexivity.
Qed.

Lemma tokens_of_next ds t d s :
  forallb delim ds = true -> t <> [] ->
  forallb (fun a => negb (delim a)) t = true -> delim d = true ->
  tokens_of (ds ++ t ++ d :: s) = t :: tokens_of s.
Proof.
  intros Hds Hne Ht Hd. unfold tokens_of at 1. unfold strtok.
  rewrite skip_delims_run by exact Hds.
  destruct t as [|a t]; [congruence|].
  change ((a :: t) ++ d :: s) with (a :: (t ++ d :: s)).
  rewrite skip_delims_token
    by (simpl in Ht; apply andb_prop in Ht; apply negb_true_iff, Ht).
  change (a :: (t ++ d :: s)) with ((a :: t) ++ d :: s).
  destruct (scan_token_run (a :: t) Ht) as [-> _]; [|exact Hd].
  cbn [fst snd]. apply strtok_all_some.
Qed.

Lemma forallb_weaken {T} (p q : T -> bool) l :
  (forall x, p x = true -> q x = true) ->
  forallb p l = true -> forallb q l = true.
Proof.
  intros Hpq. induction l as [|x l IH]; simpl; [reflexivity|].
  intros H. apply andb_prop in H. destruct H as [Hx Hl].
  rewrite (Hpq x Hx), (IH Hl). reflexivity.
Qed.

(** The tokens of a line made of separated pieces are its pieces, in the
    order of the line, however long the runs of separators are. *)
Lemma tokens_of_join pieces :
  forall lead,
    forallb delim lead = true -> separated pieces = true ->
    tokens_of (lead ++ join pieces) = map fst pieces.
Proof.
  induction pieces as [|[t sep] pieces IH]; intros lead Hlead Hsep.
  - simpl. rewrite app_nil_r. apply tokens_of_blank, Hlead.
  - cbn [separated] in Hsep.
    repeat (apply andb_prop in Hsep; destruct Hsep as [Hsep ?]).
    assert (Ht : t <> [])
      by (intros ->; simpl in Hsep; discriminate).
    assert (Hnd : forallb (fun a => negb (delim a)) t = true).
    { revert H2. apply forallb_weaken. intros x Hx.
      apply andb_prop in Hx. apply Hx. }
    cbn [join map fst]. destruct sep as [|d sep].
    + simpl in H0. apply Nat.eqb_eq in H0.
      destruct pieces; [|discriminate]. simpl. rewrite app_nil_r.
      apply tokens_of_last; assumption.
    + simpl in H1. apply andb_prop in H1. destruct H1 as [Hd Hseps].
      change ((d :: sep) ++ join pieces) with (d :: (sep ++ join pieces)).
      rewrite tokens_of_next by assumption.
      rewrite IH by assumption. reflexivity.
Qed.

(** Whatever the line, its tokens are not empty and hold no delimiter,
    and put end to end they are the line without its delimiters. *)
Lemma tokens_of_sound :
  forall n s, (List.length s <= n)%nat ->
    Forall (fun t => t <> [] /\ forallb (fun a => negb (delim a)) t = true)
      (tokens_of s)
    /\ List.concat (tokens_of s) = filter (fun a => negb (delim a)) s.
Proof.
  induction n as [|n IH]; intros s Hn.
  - destruct s; [|simpl in Hn; lia]. rewrite (tokens_of_blank []) by reflexivity.
    split; [constructor | reflexivity].
  - destruct (skip_delims_cases s) as [[_ Hb]|(ds & a & s' & E & Hds & Ha & Hk)].
    + rewrite tokens_of_blank by exact Hb. split; [constructor|].
      clear Hn. induction s as [|x s IHs]; [reflexivity|].
      simpl in Hb |- *. apply andb_prop in Hb. destruct Hb as [Hx Hs].
      rewrite Hx. simpl. apply IHs, Hs.
    + destruct (scan_token LSH_TOK_DELIM (a :: s')) as [t r] eqn:Es.
      destruct (scan_token_cases _ _ _ Es) as [Ht Hcase].
      assert (Hne : t <> []).
      { intros ->. destruct Hcase as [[Hc _]|(d & Hd & Hc)];
          [discriminate|]. simpl in Hc. inversion Hc; subst. congruence. }
      assert (Hfilter : forall l,
                 forallb delim l = true ->
                 filter (fun a => negb (delim a)) l = []).
      { induction l as [|x l IHl]; [reflexivity|]. simpl. intros Hl.
        apply andb_prop in Hl. destruct Hl as [Hx Hl]. rewrite Hx. simpl.
        apply IHl, Hl. }
      assert (Hkeep : filter (fun a => negb (delim a)) t = t).
      { clear - Ht. induction t as [|x t IHt]; [reflexivity|]. simpl in *.
        apply andb_prop in Ht. destruct Ht as [Hx Ht]. rewrite Hx.
        rewrite IHt by exact Ht. reflexivity. }
      destruct Hcase as [[Hc ->]|(d & Hd & Hc)].
      * rewrite E, Hc, tokens_of_last by assumption.
        split; [repeat constructor; assumption|].
        simpl. rewrite app_nil_r, filter_app, (Hfilter ds Hds), Hkeep.
        reflexivity.
      * rewrite E, Hc, tokens_of_next by assumption.
        assert (Hr : (List.length r <= n)%nat).
        { subst s. rewrite Hc in Hn. rewrite !length_app in Hn.
          simpl in Hn. lia. }
        destruct (IH r Hr) as [IH1 IH2]. split.
        -- constructor; [split; assumption | exact IH1].
        -- simpl. rewrite IH2, !filter_app, (Hfilter ds Hds), Hkeep.
           simpl. rewrite Hd. reflexivity.
Qed.

Lemma c_str_length buf : (List.length (c_str buf) <= List.length buf)%nat.
Proof.
  induction buf as [|a buf IH]; simpl; [lia|].
  destruct (Ascii.eqb a NUL); simpl; lia.
Qed.

Lemma c_str_no_NUL l : ~ In NUL l -> c_str l = l.
Proof.
  intros H. rewrite <- (app_nil_r l) at 1.
  induction l as [|a l IH]; simpl; [reflexivity|].
  destruct (Ascii.eqb_spec a NUL) as [->|_]; [simpl in H; tauto|].
  rewrite IH by (simpl in H; tauto). reflexivity.
Qed.

Lemma argv_app l tail :
  argv (map (fun t => Some (string_of_list_ascii t)) l ++ None :: tail)
  = map string_of_list_ascii l.
Proof. induction l as [|t l IH]; simpl; [|rewrite IH]; reflexivity. Qed.

Lemma delim_not_NUL a : delim a = true -> a <> NUL.
Proof. intros H ->. discriminate H. Qed.

Lemma join_no_NUL pieces :
  forall lead,
    forallb delim lead = true -> separated pieces = true ->
    ~ In NUL (lead ++ join pieces).
Proof.
  assert (Hrun : forall l, forallb delim l = true -> ~ In NUL l).
  { intros l Hl Hin. rewrite forallb_forall in Hl.
    apply (delim_not_NUL NUL); auto. }
  induction pieces as [|[t sep] pieces IH]; intros lead Hlead Hsep Hin.
  - simpl in Hin. rewrite app_nil_r in Hin. apply (Hrun lead); assumption.
  - cbn [separated] in Hsep.
    repeat (apply andb_prop in Hsep; destruct Hsep as [Hsep ?]).
    cbn [join] in Hin. apply in_app_or in Hin. destruct Hin as [Hin|Hin].
    + apply (Hrun lead); assumption.
    + apply in_app_or in Hin. destruct Hin as [Hin|Hin].
      * rewrite forallb_forall in H2. apply H2 in Hin.
        apply andb_prop in Hin. destruct Hin as [_ Hin].
        rewrite Ascii.eqb_refl in Hin. discriminate.
      * apply (IH sep); assumption.
Qed.

(** What [lsh_split_line] returns, when no allocation fails. *)
Lemma lsh_split_line_tokens line w :
  heap_ok w = true ->
  Z.of_nat (List.length (c_str line)) + LSH_TOK_BUFSIZE <= INT_MAX ->
  exists tail h,
    lsh_split_line line w
    = Ret (map (fun t => Some (string_of_list_ascii t)) (tokens_of (c_str line))
             ++ None :: tail) (set_heap h w)
    /\ forallb (fun b => b) h = true.
Proof.
  intros Hheap Hlen. unfold lsh_split_line, bind, malloc.
  destruct (allocate_ok (LSH_TOK_BUFSIZE * 8) w) as [Ha Hh];
    [exact Hheap | unfold PTRDIFF_MAX, LSH_TOK_BUFSIZE; lia |].
  rewrite Ha.
  change (Z.to_nat (to_size_t (LSH_TOK_BUFSIZE * 8) / 8)) with 64%nat.
  pose proof (strtok_length (c_str line) LSH_TOK_DELIM _ _
                (surjective_pairing _)) as Hscan.
  unfold tokens_of.
  destruct (strtok (c_str line) LSH_TOK_DELIM) as [token olds].
  cbn [fst snd] in *.
  destruct (lsh_split_line_loop_tokens token olds [] (repeat None 64)
              (set_heap (tl (heap w)) w)) as (tail & h & Hrun & Hok).
  - discriminate.
  - exact Hh.
  - cbn [List.length]. lia.
  - exists tail, h. split; [exact Hrun | exact Hok].
Qed.

(** C6: the tokenizer, when no allocation fails, returns the tokens of
    the line in the order of the line: none for a blank line, none of
    them empty, none with a delimiter in it, together the line without
    its delimiters; for a line made of tokens that runs of one or more
    delimiters separate (and may precede or follow) it returns these
    tokens.  So none for the empty line and for a line of three spaces,
    and a, b, c for the line of a, two spaces, b, a tab and c. *)
Theorem lsh_split_line_spec (w : World) :
  heap_ok w = true ->
  (forall line,
     Z.of_nat (List.length (c_str line)) + LSH_TOK_BUFSIZE <= INT_MAX ->
     exists tokens h,
       lsh_split_line line w = Ret tokens (set_heap h w)
       /\ (forallb delim (c_str line) = true -> argv tokens = [])
       /\ Forall (fun t => t <> ""
                   /\ forallb (fun a => negb (delim a))
                        (list_ascii_of_string t) = true) (argv tokens)
       /\ List.concat (map list_ascii_of_string (argv tokens))
          = filter (fun a => negb (delim a)) (c_str line)
       /\ (forall lead pieces,
             line = lead ++ join pieces ->
             forallb delim lead = true -> separated pieces = true ->
             argv tokens
             = map (fun p => string_of_list_ascii (fst p)) pieces))
  /\ (exists tokens h,
        lsh_split_line (list_ascii_of_string "") w = Ret tokens (set_heap h w)
        /\ argv tokens = [])
  /\ (exists tokens h,
        lsh_split_line (list_ascii_of_string "   ") w
        = Ret tokens (set_heap h w)
        /\ argv tokens = [])
  /\ (exists tokens h,
        lsh_split_line
          (list_ascii_of_string ("a  b" ++ String TAB "c")) w
        = Ret tokens (set_heap h w)
        /\ argv tokens = ["a"; "b"; "c"]).
Proof.
  intros Hheap.
  assert (General : forall line,
     Z.of_nat (List.length (c_str line)) + LSH_TOK_BUFSIZE <= INT_MAX ->
     exists tokens h,
       lsh_split_line line w = Ret tokens (set_heap h w)
       /\ (forallb delim (c_str line) = true -> argv tokens = [])
       /\ Forall (fun t => t <> ""
                   /\ forallb (fun a => negb (delim a))
                        (list_ascii_of_string t) = true) (argv tokens)
       /\ List.concat (map list_ascii_of_string (argv tokens))
          = filter (fun a => negb (delim a)) (c_str line)
       /\ (forall lead pieces,
             line = lead ++ join pieces ->
             forallb delim lead = true -> separated pieces = true ->
             argv tokens
             = map (fun p => string_of_list_ascii (fst p)) pieces)).
  { intros line Hlen.
    destruct (lsh_split_line_tokens line w Hheap Hlen)
      as (tail & h & Hrun & _).
    eexists _, h. split; [exact Hrun|]. rewrite argv_app.
    destruct (tokens_of_sound (List.length (c_str line)) (c_str line)
                (Nat.le_refl _)) as [Hall Hcat].
    split; [|split; [|split]].
    - intros Hb. rewrite tokens_of_blank by exact Hb. reflexivity.
    - apply Forall_map. revert Hall. apply Forall_impl.
      intros t [Hne Hnd]. rewrite list_ascii_of_string_of_list_ascii.
      split; [|exact Hnd]. destruct t; [congruence | discriminate].
    - rewrite map_map, <- Hcat. f_equal.
      rewrite <- (map_id (tokens_of (c_str line))) at 2.
      apply map_ext. intros t. apply list_ascii_of_string_of_list_ascii.
    - intros lead pieces -> Hlead Hsep.
      rewrite c_str_no_NUL by (apply join_no_NUL; assumption).
      rewrite tokens_of_join by assumption. apply map_map. }
  split; [exact General|].
  split; [|split].
  - destruct (General (list_ascii_of_string "")) as (t & h & Hrun & Hb & _);
      [vm_compute; discriminate|].
    exists t, h. split; [exact Hrun | apply Hb; reflexivity].
  - destruct (General (list_ascii_of_string "   ")) as (t & h & Hrun & Hb & _);
      [vm_compute; discriminate|].
    exists t, h. split; [exact Hrun | apply Hb; reflexivity].
  - destruct (General (list_ascii_of_string ("a  b" ++ String TAB "c")))
      as (t & h & Hrun & _ & _ & _ & Hj); [vm_compute; discriminate|].
    exists t, h. split; [exact Hrun|].
    apply (Hj [] [(list_ascii_of_string "a", list_ascii_of_string "  ");
                  (list_ascii_of_string "b", [TAB]);
                  (list_ascii_of_string "c", [])]); reflexivity.
Qed.

Lemma lsh_split_line_spec_witness :
  exists tokens h,
    lsh_split_line (list_ascii_of_string ("a  b" ++ String TAB "c"))
      (sample_world "")
    = Ret tokens (set_heap h (sample_world ""))
    /\ argv tokens = ["a"; "b"; "c"].
Proof.
  apply (lsh_split_line_spec (sample_world "")). reflexivity.
Defined.

(** ** Wait statuses *)

Lemma land_shiftl_8_low x m :
  0 <= m < 256 -> Z.land (Z.lor (Z.shiftl x 8) m) 127 = Z.land m 127.
Proof.
  intros Hm. rewrite Z.land_lor_distr_l.
  replace (Z.land (Z.shiftl x 8) 127) with 0; [reflexivity|].
  change 127 with (Z.ones 7). rewrite Z.land_ones by lia.
  rewrite Z.shiftl_mul_pow2 by lia.
  replace (x * 2 ^ 8) with (x * 2 * 2 ^ 7) by lia.
  symmetry. apply Z_mod_mult.
Qed.

Lemma stopped_is_stopped sig : WIFSTOPPED (W_STOPCODE sig) = true.
Proof.
  unfold WIFSTOPPED, W_STOPCODE. rewrite Z.land_lor_distr_l.
  replace (Z.land (Z.shiftl sig 8) 255) with 0; [reflexivity|].
  change 255 with (Z.ones 8). rewrite Z.land_ones by lia.
  rewrite Z.shiftl_mul_pow2 by lia. symmetry. apply Z_mod_mult.
Qed.

Lemma stopped_not_terminal sig : terminal (W_STOPCODE sig) = false.
Proof.
  unfold terminal, WIFEXITED, WIFSIGNALED, WTERMSIG, W_STOPCODE.
  rewrite land_shiftl_8_low by lia. reflexivity.
Qed.

Lemma ending_terminal e :
  valid_ending e = true -> terminal (status_of_ending e) = true.
Proof.
  unfold terminal, WIFEXITED, WIFSIGNALED, WTERMSIG.
  destruct e as [code|sig]; cbn [status_of_ending valid_ending]; intros H.
  - unfold W_EXITCODE. rewrite land_shiftl_8_low by lia. reflexivity.
  - apply andb_prop in H. destruct H as [H1 H2].
    apply Z.leb_le in H1, H2. unfold W_EXITCODE.
    rewrite land_shiftl_8_low by lia.
    change 127 with (Z.ones 7). rewrite Z.land_ones by lia.
    rewrite Z.mod_small by lia.
    unfold signed_char. rewrite Z.mod_small by lia.
    rewrite Z.shiftr_div_pow2 by lia.
    replace (Z.eqb sig 0) with false by (symmetry; apply Z.eqb_neq; lia).
    apply Z.gtb_lt.
    assert (1 <= (sig + 1 + 128 - 128) / 2 ^ 1)
      by (apply Z.div_le_lower_bound; lia).
    lia.
Qed.

(** ** The process launcher (C3, C4) *)

Lemma set_pending_same w : set_pending (pending w) w = w.
Proof. destruct w; reflexivity. Qed.

(** The wait loop goes past the statuses that are not terminal. *)
Lemma lsh_launch_wait_skip skipped :
  forall pend w,
    pending w = skipped ++ pend ->
    forallb (fun s => negb (terminal s)) skipped = true ->
    lsh_launch_wait (skipped ++ pend) w
    = lsh_launch_wait pend (set_pending pend w).
Proof.
  induction skipped as [|s skipped IH]; intros pend w Hw H.
  - simpl in Hw. subst pend. rewrite set_pending_same. reflexivity.
  - cbn [forallb] in H. apply andb_prop in H. destruct H as [Hs Hk].
    cbn [app lsh_launch_wait]. unfold terminal in Hs.
    rewrite negb_orb in Hs. rewrite Hs. rewrite IH by (exact Hk || reflexivity).
    reflexivity.
Qed.

(** It returns at a terminal status and nowhere else. *)
Lemma lsh_launch_wait_returns pend :
  forall w status w',
    lsh_launch_wait pend w = Ret status w' ->
    terminal status = true
    /\ exists skipped,
         pend = skipped ++ status :: pending w'
         /\ forallb (fun s => negb (terminal s)) skipped = true.
Proof.
  induction pend as [|s pend IH]; intros w status w' H; [discriminate|].
  cbn [lsh_launch_wait] in H.
  destruct (negb (WIFEXITED s) && negb (WIFSIGNALED s)) eqn:E.
  - destruct (IH _ _ _ H) as (Ht & skipped & Hp & Hs). split; [exact Ht|].
    exists (s :: skipped). rewrite Hp. split; [reflexivity|].
    cbn [forallb]. unfold terminal at 1. rewrite negb_orb, E. exact Hs.
  - inversion H; subst. unfold terminal. rewrite <- negb_orb in E.
    apply negb_false_iff in E. split; [exact E|]. exists []. auto.
Qed.

Lemma forallb_stops sigs :
  forallb (fun s => negb (terminal s)) (map W_STOPCODE sigs) = true.
Proof.
  induction sigs as [|s sigs IH]; [reflexivity|].
  cbn [map forallb]. rewrite stopped_not_terminal. exact IH.
Qed.

(** While the child is only stopped, the launcher waits. *)
Lemma lsh_launch_wait_stopped sigs w :
  pending w = map W_STOPCODE sigs ->
  lsh_launch_wait (map W_STOPCODE sigs) w = Hang (set_pending [] w).
Proof.
  intros Hw. rewrite <- (app_nil_r (map W_STOPCODE sigs)) in Hw |- *.
  rewrite lsh_launch_wait_skip by (exact Hw || apply forallb_stops).
  reflexivity.
Qed.

Lemma lsh_launch_wait_run r w :
  pending w = reports r ->
  lsh_launch_wait (reports r) w
  = match final r with
    | Some e =>
        if terminal (status_of_ending e)
        then Ret (status_of_ending e) (set_pending [] w)
        else Hang (set_pending [] w)
    | None => Hang (set_pending [] w)
    end.
Proof.
  unfold reports. intros Hw.
  rewrite lsh_launch_wait_skip by (exact Hw || apply forallb_stops).
  destruct (final r) as [e|]; [|reflexivity].
  cbn [lsh_launch_wait]. unfold terminal. rewrite <- negb_orb.
  destruct (WIFEXITED (status_of_ending e) || WIFSIGNALED (status_of_ending e));
    reflexivity.
Qed.

Lemma fork_ok w :
  hd_error (forks w) <> Some false ->
  fork w = (Zpos (next_pid w),
            set_next_pid (Pos.succ (next_pid w)) (set_forks (tl (forks w)) w)).
Proof.
  unfold fork. destruct (forks w) as [|[|] f]; simpl; congruence.
Qed.

Lemma fork_fails w :
  hd_error (forks w) = Some false ->
  fork w = (-1, set_errno EAGAIN (set_forks (tl (forks w)) w)).
Proof.
  unfold fork. destruct (forks w) as [|[|] f]; simpl; congruence.
Qed.

(** The launcher when the child runs a program that [execvp] finds. *)
Lemma lsh_launch_found args w r :
  hd_error (forks w) <> Some false ->
  lookup (hd "" args) (programs (env w)) = Some r ->
  exists w',
    pending w' = []
    /\ lsh_launch args w
       = match final r with
         | Some e =>
             if terminal (status_of_ending e) then Ret 1 w' else Hang w'
         | None => Hang w'
         end.
Proof.
  intros Hfork Hprog.
  assert (Hrun : lsh_launch args w
                 = bind (fun w => lsh_launch_wait (pending w) w)
                     (fun _ => ret 1)
                     (after_child (lsh_launch_as 0 args
                        (set_next_pid (Pos.succ (next_pid w))
                           (set_forks (tl (forks w)) w)))
                        (set_next_pid (Pos.succ (next_pid w))
                           (set_forks (tl (forks w)) w)))).
  { unfold lsh_launch. rewrite (fork_ok w Hfork). reflexivity. }
  assert (Hchild : forall v, env v = env w ->
            child_reports (lsh_launch_as 0 args v) = reports r).
  { intros v Hv. unfold lsh_launch_as, bind, execvp. cbn [Z.eqb].
    rewrite Hv, Hprog. cbn [child_reports]. rewrite Hv, Hprog. reflexivity. }
  unfold bind in Hrun. unfold after_child in Hrun at 1.
  cbn [pending set_pending] in Hrun.
  rewrite Hchild in Hrun by reflexivity.
  rewrite lsh_launch_wait_run in Hrun
    by (unfold after_child; cbn [pending set_pending]; apply Hchild;
        reflexivity).
  eexists. split; [|rewrite Hrun].
  2:{ destruct (final r) as [e|]; [|reflexivity].
      destruct (terminal (status_of_ending e)); reflexivity. }
  reflexivity.
Qed.

(** C3: once [fork] has succeeded and the child runs the program, the
    launcher returns (with 1) when the child has exited or was killed by a
    signal, after all the reports that the child is stopped, and it does
    not return when the child is stopped and never ends; and the wait loop,
    whatever statuses it is handed, returns at a terminal status only,
    past statuses that are not terminal. *)
Theorem lsh_launch_waits_for_the_end (args : list string) (w : World) (r : run) :
  hd_error (forks w) <> Some false ->
  lookup (hd "" args) (programs (env w)) = Some r ->
  (forall e, final r = Some e -> valid_ending e = true ->
     exists w', lsh_launch args w = Ret 1 w' /\ pending w' = [])
  /\ (final r = None -> exists w', lsh_launch args w = Hang w')
  /\ (forall pend v status v',
        lsh_launch_wait pend v = Ret status v' ->
        (WIFEXITED status = true \/ WIFSIGNALED status = true)
        /\ exists skipped,
             pend = skipped ++ status :: pending v'
             /\ Forall (fun s => WIFEXITED s = false /\ WIFSIGNALED s = false)
                  skipped)
  /\ (forall sigs v, pending v = map W_STOPCODE sigs ->
        exists v', lsh_launch_wait (map W_STOPCODE sigs) v = Hang v').
Proof.
  intros Hfork Hprog.
  destruct (lsh_launch_found args w r Hfork Hprog) as (w' & Hpend & Hrun).
  repeat split.
  - intros e He Hv. rewrite He, (ending_terminal e Hv) in Hrun.
    exists w'. split; [exact Hrun | exact Hpend].
  - intros He. rewrite He in Hrun. exists w'. exact Hrun.
  - destruct (lsh_launch_wait_returns pend v status v' H) as (Ht & _).
    unfold terminal in Ht. apply orb_prop in Ht. exact Ht.
  - destruct (lsh_launch_wait_returns pend v status v' H)
      as (_ & skipped & Hp & Hs).
    exists skipped. split; [exact Hp|]. apply Forall_forall. intros s Hin.
    rewrite forallb_forall in Hs. specialize (Hs s Hin).
    unfold terminal in Hs. rewrite negb_orb in Hs.
    apply andb_prop in Hs. destruct Hs as [H1 H2].
    apply negb_true_iff in H1, H2. auto.
  - intros sigs v Hv. eexists. apply lsh_launch_wait_stopped, Hv.
Qed.

Lemma lsh_launch_waits_for_the_end_witness :
  exists w',
    lsh_launch ["vi"; "notes"] (sample_world "") = Ret 1 w' /\ pending w' = [].
Proof.
  destruct (lsh_launch_waits_for_the_end ["vi"; "notes"] (sample_world "")
              {| stops := [20; 20]; final := Some (Killed 9) |})
    as (Hend & _).
  - discriminate.
  - reflexivity.
  - apply (Hend (Killed 9)); reflexivity.
Defined.

Lemma strcmp_eqb a b : (strcmp a b =? 0) = String.eqb a b.
Proof.
  unfold strcmp. destruct (String.eqb_spec a b) as [->|Hne].
  - pose proof (String.compare_antisym b b) as H.
    destruct (String.compare b b); try reflexivity; discriminate H.
  - destruct (String.compare a b) eqn:E; try reflexivity.
    apply String.compare_eq_iff in E. contradiction.
Qed.

(** The launcher when the program cannot be started. *)
Lemma lsh_launch_not_found args w :
  hd_error (forks w) <> Some false ->
  lookup (hd "" args) (programs (env w)) = None ->
  exists w',
    lsh_launch args w = Ret 1 w'
    /\ stderr w' = stderr w ++ [("lsh: " ++ strerror ENOENT ++ LF)%string]
    /\ stdout w' = stdout w /\ cwd w' = cwd w /\ stdin w' = stdin w.
Proof.
  intros Hfork Hprog. unfold lsh_launch. rewrite (fork_ok w Hfork).
  unfold lsh_launch_as, bind, execvp.
  cbn [Z.eqb Z.ltb Z.compare env set_next_pid set_forks]. rewrite Hprog.
  cbn. eexists. repeat split.
Qed.

(** The launcher when no process can be created. *)
Lemma lsh_launch_no_process args w :
  hd_error (forks w) = Some false ->
  exists w',
    lsh_launch args w = Ret 1 w'
    /\ stderr w' = stderr w ++ [("lsh: " ++ strerror EAGAIN ++ LF)%string]
    /\ stdout w' = stdout w /\ cwd w' = cwd w /\ stdin w' = stdin w.
Proof.
  intros Hfork. unfold lsh_launch. rewrite (fork_fails w Hfork).
  cbn. eexists. repeat split.
Qed.

(** The launcher returns 1 whenever the child comes to an end. *)
Lemma lsh_launch_returns args w :
  comes_to_an_end (hd "" args) w = true ->
  exists w', lsh_launch args w = Ret 1 w'.
Proof.
  intros Hend. unfold comes_to_an_end in Hend.
  destruct (hd_error (forks w)) as [[|]|] eqn:Hf.
  2:{ destruct (lsh_launch_no_process args w Hf) as (w' & H & _).
      exists w'. exact H. }
  all: assert (Hfork : hd_error (forks w) <> Some false) by congruence.
  all: destruct (lookup (hd "" args) (programs (env w))) as [r|] eqn:Hprog.
  all: try (destruct (lsh_launch_not_found args w Hfork Hprog) as (w' & H & _);
            exists w'; exact H).
  all: destruct (final r) as [e|] eqn:He; [|discriminate].
  all: destruct (lsh_launch_found args w r Hfork Hprog) as (w' & _ & Hrun).
  all: rewrite He, (ending_terminal e Hend) in Hrun; exists w'; exact Hrun.
Qed.

(** ** The dispatcher (C2, C4, C5, C7) *)

Lemma lsh_execute_cases a rest :
  lsh_execute (a :: rest)
  = if String.eqb a "cd" then lsh_cd (a :: rest)
    else if String.eqb a "help" then lsh_help (a :: rest)
    else if String.eqb a "exit" then lsh_exit (a :: rest)
    else lsh_launch (a :: rest).
Proof.
  unfold lsh_execute. change (Z.to_nat lsh_num_builtins) with 3%nat.
  cbn [lsh_execute_loop hd nth builtin_str builtin_func].
  rewrite !strcmp_eqb. reflexivity.
Qed.

Lemma lsh_execute_external a rest :
  ~ In a builtin_str -> lsh_execute (a :: rest) = lsh_launch (a :: rest).
Proof.
  intros H. rewrite lsh_execute_cases. simpl in H.
  destruct (String.eqb_spec a "cd"); [subst; tauto|].
  destruct (String.eqb_spec a "help"); [subst; tauto|].
  destruct (String.eqb_spec a "exit"); [subst; tauto|]. reflexivity.
Qed.

Lemma lsh_cd_continues args w : exists w', lsh_cd args w = Ret 1 w'.
Proof.
  unfold lsh_cd. destruct (nth_error args 1) as [dir|].
  - unfold bind, chdir.
    destruct (existsb (String.eqb dir) (dirs (env w))); cbn; eexists;
      reflexivity.
  - cbn. eexists. reflexivity.
Qed.

(** C2: but for [exit], the dispatcher answers [Continue]: for no argument
    at all, where it does nothing, for [cd] and [help], and for every other
    command, be the program not found, be there no process for it, or has
    it come to its end, however it has. *)
Theorem lsh_execute_continues (args : list string) (w : World) :
  hd_error args <> Some "exit" ->
  (~ In (hd "" args) builtin_str -> comes_to_an_end (hd "" args) w = true) ->
  (exists w', lsh_execute args w = Ret Continue w')
  /\ (args = [] -> lsh_execute args w = Ret Continue w).
Proof.
  intros Hexit Hend. split; [|intros ->; reflexivity].
  destruct args as [|a rest]; [exists w; reflexivity|].
  rewrite lsh_execute_cases. cbn [hd] in Hend.
  destruct (String.eqb_spec a "cd"); [apply lsh_cd_continues|].
  destruct (String.eqb_spec a "help"); [cbn; eexists; reflexivity|].
  destruct (String.eqb_spec a "exit"); [subst; simpl in Hexit; congruence|].
  apply lsh_launch_returns. cbn [hd]. apply Hend. simpl.
  intuition congruence.
Qed.

Lemma lsh_execute_continues_witness :
  (exists w', lsh_execute ["ls"; "-l"] (sample_world "") = Ret Continue w')
  /\ (["ls"; "-l"] = [] ->
      lsh_execute ["ls"; "-l"] (sample_world "")
      = Ret Continue (sample_world "")).
Proof.
  apply (lsh_execute_continues ["ls"; "-l"] (sample_world "")).
  - discriminate.
  - reflexivity.
Defined.

(** C4: when the program of an external command is not found, or when no
    process can be created for it, the error is written to the error
    stream, and the launcher and the dispatcher return [Continue] to the
    shell, which goes on; so for the command doesnotexist123. *)
Theorem lsh_launch_spawn_failure (args : list string) (w : World) :
  args <> [] ->
  ~ In (hd "" args) builtin_str ->
  lookup (hd "" args) (programs (env w)) = None
  \/ hd_error (forks w) = Some false ->
  (exists w',
     lsh_launch args w = Ret 1 w'
     /\ lsh_execute args w = Ret Continue w'
     /\ stderr w' = stderr w ++ [spawn_error w]
     /\ stdout w' = stdout w /\ cwd w' = cwd w /\ stdin w' = stdin w)
  /\ (args = ["doesnotexist123"] ->
      exists w', lsh_execute ["doesnotexist123"] w = Ret Continue w'
                 /\ stderr w' = stderr w ++ [spawn_error w]).
Proof.
  intros Hargs Hext Hfail.
  assert (Main : exists w',
     lsh_launch args w = Ret 1 w'
     /\ lsh_execute args w = Ret Continue w'
     /\ stderr w' = stderr w ++ [spawn_error w]
     /\ stdout w' = stdout w /\ cwd w' = cwd w /\ stdin w' = stdin w).
  { destruct args as [|a rest]; [congruence|].
    rewrite (lsh_execute_external a rest Hext). unfold spawn_error.
    destruct (hd_error (forks w)) as [[|]|] eqn:Hf.
    2:{ destruct (lsh_launch_no_process (a :: rest) w Hf) as (w' & H & He & Hr).
        exists w'. auto. }
    all: destruct Hfail as [Hprog|Hno]; [|discriminate].
    all: destruct (lsh_launch_not_found (a :: rest) w) as (w' & H & He & Hr);
      [congruence | exact Hprog |].
    all: exists w'; auto. }
  split; [exact Main|].
  intros ->. destruct Main as (w' & _ & H & He & _). exists w'. auto.
Qed.

Lemma lsh_launch_spawn_failure_witness :
  exists w',
    lsh_execute ["doesnotexist123"] (sample_world "") = Ret Continue w'
    /\ stderr w' = stderr (sample_world "") ++ [spawn_error (sample_world "")].
Proof.
  destruct (lsh_launch_spawn_failure ["doesnotexist123"] (sample_world ""))
    as (_ & H).
  - discriminate.
  - simpl. intros [H|[H|[H|[]]]]; discriminate H.
  - left. reflexivity.
  - apply H. reflexivity.
Defined.

(** C5: a command whose first token is [exit] makes the dispatcher answer
    [Terminate], whatever follows the token, and nothing else happens; so
    for [exit] alone and for [exit now]. *)
Theorem lsh_execute_exit (rest : list string) (w : World) :
  lsh_execute ("exit" :: rest) w = Ret Terminate w
  /\ lsh_exit ("exit" :: rest) w = Ret Terminate w
  /\ lsh_execute ["exit"] w = Ret Terminate w
  /\ lsh_execute ["exit"; "now"] w = Ret Terminate w.
Proof. repeat split. Qed.

(** C7: [cd] without a second argument writes the usage error to the
    error stream, answers [Continue], and leaves the working directory, as
    all but the error stream, as it was. *)
Theorem lsh_execute_cd_no_argument (w : World) :
  lsh_execute ["cd"] w
  = Ret Continue (set_stderr (stderr w ++ [cd_usage]) w)
  /\ lsh_cd ["cd"] w = Ret Continue (set_stderr (stderr w ++ [cd_usage]) w)
  /\ cwd (set_stderr (stderr w ++ [cd_usage]) w) = cwd w.
Proof. repeat split. Qed.

(** ** The entry point (C8, C9) *)

Lemma white_list_read_world lines :
  forall w list_ip w',
    white_list_read lines w = Ret list_ip w' ->
    w' = w /\ list_ip = map chop lines.
Proof.
  induction lines as [|line lines IH]; intros w list_ip w' H.
  - inversion H; subst. auto.
  - cbn [white_list_read] in H. unfold bind, chop_last in H.
    destruct line as [|a line]; [discriminate|].
    destruct (white_list_read lines w) as [l v| | | |] eqn:E; try discriminate.
    destruct (IH _ _ _ E) as [-> ->]. inversion H; subst. auto.
Qed.

Lemma white_list_find_In list_ip ip_addr :
  white_list_find list_ip ip_addr = true <-> In ip_addr list_ip.
Proof.
  induction list_ip as [|ip list_ip IH]; simpl; [split; [discriminate|tauto]|].
  rewrite strcmp_eqb. destruct (String.eqb_spec ip ip_addr) as [->|Hne].
  - split; auto.
  - rewrite IH. split; [auto|]. intros [H|H]; [contradiction | exact H].
Qed.

(** [white_list] answers 0 for a listed address and nothing else, and
    it answers 0 or 1. *)
Lemma white_list_returns ip_addr w r w' :
  white_list ip_addr w = Ret r w' ->
  exists lines,
    file_list (env w) = Some lines
    /\ ((r = 0 /\ In ip_addr (map chop lines) /\ w' = w)
        \/ (r = 1 /\ ~ In ip_addr (map chop lines))).
Proof.
  unfold white_list. destruct (file_list (env w)) as [lines|]; [|discriminate].
  unfold bind at 1.
  destruct (white_list_read lines w) as [l v| | | |] eqn:E; try discriminate.
  destruct (white_list_read_world _ _ _ _ E) as [-> ->].
  destruct (white_list_find (map chop lines) ip_addr) eqn:F; intros H.
  - inversion H; subst. exists lines. split; [reflexivity|]. left.
    rewrite <- white_list_find_In. auto.
  - exists lines. split; [reflexivity|]. right.
    rewrite <- white_list_find_In, F. split; [|discriminate].
    revert H. unfold bind, printf, cur_time, chop_last, store_failed_log.
    cbn. destruct (clock (env w)); [discriminate|]. cbn.
    destruct (failed_log w); cbn; intros H; inversion H; reflexivity.
Qed.

Lemma check_logon_loop_returns entries :
  forall name logon_count ip_addr w r w',
    check_logon_loop entries name logon_count ip_addr w = Ret r w' ->
    r = 0 \/ r = 1.
Proof.
  induction entries as [|d entries IH]; intros name n ip w r w' H.
  - inversion H; auto.
  - cbn [check_logon_loop] in H.
    destruct (get_pid d =? -1); [eauto|].
    destruct (lookup_pid (get_pid d) (proc_status (env w))); [|eauto].
    destruct (strcmp (scan_name s name) "lsh" =? 0); [|eauto].
    destruct (n + 1 =? MAX_LOGIN + 1); [|eauto].
    revert H. unfold bind, printf, cur_time, chop_last, store_failed_log.
    cbn. destruct (clock (env w)); [discriminate|]. cbn.
    destruct (failed_log w); cbn; intros H; inversion H; auto.
Qed.

Lemma check_logon_returns ip_addr w r w' :
  check_logon ip_addr w = Ret r w' -> r = -1 \/ r = 0 \/ r = 1.
Proof.
  unfold check_logon. destruct (proc (env w)).
  - intros H. apply check_logon_loop_returns in H. tauto.
  - intros H. inversion H. auto.
Qed.

(** What [main] makes of the end of the loop. *)
Definition main_after_loop (r : option (Result unit)) : option (Result Z) :=
  match r with
  | Some (Ret _ w) => Some (Ret EXIT_SUCCESS w)
  | Some (Exit s w) => Some (Exit s w)
  | Some (Hang w) => Some (Hang w)
  | Some (Fault w) => Some (Fault w)
  | Some (Image p w) => Some (Image p w)
  | None => None
  end.

Lemma main_checks_passed w w3 :
  main_checks w = Ret tt w3 ->
  exists s w1 c w2,
    ssh_client (env w) = Some s
    /\ white_list (client_ip s w) w = Ret 0 w1
    /\ check_logon (client_ip s w) w1 = Ret c w2 /\ (c = 0 \/ c = -1)
    /\ login (client_ip s w) w2 = Ret tt w3.
Proof.
  unfold main_checks. destruct (ssh_client (env w)) as [s|]; [|discriminate].
  unfold bind at 1.
  destruct (white_list (client_ip s w) w) as [r1 w1| | | |] eqn:E1;
    try discriminate.
  destruct (white_list_returns _ _ _ _ E1) as (lines & _ & [(-> & _ & ->)|(-> & _)]);
    [|discriminate].
  cbn [Z.eqb]. unfold bind at 1 2. cbn [ret].
  destruct (check_logon (client_ip s w) w) as [c w2| | | |] eqn:E2;
    try discriminate.
  destruct (check_logon_returns _ _ _ _ E2) as [->|[->| ->]]; [| |discriminate].
  all: unfold bind; cbn; intros H; eexists s, w, _, w2; eauto 10.
Qed.

(** *** The checks write no prompt *)

Lemma no_prompt_since_refl w : no_prompt_since w w.
Proof. exists []. rewrite app_nil_r. auto. Qed.

Lemma no_prompt_since_trans w1 w2 w3 :
  no_prompt_since w1 w2 -> no_prompt_since w2 w3 -> no_prompt_since w1 w3.
Proof.
  intros (l1 & E1 & H1) (l2 & E2 & H2). exists (l1 ++ l2).
  rewrite E2, E1, app_assoc. split; [reflexivity|].
  intros H. apply in_app_or in H. tauto.
Qed.

Lemma no_prompt_since_same w w' : stdout w' = stdout w -> no_prompt_since w w'.
Proof. intros E. exists []. rewrite app_nil_r. auto. Qed.

Lemma promptless_ret {A} (a : A) : promptless (ret a).
Proof. intros w. apply no_prompt_since_refl. Qed.

Lemma promptless_exit {A} s : promptless (@exit A s).
Proof. intros w. apply no_prompt_since_refl. Qed.

Lemma promptless_bind {A B} (m : Program A) (k : A -> Program B) :
  promptless m -> (forall a, promptless (k a)) -> promptless (bind m k).
Proof.
  intros Hm Hk w. unfold bind. specialize (Hm w).
  destruct (m w) as [a v| | | |]; try exact Hm.
  apply (no_prompt_since_trans _ _ _ Hm), Hk.
Qed.

Lemma promptless_printf s : s <> prompt -> promptless (printf s).
Proof.
  intros Hs w. exists [s]. split; [reflexivity|].
  intros [H|[]]. congruence.
Qed.

Lemma promptless_chop_last s : promptless (chop_last s).
Proof. intros w. destruct s; apply no_prompt_since_refl. Qed.

Lemma promptless_cur_time : promptless cur_time.
Proof. intros w. apply promptless_chop_last. Qed.

Lemma promptless_store_failed_log log : promptless (store_failed_log log).
Proof.
  intros w. unfold store_failed_log. destruct (failed_log w).
  - apply no_prompt_since_same. reflexivity.
  - apply (promptless_bind (printf log_error) (fun _ => exit 0));
      [apply promptless_printf; discriminate | intros; apply promptless_exit].
Qed.

Lemma promptless_store_login_log log : promptless (store_login_log log).
Proof.
  intros w. unfold store_login_log. destruct (login_log w).
  - apply no_prompt_since_same. reflexivity.
  - apply (promptless_bind (printf log_error) (fun _ => exit 0));
      [apply promptless_printf; discriminate | intros; apply promptless_exit].
Qed.

Lemma promptless_white_list_read lines : promptless (white_list_read lines).
Proof.
  induction lines as [|line lines IH]; [apply promptless_ret|].
  cbn [white_list_read]. apply promptless_bind; [apply promptless_chop_last|].
  intros a. apply promptless_bind; [exact IH|]. intros l. apply promptless_ret.
Qed.

Ltac promptless_step :=
  first
    [ apply promptless_ret
    | apply promptless_exit
    | apply promptless_cur_time
    | apply promptless_chop_last
    | apply promptless_store_failed_log
    | apply promptless_store_login_log
    | apply promptless_white_list_read
    | apply promptless_printf; discriminate
    | apply promptless_bind; [|intros ?] ].

Lemma promptless_white_list ip_addr : promptless (white_list ip_addr).
Proof.
  intros w. unfold white_list. destruct (file_list (env w)) as [lines|].
  - revert w. change (promptless
      (list_ip <- white_list_read lines ;;
       if white_list_find list_ip ip_addr then ret 0
       else
         printf ("NOT ALLOWED IP" ++ LF)%string ;;
         now <- cur_time ;;
         store_failed_log (now ++ " NOT ALLOWED IP " ++ ip_addr ++ LF)%string ;;
         ret 1)).
    promptless_step; [promptless_step|].
    destruct (white_list_find a ip_addr); repeat promptless_step.
  - revert w. change (promptless
      (printf ("error! block all IP" ++ LF)%string ;; @exit Z 0)).
    repeat promptless_step.
Qed.

Lemma promptless_check_logon_loop entries :
  forall name logon_count ip_addr,
    promptless (check_logon_loop entries name logon_count ip_addr).
Proof.
  induction entries as [|d entries IH]; intros name n ip;
    [apply promptless_ret|].
  intros w. cbn [check_logon_loop].
  destruct (get_pid d =? -1); [apply IH|].
  destruct (lookup_pid (get_pid d) (proc_status (env w))); [|apply IH].
  destruct (strcmp (scan_name s name) "lsh" =? 0); [|apply IH].
  destruct (n + 1 =? MAX_LOGIN + 1); [|apply IH].
  revert w. change (promptless
    (printf already_running ;;
     now <- cur_time ;;
     store_failed_log (now ++ " FULL LOGIN " ++ ip ++ LF)%string ;;
     ret 1)).
  repeat promptless_step.
Qed.

Lemma promptless_check_logon ip_addr : promptless (check_logon ip_addr).
Proof.
  intros w. unfold check_logon. destruct (proc (env w)).
  - apply promptless_check_logon_loop.
  - apply no_prompt_since_refl.
Qed.

Lemma promptless_login_read_pw n :
  forall i input_pw, promptless (login_read_pw n i input_pw).
Proof.
  induction n as [|n IH]; intros i input_pw; [apply promptless_ret|].
  cbn [login_read_pw]. apply promptless_bind.
  - intros w. unfold getch. destruct (stdin w);
      apply no_prompt_since_same; reflexivity.
  - intros c.
    destruct (signed_char (int_of_char (char_of_int c)) =? 10);
      [apply promptless_ret|].
    apply promptless_bind; [|intros; apply IH].
    intros w. unfold store. destruct (i <? 0); [apply no_prompt_since_refl|].
    destruct (update input_pw (Z.to_nat i) (char_of_int c));
      apply no_prompt_since_refl.
Qed.

Lemma string_length_append a b :
  String.length (a ++ b) = (String.length a + String.length b)%nat.
Proof. induction a as [|x a IH]; simpl; [|rewrite IH]; reflexivity. Qed.

Lemma login_log_not_prompt now ip_addr :
  (now ++ " Login at " ++ ip_addr ++ LF)%string <> prompt.
Proof.
  intros H. apply (f_equal String.length) in H.
  rewrite !string_length_append in H. simpl in H. lia.
Qed.

Lemma promptless_login ip_addr : promptless (login ip_addr).
Proof.
  intros w. unfold login. destruct (file_data (env w)) as [data|];
    [|apply no_prompt_since_refl].
  destruct (scan_account data w) as [data_id data_pw].
  set (id0 := string_of_list_ascii (c_str (stack (env w) "input_id"))).
  set (pw0 := stack (env w) "input_pw").
  set (enc0 := string_of_list_ascii (c_str (stack (env w) "enc_str_pw"))).
  clearbody id0 pw0 enc0. revert w.
  match goal with |- forall w, no_prompt_since w (world_of (?m w)) =>
    change (promptless m) end.
  promptless_step; [promptless_step|].
  promptless_step.
  { intros w. unfold fgets_stdin. destruct (stdin w);
      [apply no_prompt_since_refl|].
    destruct (fgets_chars _ _). apply no_prompt_since_same. reflexivity. }
  promptless_step; [promptless_step|].
  promptless_step; [promptless_step|].
  promptless_step; [apply promptless_login_read_pw|].
  cbn zeta.
  match goal with |- promptless (if ?c then _ else _) => destruct c end.
  - promptless_step; [promptless_step|].
    promptless_step; [promptless_step|].
    promptless_step; [|promptless_step].
    apply promptless_printf, login_log_not_prompt.
  - repeat promptless_step.
Qed.

Lemma promptless_main_checks : promptless main_checks.
Proof.
  intros w. unfold main_checks. destruct (ssh_client (env w)) as [s|];
    [|apply no_prompt_since_refl].
  generalize (client_ip s w). intros ip. revert w.
  match goal with |- forall w, no_prompt_since w (world_of (?m w)) =>
    change (promptless m) end.
  promptless_step; [apply promptless_white_list|].
  promptless_step; [destruct (a =? 1); promptless_step|].
  promptless_step; [apply promptless_check_logon|].
  promptless_step; [destruct (a1 =? 1); promptless_step|].
  apply promptless_login.
Qed.

Lemma no_prompt_kept w w' :
  no_prompt_since w w' -> ~ In prompt (stdout w) -> ~ In prompt (stdout w').
Proof.
  intros (l & E & Hl) Hw H. rewrite E in H. apply in_app_or in H. tauto.
Qed.

Lemma main_unfold turns w :
  main turns w
  = match main_checks w with
    | Ret _ w' => main_after_loop (lsh_loop turns w')
    | Exit s w' => Some (Exit s w')
    | Hang w' => Some (Hang w')
    | Fault w' => Some (Fault w')
    | Image p w' => Some (Image p w')
    end.
Proof. reflexivity. Qed.

Lemma main_checks_unfold w s :
  ssh_client (env w) = Some s ->
  main_checks w
  = (IP_result <- white_list (client_ip s w) ;;
     (if IP_result =? 1 then exit 0 else ret tt) ;;
     check_result <- check_logon (client_ip s w) ;;
     (if check_result =? 1 then exit 0 else ret tt) ;;
     login (client_ip s w)) w.
Proof. unfold main_checks. intros ->. reflexivity. Qed.

(** C9: [lsh_loop] runs behind the three checks of [main].  When the
    process has written a prompt, the white list had answered 0 because
    the address of the client is on it, then the check for a shell that
    runs had not answered 1, then the login had returned, no prompt was
    written until then, and the loop started from there.  When the white
    list answers 1, or then the check for a shell that runs answers 1, or
    then the login ends the process, the process ends there, with status 0
    in the first two cases, and has written no prompt. *)
Theorem main_loop_behind_checks (turns : nat) (w : World) (r : Result Z) :
  main turns w = Some r ->
  ~ In prompt (stdout w) ->
  (In prompt (stdout (world_of r)) ->
   exists s lines w1 c w2 w3,
     ssh_client (env w) = Some s
     /\ file_list (env w) = Some lines
     /\ In (client_ip s w) (map chop lines)
     /\ white_list (client_ip s w) w = Ret 0 w1
     /\ check_logon (client_ip s w) w1 = Ret c w2 /\ c <> 1
     /\ login (client_ip s w) w2 = Ret tt w3
     /\ ~ In prompt (stdout w3)
     /\ main turns w = main_after_loop (lsh_loop turns w3))
  /\ (forall s, ssh_client (env w) = Some s ->
      (forall w1,
         white_list (client_ip s w) w = Ret 1 w1 ->
         r = Exit 0 w1 /\ ~ In prompt (stdout w1))
      /\ (forall w1 w2,
            white_list (client_ip s w) w = Ret 0 w1 ->
            check_logon (client_ip s w) w1 = Ret 1 w2 ->
            r = Exit 0 w2 /\ ~ In prompt (stdout w2))
      /\ (forall w1 c w2 status w3,
            white_list (client_ip s w) w = Ret 0 w1 ->
            check_logon (client_ip s w) w1 = Ret c w2 -> c <> 1 ->
            login (client_ip s w) w2 = Exit status w3 ->
            r = Exit status w3 /\ ~ In prompt (stdout w3))).
Proof.
  intros Hmain Hw.
  pose proof (no_prompt_kept _ _ (promptless_main_checks w) Hw) as Hquiet.
  rewrite main_unfold in Hmain. split.
  - intros Hprompt.
    destruct (main_checks w) as [[] w3| | | |] eqn:E;
      try (inversion Hmain; subst; cbn [world_of] in *; contradiction).
    destruct (main_checks_passed w w3 E)
      as (s & w1 & c & w2 & Hs & Hwl & Hcl & Hc & Hl).
    destruct (white_list_returns _ _ _ _ Hwl)
      as (lines & Hlines & [(_ & Hin & _)|(Hone & _)]); [|discriminate].
    exists s, lines, w1, c, w2, w3.
    repeat (split; [assumption || (destruct Hc; subst; discriminate) |]).
    rewrite main_unfold, E. reflexivity.
  - intros s Hs. rewrite (main_checks_unfold w s Hs) in Hmain, Hquiet.
    unfold bind in Hmain, Hquiet. split; [|split].
    + intros w1 H1. rewrite H1 in Hmain, Hquiet. cbn in Hmain, Hquiet.
      split; [congruence | exact Hquiet].
    + intros w1 w2 H1 H2. rewrite H1 in Hmain, Hquiet.
      cbn in Hmain, Hquiet. rewrite H2 in Hmain, Hquiet.
      cbn in Hmain, Hquiet. split; [congruence | exact Hquiet].
    + intros w1 c w2 st w3 H1 H2 Hc H3. rewrite H1 in Hmain, Hquiet.
      cbn in Hmain, Hquiet. rewrite H2 in Hmain, Hquiet.
      apply Z.eqb_neq in Hc. rewrite Hc in Hmain, Hquiet.
      cbn in Hmain, Hquiet. rewrite H3 in Hmain, Hquiet.
      split; [congruence | exact Hquiet].
Qed.

Lemma main_loop_behind_checks_witness :
  exists s w3,
    ssh_client (env (sample_world ("admin" ++ LF ++ "pw" ++ LF ++ "exit" ++ LF)))
    = Some s
    /\ main 5 (sample_world ("admin" ++ LF ++ "pw" ++ LF ++ "exit" ++ LF))
       = main_after_loop (lsh_loop 5 w3).
Proof.
  remember (main 5 (sample_world ("admin" ++ LF ++ "pw" ++ LF ++ "exit" ++ LF)))
    as m eqn:E.
  pose proof E as E'. vm_compute in E'.
  destruct m as [r|]; [|discriminate E'].
  injection E' as ->. symmetry in E.
  destruct (main_loop_behind_checks 5 _ _ E) as [H _].
  - simpl. intros [].
  - destruct H as (s & lines & w1 & c & w2 & w3 & Hs & _ & _ & _ & _ & _ & _ & _ & Hm).
    + simpl. auto 10.
    + exists s, w3. split; [exact Hs | exact Hm].
Defined.

(** ** The interactive loop (C8, C10) *)

(** One turn of the loop over a line: the line is read and split, and
    its tokens are dispatched. *)
Lemma lsh_loop_body_line w l rest :
  stdin w = l ++ newline :: rest ->
  ~ In newline l -> ~ In NUL l ->
  heap_ok w = true ->
  Z.of_nat (List.length l) < 2 ^ 31 - LSH_RL_BUFSIZE ->
  exists h,
    forallb (fun b => b) h = true
    /\ lsh_loop_body w
       = lsh_execute (map string_of_list_ascii (tokens_of l))
           (set_heap h (set_stdin rest (set_stdout (stdout w ++ [prompt]) w))).
Proof.
  intros Hin Hnl Hz Hheap Hlen. unfold lsh_loop_body, bind at 1, printf.
  set (w1 := set_stdout (stdout w ++ [prompt]) w).
  destruct (lsh_read_line_line w1 l rest Hin Hnl Hheap Hlen)
    as (tail & h & Hread & Hok).
  unfold bind at 1. rewrite Hread.
  destruct (lsh_split_line_tokens (l ++ NUL :: tail)
              (set_heap h (set_stdin rest w1))) as (tail' & h' & Hsplit & Hok').
  - exact Hok.
  - rewrite c_str_app by exact Hz.
    unfold LSH_TOK_BUFSIZE, INT_MAX, LSH_RL_BUFSIZE in *. lia.
  - unfold bind. rewrite Hsplit, c_str_app, argv_app by exact Hz.
    exists h'. split; [exact Hok' | reflexivity].
Qed.

Lemma allocate_fails n w :
  hd_error (heap w) = Some false ->
  exists w', allocate n w = (false, w')
             /\ stderr w' = stderr w /\ stdout w' = stdout w.
Proof.
  unfold allocate. intros H. destruct (to_size_t n >? PTRDIFF_MAX).
  - eexists. repeat split.
  - destruct (heap w) as [|[|] h]; try discriminate. eexists. repeat split.
Qed.

(** The line reader when its first allocation fails. *)
Lemma lsh_read_line_no_memory w :
  hd_error (heap w) = Some false ->
  exists w', lsh_read_line w = Exit EXIT_FAILURE w'
             /\ stderr w' = stderr w ++ [allocation_error].
Proof.
  intros H. unfold lsh_read_line, bind, malloc.
  destruct (allocate_fails (1 * LSH_RL_BUFSIZE) w H) as (w' & -> & He & _).
  cbn. rewrite He. eexists. split; reflexivity.
Qed.

(** The line reader when the buffer is full and cannot grow. *)
Lemma lsh_read_line_loop_no_memory a input pre y w :
  a <> newline ->
  hd_error (heap w) = Some false ->
  Z.of_nat (List.length pre) < INT_MAX ->
  exists w',
    lsh_read_line_loop (a :: input)
      (Z.of_nat (List.length (pre ++ [y]))) (Z.of_nat (List.length pre))
      (pre ++ [y]) w
    = Exit EXIT_FAILURE w'
    /\ stderr w' = stderr w ++ [allocation_error].
Proof.
  intros Ha Hheap Hlen. cbn [lsh_read_line_loop].
  rewrite int_of_char_not_EOF, int_of_char_eqb.
  destruct (Ascii.eqb_spec a newline) as [|_]; [contradiction|].
  unfold bind at 1. rewrite store_app.
  rewrite wrap_int_small by (unfold INT_MAX in *; lia).
  rewrite length_app. cbn [List.length].
  destruct (Z.geb_spec (Z.of_nat (List.length pre) + 1)
              (Z.of_nat (List.length pre + 1))) as [_|H]; [|lia].
  unfold bind at 1, realloc.
  destruct (allocate_fails
              (wrap_int (Z.of_nat (List.length pre + 1) + LSH_RL_BUFSIZE))
              (set_stdin input w) Hheap) as (w' & -> & He & _).
  cbn. rewrite He. eexists. split; reflexivity.
Qed.

(** The tokenizer when its first allocation fails. *)
Lemma lsh_split_line_no_memory line w :
  hd_error (heap w) = Some false ->
  exists w', lsh_split_line line w = Exit EXIT_FAILURE w'
             /\ stderr w' = stderr w ++ [allocation_error].
Proof.
  intros H. unfold lsh_split_line, bind, malloc.
  destruct (allocate_fails (LSH_TOK_BUFSIZE * 8) w H) as (w' & -> & He & _).
  cbn. rewrite He. eexists. split; reflexivity.
Qed.

(** The tokenizer when the array of tokens is full and cannot grow. *)
Lemma lsh_split_line_loop_no_memory t olds pre y w :
  hd_error (heap w) = Some false ->
  Z.of_nat (List.length pre) < INT_MAX ->
  exists w',
    lsh_split_line_loop (Some t) olds
      (Z.of_nat (List.length (pre ++ [y]))) (Z.of_nat (List.length pre))
      (pre ++ [y]) w
    = Exit EXIT_FAILURE w'
    /\ stderr w' = stderr w ++ [allocation_error].
Proof.
  intros Hheap Hlen. simp lsh_split_line_loop.
  unfold bind at 1. rewrite store_app. cbn zeta.
  rewrite wrap_int_small by (unfold INT_MAX in *; lia).
  rewrite length_app. cbn [List.length].
  destruct (Z.geb_spec (Z.of_nat (List.length pre) + 1)
              (Z.of_nat (List.length pre + 1))) as [_|H]; [|lia].
  unfold bind at 1, realloc.
  destruct (allocate_fails
              (wrap_int (Z.of_nat (List.length pre + 1) + LSH_TOK_BUFSIZE) * 8)
              w Hheap) as (w' & -> & He & _).
  cbn. rewrite He. eexists. split; reflexivity.
Qed.

Lemma lsh_loop_exit turns w s w' :
  lsh_loop_body w = Exit s w' -> lsh_loop (S turns) w = Some (Exit s w').
Proof. intros H. cbn [lsh_loop]. rewrite H. reflexivity. Qed.

Lemma main_exit turns w0 w s w' :
  main_checks w0 = Ret tt w -> lsh_loop_body w = Exit s w' ->
  main (S turns) w0 = Some (Exit s w').
Proof.
  intros Hc Hb. rewrite main_unfold, Hc, (lsh_loop_exit turns w s w' Hb).
  reflexivity.
Qed.

Lemma lsh_loop_body_read_exit w s w' :
  lsh_read_line (set_stdout (stdout w ++ [prompt]) w) = Exit s w' ->
  lsh_loop_body w = Exit s w'.
Proof.
  intros H. unfold lsh_loop_body, bind at 1, printf. unfold bind at 1.
  rewrite H. reflexivity.
Qed.

(** C10: when the input ends before the line does, whatever was read of
    the line is dropped: the line reader ends the process with the status
    of success, and so end the turn of the loop, the loop and [main]; but
    for the prompt, the input read and the heap, the world is as it was
    when the turn began: nothing was split and nothing dispatched. *)
Theorem lsh_read_line_partial_line_dropped (turns : nat) (w : World) :
  ~ In newline (stdin w) ->
  heap_ok w = true ->
  Z.of_nat (List.length (stdin w)) < 2 ^ 31 - LSH_RL_BUFSIZE ->
  (exists h, lsh_read_line w = Exit EXIT_SUCCESS (set_heap h (set_stdin [] w)))
  /\ exists h,
       lsh_loop_body w
       = Exit EXIT_SUCCESS
           (set_heap h (set_stdin [] (set_stdout (stdout w ++ [prompt]) w)))
       /\ lsh_loop (S turns) w
          = Some (Exit EXIT_SUCCESS
                    (set_heap h
                       (set_stdin [] (set_stdout (stdout w ++ [prompt]) w))))
       /\ forall w0,
            main_checks w0 = Ret tt w ->
            main (S turns) w0
            = Some (Exit EXIT_SUCCESS
                      (set_heap h
                         (set_stdin [] (set_stdout (stdout w ++ [prompt]) w)))).
Proof.
  intros Hnl Hheap Hlen. split; [apply lsh_read_line_eof; assumption|].
  destruct (lsh_read_line_eof (set_stdout (stdout w ++ [prompt]) w))
    as (h & Hread); try assumption.
  apply lsh_loop_body_read_exit in Hread. exists h.
  split; [exact Hread|]. split; [apply lsh_loop_exit, Hread|].
  intros w0 Hc. apply (main_exit turns w0 w _ _ Hc Hread).
Qed.

Lemma lsh_read_line_partial_line_dropped_witness :
  exists h,
    lsh_read_line (sample_world "cd /tmp")
    = Exit EXIT_SUCCESS (set_heap h (set_stdin [] (sample_world "cd /tmp"))).
Proof.
  apply (lsh_read_line_partial_line_dropped 0 (sample_world "cd /tmp")).
  - simpl. intros H. repeat (destruct H as [H|H]; [discriminate H|]). exact H.
  - reflexivity.
  - vm_compute. reflexivity.
Defined.

Lemma lsh_read_line_end_of_input w :
  stdin w = [] -> hd_error (heap w) <> Some false ->
  lsh_read_line w
  = Exit EXIT_SUCCESS (set_stdin [] (set_heap (tl (heap w)) w)).
Proof.
  intros Hin Hheap. unfold lsh_read_line, bind, malloc, allocate.
  change (to_size_t (1 * LSH_RL_BUFSIZE) >? PTRDIFF_MAX) with false.
  cbn iota.
  assert (E : match heap w with
              | false :: h => (false, set_errno ENOMEM (set_heap h w))
              | h => (true, set_heap (tl h) w)
              end = (true, set_heap (tl (heap w)) w))
    by (destruct (heap w) as [|[|] h]; simpl in *; congruence).
  rewrite E. cbn [stdin set_heap]. rewrite Hin. reflexivity.
Qed.

(** The loop behind [n] turns that answer [Continue]. *)
Lemma lsh_loop_turns n :
  forall turns w w',
    lsh_turns n w = Some w' -> lsh_loop (n + turns) w = lsh_loop turns w'.
Proof.
  induction n as [|n IH]; intros turns w w' H.
  - inversion H. reflexivity.
  - cbn [lsh_turns] in H. cbn [Nat.add lsh_loop].
    destruct (lsh_loop_body w) as [status v| | | |]; try discriminate.
    destruct (status =? 0); [discriminate|]. apply IH, H.
Qed.

Lemma main_turns n turns w0 w w' :
  main_checks w0 = Ret tt w -> lsh_turns n w = Some w' ->
  main (n + turns) w0 = main_after_loop (lsh_loop turns w').
Proof.
  intros Hc Hn. rewrite main_unfold, Hc, (lsh_loop_turns n turns w w' Hn).
  reflexivity.
Qed.

Lemma main_turns_exit n turns w0 w w' s v :
  main_checks w0 = Ret tt w -> lsh_turns n w = Some w' ->
  lsh_loop_body w' = Exit s v ->
  main (n + S turns) w0 = Some (Exit s v).
Proof.
  intros Hc Hn Hb.
  rewrite (main_turns n (S turns) w0 w w' Hc Hn), (lsh_loop_exit turns w' s v Hb).
  reflexivity.
Qed.

(** C8: once the checks of [main] are through and the loop has read and
    run any number [n] of lines, the process ends with the status of
    success when the input ends where the next line would begin, and when
    the next line has [exit] as its first token; it ends at once with the
    status of failure, the error written to the error stream, when an
    allocation fails: the first one of the line reader or of the
    tokenizer, or a later one that lets the buffer of the one or the array
    of the other grow. *)
Theorem process_exit_status (n turns : nat) (w0 w w' : World) :
  main_checks w0 = Ret tt w ->
  lsh_turns n w = Some w' ->
  (stdin w' = [] -> hd_error (heap w') <> Some false ->
   exit_status (main (n + S turns) w0) = Some EXIT_SUCCESS)
  /\ (forall l rest,
        stdin w' = l ++ newline :: rest ->
        ~ In newline l -> ~ In NUL l -> heap_ok w' = true ->
        Z.of_nat (List.length l) < 2 ^ 31 - LSH_RL_BUFSIZE ->
        hd_error (tokens_of l) = Some (list_ascii_of_string "exit") ->
        exists w'', main (n + S turns) w0 = Some (Ret EXIT_SUCCESS w'')
                    /\ exit_status (main (n + S turns) w0) = Some EXIT_SUCCESS)
  /\ (hd_error (heap w') = Some false ->
      exit_status (main (n + S turns) w0) = Some EXIT_FAILURE)
  /\ (forall v a input pre y,
        a <> newline -> hd_error (heap v) = Some false ->
        Z.of_nat (List.length pre) < INT_MAX ->
        exists v',
          lsh_read_line_loop (a :: input)
            (Z.of_nat (List.length (pre ++ [y]))) (Z.of_nat (List.length pre))
            (pre ++ [y]) v
          = Exit EXIT_FAILURE v'
          /\ stderr v' = stderr v ++ [allocation_error])
  /\ (forall v line,
        hd_error (heap v) = Some false ->
        exists v', lsh_split_line line v = Exit EXIT_FAILURE v'
                   /\ stderr v' = stderr v ++ [allocation_error])
  /\ (forall v t olds pre y,
        hd_error (heap v) = Some false ->
        Z.of_nat (List.length pre) < INT_MAX ->
        exists v',
          lsh_split_line_loop (Some t) olds
            (Z.of_nat (List.length (pre ++ [y]))) (Z.of_nat (List.length pre))
            (pre ++ [y]) v
          = Exit EXIT_FAILURE v'
          /\ stderr v' = stderr v ++ [allocation_error])
  /\ (forall status v',
        lsh_loop_body w' = Exit status v' ->
        main (n + S turns) w0 = Some (Exit status v')).
Proof.
  intros Hc Hn. repeat apply conj.
  - intros Hin Hheap.
    rewrite (main_turns_exit n turns w0 w w' EXIT_SUCCESS _ Hc Hn
               (lsh_loop_body_read_exit w' _ _
                  (lsh_read_line_end_of_input
                     (set_stdout (stdout w' ++ [prompt]) w') Hin Hheap))).
    reflexivity.
  - intros l rest Hin Hnl Hz Hheap Hlen Hexit.
    destruct (lsh_loop_body_line w' l rest Hin Hnl Hz Hheap Hlen)
      as (h & _ & Hbody).
    destruct (tokens_of l) as [|t ts]; [discriminate|].
    injection Hexit as ->. cbn [map] in Hbody.
    eexists. rewrite (main_turns n (S turns) w0 w w' Hc Hn).
    cbn [lsh_loop]. rewrite Hbody.
    split; reflexivity.
  - intros Hheap.
    destruct (lsh_read_line_no_memory (set_stdout (stdout w' ++ [prompt]) w')
                Hheap) as (v & Hread & _).
    rewrite (main_turns_exit n turns w0 w w' EXIT_FAILURE _ Hc Hn
               (lsh_loop_body_read_exit w' _ _ Hread)).
    reflexivity.
  - intros v a input pre y. apply lsh_read_line_loop_no_memory.
  - intros v line. apply lsh_split_line_no_memory.
  - intros v t olds pre y. apply lsh_split_line_loop_no_memory.
  - intros status v'. apply (main_turns_exit n turns w0 w w' _ _ Hc Hn).
Qed.

Lemma process_exit_status_witness :
  exit_status
    (main 3 (sample_world ("admin" ++ LF ++ "pw" ++ LF
                           ++ "help" ++ LF ++ "cd /" ++ LF ++ "exit" ++ LF)))
  = Some EXIT_SUCCESS
  /\ exit_status
       (main 3 (sample_world ("admin" ++ LF ++ "pw" ++ LF
                              ++ "help" ++ LF ++ "ls" ++ LF)))
     = Some EXIT_SUCCESS
  /\ exit_status
       (main 3 (set_heap [true; true; true; true; false]
                  (sample_world ("admin" ++ LF ++ "pw" ++ LF
                                 ++ "help" ++ LF ++ "ls" ++ LF ++ "ls" ++ LF))))
     = Some EXIT_FAILURE.
Proof.
  split; [|split].
  - remember (main_checks
                (sample_world ("admin" ++ LF ++ "pw" ++ LF
                               ++ "help" ++ LF ++ "cd /" ++ LF ++ "exit" ++ LF)))
      as m eqn:E.
    pose proof E as E'. vm_compute in E'.
    destruct m as [[] w| | | |]; try discriminate E'.
    injection E' as ->. symmetry in E.
    match type of E with _ = Ret tt ?v =>
      remember (lsh_turns 2 v) as t eqn:F end.
    pose proof F as F'. vm_compute in F'.
    destruct t as [w'|]; try discriminate F'.
    injection F' as ->. symmetry in F.
    destruct (process_exit_status 2 0 _ _ _ E F) as (_ & H & _).
    destruct (H (list_ascii_of_string "exit") []) as (w'' & _ & Hs).
    + reflexivity.
    + simpl. intros K. repeat (destruct K as [K|K]; [discriminate K|]). exact K.
    + simpl. intros K. repeat (destruct K as [K|K]; [discriminate K|]). exact K.
    + reflexivity.
    + vm_compute. reflexivity.
    + reflexivity.
    + exact Hs.
  - remember (main_checks
                (sample_world ("admin" ++ LF ++ "pw" ++ LF
                               ++ "help" ++ LF ++ "ls" ++ LF)))
      as m eqn:E.
    pose proof E as E'. vm_compute in E'.
    destruct m as [[] w| | | |]; try discriminate E'.
    injection E' as ->. symmetry in E.
    match type of E with _ = Ret tt ?v =>
      remember (lsh_turns 2 v) as t eqn:F end.
    pose proof F as F'. vm_compute in F'.
    destruct t as [w'|]; try discriminate F'.
    injection F' as ->. symmetry in F.
    destruct (process_exit_status 2 0 _ _ _ E F) as (H & _).
    apply H; [reflexivity | discriminate].
  - remember (main_checks
                (set_heap [true; true; true; true; false]
                   (sample_world ("admin" ++ LF ++ "pw" ++ LF
                                  ++ "help" ++ LF ++ "ls" ++ LF ++ "ls" ++ LF))))
      as m eqn:E.
    pose proof E as E'. vm_compute in E'.
    destruct m as [[] w| | | |]; try discriminate E'.
    injection E' as ->. symmetry in E.
    match type of E with _ = Ret tt ?v =>
      remember (lsh_turns 2 v) as t eqn:F end.
    pose proof F as F'. vm_compute in F'.
    destruct t as [w'|]; try discriminate F'.
    injection F' as ->. symmetry in F.
    destruct (process_exit_status 2 0 _ _ _ E F) as (_ & _ & H & _).
    apply H. reflexivity.
Defined.

(** ** Sample runs *)

(** The lines [help], [cd /] and [exit]: three prompts, the banner of
    [help], the working directory changed, no error, and the loop ends. *)
Example lsh_loop_help_cd_exit :
  exists w',
    lsh_loop 3 (sample_world ("help" ++ LF ++ "cd /" ++ LF ++ "exit" ++ LF))
    = Some (Ret tt w')
    /\ filter (String.eqb prompt) (stdout w') = [prompt; prompt; prompt]
    /\ cwd w' = "/" /\ stderr w' = [] /\ stdin w' = [].
Proof. eexists. split; [vm_compute; reflexivity|]. repeat split. Qed.

(** A line with a NUL in it is stored whole, but the string the buffer
    denotes ends at the NUL. *)
Example lsh_read_line_embedded_NUL :
  exists buffer w',
    lsh_read_line (sample_world_of ["a"; NUL; "b"; newline]%char)
    = Ret buffer w'
    /\ firstn 4 buffer = ["a"; NUL; "b"; NUL]%char
    /\ c_str buffer = ["a"%char].
Proof. eexists _, _. split; [vm_compute; reflexivity|]. split; reflexivity. Qed.

(** The buffer of the line reader grows: a line of 3000 characters. *)
Example lsh_read_line_3000 :
  exists buffer w',
    lsh_read_line (sample_world_of (repeat "x"%char 3000 ++ [newline]))
    = Ret buffer w'
    /\ c_str buffer = repeat "x"%char 3000
    /\ List.length buffer = 3072%nat.
Proof. eexists _, _. split; [vm_compute; reflexivity|]. split; reflexivity. Qed.

(** A failed login ends the process before the first prompt. *)
Example main_login_failed :
  exists w',
    main 3 (sample_world ("admin" ++ LF ++ "guess" ++ LF ++ "ls" ++ LF))
    = Some (Exit 0 w')
    /\ ~ In prompt (stdout w').
Proof.
  eexists. split; [vm_compute; reflexivity|].
  simpl. intros H. repeat (destruct H as [H|H]; [discriminate H|]). exact H.
Qed.

(** * Further properties *)

(** ** Builtins and the launcher *)

(** A command whose first token names a builtin is run inside the shell:
    the dispatcher returns, no process is created for it and nothing is
    waited for or read from the input, even when a program of that name is
    on the path. *)
Theorem lsh_execute_builtin_in_process (args : list string) (w : World) :
  In (hd "" args) builtin_str -> args <> [] ->
  exists status w',
    lsh_execute args w = Ret status w'
    /\ forks w' = forks w /\ next_pid w' = next_pid w
    /\ pending w' = pending w /\ stdin w' = stdin w.
Proof.
  intros Hin Hargs. destruct args as [|a rest]; [congruence|].
  rewrite lsh_execute_cases. cbn [hd] in Hin. simpl in Hin.
  destruct Hin as [<-|[<-|[<-|[]]]]; cbn [String.eqb Ascii.eqb Bool.eqb].
  - unfold lsh_cd. destruct (nth_error ("cd" :: rest) 1) as [dir|].
    + unfold bind, chdir.
      destruct (existsb (String.eqb dir) (dirs (env w))); cbn;
        eexists _, _; repeat split.
    + cbn. eexists _, _. repeat split.
  - cbn. eexists _, _. repeat split.
  - cbn. eexists _, _. repeat split.
Qed.

Lemma lsh_execute_builtin_in_process_witness :
  exists status w',
    lsh_execute ["cd"; "/tmp"] (sample_world "") = Ret status w'
    /\ forks w' = forks (sample_world "")
    /\ next_pid w' = next_pid (sample_world "")
    /\ pending w' = pending (sample_world "")
    /\ stdin w' = stdin (sample_world "").
Proof.
  apply (lsh_execute_builtin_in_process ["cd"; "/tmp"] (sample_world "")).
  - simpl. auto.
  - discriminate.
Defined.

(** The launcher does not let the shell see how the child ended: whatever
    the exit code or the signal that killed it, and however often it was
    stopped before, the launcher returns 1 in the same world, which differs
    from the one before by the process created and waited for only. *)
Theorem lsh_launch_hides_child_status (args : list string) (w : World)
    (r : run) (e : ending) :
  hd_error (forks w) <> Some false ->
  lookup (hd "" args) (programs (env w)) = Some r ->
  final r = Some e -> valid_ending e = true ->
  lsh_launch args w
  = Ret 1 (set_pending []
             (set_next_pid (Pos.succ (next_pid w))
                (set_forks (tl (forks w)) w))).
Proof.
  intros Hfork Hprog He Hv. unfold lsh_launch. rewrite (fork_ok w Hfork).
  cbn [Z.ltb Z.compare].
  set (w1 := set_next_pid (Pos.succ (next_pid w)) (set_forks (tl (forks w)) w)).
  assert (Hchild : lsh_launch_as 0 args w1 = Image (hd "" args) w1).
  { unfold lsh_launch_as, bind, execvp. cbn [Z.eqb].
    change (env w1) with (env w). rewrite Hprog. reflexivity. }
  rewrite Hchild. unfold lsh_launch_as. cbn [Z.eqb Z.ltb Z.compare].
  unfold bind, after_child. cbn [pending set_pending child_reports world_of].
  change (env w1) with (env w). rewrite Hprog.
  rewrite lsh_launch_wait_run by reflexivity.
  rewrite He, (ending_terminal e Hv). reflexivity.
Qed.

Lemma lsh_launch_hides_child_status_witness :
  lsh_launch ["vi"] (sample_world "")
  = Ret 1 (set_pending []
             (set_next_pid (Pos.succ (next_pid (sample_world "")))
                (set_forks (tl (forks (sample_world ""))) (sample_world "")))).
Proof.
  apply (lsh_launch_hides_child_status ["vi"] (sample_world "")
           {| stops := [20; 20]; final := Some (Killed 9) |} (Killed 9)).
  - discriminate.
  - reflexivity.
  - reflexivity.
  - reflexivity.
Defined.

(** ** Turns of the loop *)

(** One turn of the loop over a line made of separated pieces. *)
Lemma lsh_loop_body_pieces w lead pieces rest :
  stdin w = (lead ++ join pieces) ++ newline :: rest ->
  ~ In newline (lead ++ join pieces) ->
  forallb delim lead = true -> separated pieces = true ->
  heap_ok w = true ->
  Z.of_nat (List.length (lead ++ join pieces)) < 2 ^ 31 - LSH_RL_BUFSIZE ->
  exists h,
    lsh_loop_body w
    = lsh_execute (map (fun p => string_of_list_ascii (fst p)) pieces)
        (set_heap h (set_stdin rest (set_stdout (stdout w ++ [prompt]) w))).
Proof.
  intros Hin Hnl Hlead Hsep Hheap Hlen.
  destruct (lsh_loop_body_line w _ rest Hin Hnl
              (join_no_NUL pieces lead Hlead Hsep) Hheap Hlen)
    as (h & _ & Hbody).
  exists h. rewrite Hbody, tokens_of_join, map_map by assumption.
  reflexivity.
Qed.

(** One turn of the loop puts the line reader, the tokenizer and the
    dispatcher together: for a line made of tokens that runs of
    delimiters separate, the turn writes the prompt, takes the line and
    its terminator from the input and dispatches these tokens. *)
Theorem lsh_loop_body_dispatches (w : World) (lead : list ascii)
    (pieces : list (list ascii * list ascii)) (rest : list ascii) :
  stdin w = (lead ++ join pieces) ++ newline :: rest ->
  ~ In newline (lead ++ join pieces) ->
  forallb delim lead = true -> separated pieces = true ->
  heap_ok w = true ->
  Z.of_nat (List.length (lead ++ join pieces)) < 2 ^ 31 - LSH_RL_BUFSIZE ->
  exists h,
    lsh_loop_body w
    = lsh_execute (map (fun p => string_of_list_ascii (fst p)) pieces)
        (set_heap h (set_stdin rest (set_stdout (stdout w ++ [prompt]) w))).
Proof.
  intros Hin Hnl Hlead Hsep Hheap Hlen.
  destruct (lsh_loop_body_pieces w lead pieces rest Hin Hnl Hlead Hsep
              Hheap Hlen) as (h & Hbody).
  exists h. exact Hbody.
Qed.

Lemma lsh_loop_body_dispatches_witness :
  exists h,
    lsh_loop_body (sample_world ("ls  -l" ++ LF ++ "exit" ++ LF))
    = lsh_execute ["ls"; "-l"]
        (set_heap h
           (set_stdin (list_ascii_of_string ("exit" ++ LF))
              (set_stdout
                 (stdout (sample_world ("ls  -l" ++ LF ++ "exit" ++ LF))
                  ++ [prompt])
                 (sample_world ("ls  -l" ++ LF ++ "exit" ++ LF))))).
Proof.
  apply (lsh_loop_body_dispatches
           (sample_world ("ls  -l" ++ LF ++ "exit" ++ LF)) []
           [(list_ascii_of_string "ls", list_ascii_of_string "  ");
            (list_ascii_of_string "-l", [])]
           (list_ascii_of_string ("exit" ++ LF))).
  - reflexivity.
  - simpl. intros H. repeat (destruct H as [H|H]; [discriminate H|]). exact H.
  - reflexivity.
  - reflexivity.
  - reflexivity.
  - vm_compute. reflexivity.
Defined.

(** A line that is empty or made of delimiters has no effect but the
    prompt: the loop goes on with the line behind it. *)
Theorem lsh_loop_blank_line (turns : nat) (w : World) (l rest : list ascii) :
  stdin w = l ++ newline :: rest ->
  ~ In newline l -> forallb delim l = true ->
  heap_ok w = true ->
  Z.of_nat (List.length l) < 2 ^ 31 - LSH_RL_BUFSIZE ->
  exists h,
    lsh_loop (S turns) w
    = lsh_loop turns
        (set_heap h (set_stdin rest (set_stdout (stdout w ++ [prompt]) w))).
Proof.
  intros Hin Hnl Hl Hheap Hlen.
  destruct (lsh_loop_body_pieces w l [] rest) as (h & Hbody);
    try (cbn [join]; rewrite app_nil_r); try assumption; [reflexivity|].
  exists h. cbn [lsh_loop]. rewrite Hbody. reflexivity.
Qed.

Lemma lsh_loop_blank_line_witness :
  exists h,
    lsh_loop 3 (sample_world ("  " ++ LF ++ "exit" ++ LF))
    = lsh_loop 2
        (set_heap h
           (set_stdin (list_ascii_of_string ("exit" ++ LF))
              (set_stdout
                 (stdout (sample_world ("  " ++ LF ++ "exit" ++ LF))
                  ++ [prompt])
                 (sample_world ("  " ++ LF ++ "exit" ++ LF))))).
Proof.
  apply (lsh_loop_blank_line 2 (sample_world ("  " ++ LF ++ "exit" ++ LF))
           (list_ascii_of_string "  ") (list_ascii_of_string ("exit" ++ LF))).
  - reflexivity.
  - simpl. intros H. repeat (destruct H as [H|H]; [discriminate H|]). exact H.
  - reflexivity.
  - reflexivity.
  - vm_compute. reflexivity.
Defined.

(** A line of [cd] and a directory: when [chdir] can enter the directory,
    it becomes the working directory and nothing is written but the
    prompt; when it cannot, [perror] writes the text of the error that
    [chdir] has left in [errno] (no such file, not a directory, ...) to
    the error stream and the working directory stays; the loop goes on
    either way.  The tokens that follow the directory on the line are
    ignored. *)
Theorem lsh_loop_cd_line (turns : nat) (w : World)
    (lead sep dir trail : list ascii) (more : list (list ascii * list ascii))
    (rest : list ascii) :
  let pieces := (list_ascii_of_string "cd", sep) :: (dir, trail) :: more in
  let path := string_of_list_ascii dir in
  stdin w = (lead ++ join pieces) ++ newline :: rest ->
  ~ In newline (lead ++ join pieces) ->
  forallb delim lead = true -> separated pieces = true ->
  heap_ok w = true ->
  Z.of_nat (List.length (lead ++ join pieces)) < 2 ^ 31 - LSH_RL_BUFSIZE ->
  exists h,
    let w' := set_heap h
                (set_stdin rest (set_stdout (stdout w ++ [prompt]) w)) in
    lsh_loop (S turns) w
    = if existsb (String.eqb path) (dirs (env w))
      then lsh_loop turns (set_cwd path w')
      else lsh_loop turns
             (set_stderr (stderr w ++ [cd_error path w])
                (set_errno (chdir_errno (env w) path) w')).
Proof.
  intros pieces path Hin Hnl Hlead Hsep Hheap Hlen.
  destruct (lsh_loop_body_pieces w lead pieces rest Hin Hnl Hlead Hsep
              Hheap Hlen) as (h & Hbody).
  exists h. cbn zeta. cbn [lsh_loop]. rewrite Hbody.
  unfold pieces. cbn [map fst]. fold path.
  change (string_of_list_ascii (list_ascii_of_string "cd")) with "cd".
  rewrite lsh_execute_cases. cbn [String.eqb Ascii.eqb Bool.eqb].
  unfold lsh_cd. cbn [nth_error]. unfold bind at 1, chdir.
  cbn [env set_heap set_stdin set_stdout].
  destruct (existsb (String.eqb path) (dirs (env w))); reflexivity.
Qed.

Lemma lsh_loop_cd_line_witness :
  exists h,
    lsh_loop 2 (sample_world ("cd /etc/passwd" ++ LF))
    = lsh_loop 1
        (set_stderr [("lsh: Not a directory" ++ LF)%string]
           (set_errno ENOTDIR
              (set_heap h
                 (set_stdin []
                    (set_stdout
                       (stdout (sample_world ("cd /etc/passwd" ++ LF))
                        ++ [prompt])
                       (sample_world ("cd /etc/passwd" ++ LF))))))).
Proof.
  apply (lsh_loop_cd_line 1 (sample_world ("cd /etc/passwd" ++ LF))
           [] [" "%char] (list_ascii_of_string "/etc/passwd") [] [] []).
  - reflexivity.
  - simpl. intros H. repeat (destruct H as [H|H]; [discriminate H|]). exact H.
  - reflexivity.
  - reflexivity.
  - reflexivity.
  - vm_compute. reflexivity.
Defined.

(** A line whose first token is [exit] ends the loop: [lsh_loop] returns,
    and what follows the line on the input is left unread. *)
Theorem lsh_loop_exit_line (turns : nat) (w : World)
    (lead sep : list ascii) (more : list (list ascii * list ascii))
    (rest : list ascii) :
  let pieces := (list_ascii_of_string "exit", sep) :: more in
  stdin w = (lead ++ join pieces) ++ newline :: rest ->
  ~ In newline (lead ++ join pieces) ->
  forallb delim lead = true -> separated pieces = true ->
  heap_ok w = true ->
  Z.of_nat (List.length (lead ++ join pieces)) < 2 ^ 31 - LSH_RL_BUFSIZE ->
  exists h,
    lsh_loop (S turns) w
    = Some (Ret tt (set_heap h
                      (set_stdin rest
                         (set_stdout (stdout w ++ [prompt]) w)))).
Proof.
  intros pieces Hin Hnl Hlead Hsep Hheap Hlen.
  destruct (lsh_loop_body_pieces w lead pieces rest Hin Hnl Hlead Hsep
              Hheap Hlen) as (h & Hbody).
  exists h. cbn [lsh_loop]. rewrite Hbody. reflexivity.
Qed.

Lemma lsh_loop_exit_line_witness :
  exists h,
    lsh_loop 1 (sample_world ("exit now" ++ LF ++ "ls" ++ LF))
    = Some (Ret tt
              (set_heap h
                 (set_stdin (list_ascii_of_string ("ls" ++ LF))
                    (set_stdout
                       (stdout (sample_world ("exit now" ++ LF ++ "ls" ++ LF))
                        ++ [prompt])
                       (sample_world ("exit now" ++ LF ++ "ls" ++ LF)))))).
Proof.
  apply (lsh_loop_exit_line 0 (sample_world ("exit now" ++ LF ++ "ls" ++ LF))
           [] [" "%char] [(list_ascii_of_string "now", [])]
           (list_ascii_of_string ("ls" ++ LF))).
  - reflexivity.
  - simpl. intros H. repeat (destruct H as [H|H]; [discriminate H|]). exact H.
  - reflexivity.
  - reflexivity.
  - reflexivity.
  - vm_compute. reflexivity.
Defined.

(** ** A logic of pre- and postconditions *)

Lemma triple_ret {A} (P : World -> Prop) (a : A) Q X :
  (forall w, P w -> Q a w) -> triple P (ret a) Q X.
Proof. intros H w Hw. apply H, Hw. Qed.

Lemma triple_exit {A} (P : World -> Prop) s (Q : A -> World -> Prop) X :
  (forall w, P w -> X s w) -> triple P (exit s) Q X.
Proof. intros H w Hw. apply H, Hw. Qed.

Lemma triple_bind {A B} P (m : Program A) (k : A -> Program B) Q R X :
  triple P m Q X -> (forall a, triple (Q a) (k a) R X) ->
  triple P (bind m k) R X.
Proof.
  intros Hm Hk w Hw. unfold bind. specialize (Hm w Hw).
  destruct (m w) as [a v| | | |]; auto. apply Hk, Hm.
Qed.

Lemma triple_weaken {A} (P P' : World -> Prop) (m : Program A)
    (Q Q' : A -> World -> Prop) (X X' : Z -> World -> Prop) :
  triple P' m Q' X' ->
  (forall w, P w -> P' w) -> (forall a w, Q' a w -> Q a w) ->
  (forall s w, X' s w -> X s w) ->
  triple P m Q X.
Proof.
  intros Hm HP HQ HX w Hw. specialize (Hm w (HP w Hw)).
  destruct (m w); auto.
Qed.

Lemma triple_world {A} (P : World -> Prop) (m : World -> Program A) Q X :
  (forall w0, triple (fun w => P w /\ w = w0) (m w0) Q X) ->
  triple P (fun w => m w w) Q X.
Proof. intros H w Hw. apply (H w w). auto. Qed.

(** ** The loop ends *)

Lemma keeps_stdin_ret {A} (a : A) : keeps_stdin (ret a).
Proof. intros s. apply triple_ret. auto. Qed.

Lemma keeps_stdin_exit {A} s : keeps_stdin (@exit A s).
Proof. intros s0. apply triple_exit. auto. Qed.

Lemma keeps_stdin_bind {A B} (m : Program A) (k : A -> Program B) :
  keeps_stdin m -> (forall a, keeps_stdin (k a)) -> keeps_stdin (bind m k).
Proof. intros Hm Hk s. eapply triple_bind; [apply Hm | intros a; apply Hk]. Qed.

Lemma keeps_stdin_fprintf_stderr s : keeps_stdin (fprintf_stderr s).
Proof. intros s0 w Hw. exact Hw. Qed.

Lemma keeps_stdin_printf s : keeps_stdin (printf s).
Proof. intros s0 w Hw. exact Hw. Qed.

Lemma keeps_stdin_perror s : keeps_stdin (perror s).
Proof. intros s0 w Hw. exact Hw. Qed.

Lemma keeps_stdin_store {T} (buf : list T) i x : keeps_stdin (store buf i x).
Proof.
  intros s w Hw. unfold store. destruct (i <? 0); [exact I|].
  destruct (update buf (Z.to_nat i) x); [exact Hw | exact I].
Qed.

Lemma allocate_stdin n w : stdin (snd (allocate n w)) = stdin w.
Proof.
  unfold allocate. destruct (to_size_t n >? PTRDIFF_MAX); [reflexivity|].
  destruct (heap w) as [|[|] h]; reflexivity.
Qed.

Lemma keeps_stdin_malloc {T} (fill : T) cell n : keeps_stdin (malloc fill cell n).
Proof.
  intros s w Hw. unfold malloc. pose proof (allocate_stdin n w) as H.
  destruct (allocate n w) as [[|] w']; simpl in H; congruence.
Qed.

Lemma keeps_stdin_realloc {T} (fill : T) cell buf n :
  keeps_stdin (realloc fill cell buf n).
Proof.
  intros s w Hw. unfold realloc. pose proof (allocate_stdin n w) as H.
  destruct (allocate n w) as [[|] w']; simpl in H; congruence.
Qed.

Ltac keeps_stdin_step :=
  first
    [ apply keeps_stdin_ret
    | apply keeps_stdin_exit
    | apply keeps_stdin_printf
    | apply keeps_stdin_fprintf_stderr
    | apply keeps_stdin_perror
    | apply keeps_stdin_store
    | apply keeps_stdin_malloc
    | apply keeps_stdin_realloc
    | apply keeps_stdin_bind; [|intros ?] ].

Lemma keeps_stdin_lsh_split_line_loop token olds :
  forall bufsize position tokens,
    keeps_stdin (lsh_split_line_loop token olds bufsize position tokens).
Proof.
  funelim (strtok_all token olds); intros bufsize position tokens;
    simp lsh_split_line_loop.
  2: keeps_stdin_step.
  keeps_stdin_step; [keeps_stdin_step|]. cbn zeta.
  destruct (wrap_int (position + 1) >=? bufsize); [|apply H].
  keeps_stdin_step; [keeps_stdin_step|].
  destruct a0; [apply H | repeat keeps_stdin_step].
Qed.

Lemma keeps_stdin_lsh_split_line line : keeps_stdin (lsh_split_line line).
Proof.
  unfold lsh_split_line. keeps_stdin_step; [keeps_stdin_step|].
  destruct a; [|repeat keeps_stdin_step].
  destruct (strtok (c_str line) LSH_TOK_DELIM).
  apply keeps_stdin_lsh_split_line_loop.
Qed.

Lemma keeps_stdin_lsh_launch_wait pend : keeps_stdin (lsh_launch_wait pend).
Proof.
  induction pend as [|status pend IH]; intros s w Hw; [exact I|].
  cbn [lsh_launch_wait].
  destruct (negb (WIFEXITED status) && negb (WIFSIGNALED status)).
  - apply IH. exact Hw.
  - exact Hw.
Qed.

(** The parent's side of the launcher takes nothing from the input. *)
Lemma keeps_stdin_lsh_launch_parent pid args :
  pid <> 0 -> keeps_stdin (lsh_launch_as pid args).
Proof.
  intros Hpid. unfold lsh_launch_as.
  destruct (Z.eqb_spec pid 0) as [|_]; [contradiction|].
  destruct (pid <? 0); [repeat keeps_stdin_step|].
  keeps_stdin_step; [|keeps_stdin_step].
  intros s w Hw. apply keeps_stdin_lsh_launch_wait, Hw.
Qed.

(** Neither does the launcher when [execvp] finds the program: the child
    becomes the program, and does not end through [exit]. *)
Lemma lsh_launch_found_stdin args w r :
  lookup (hd "" args) (programs (env w)) = Some r ->
  match lsh_launch args w with
  | Ret _ w' => stdin w' = stdin w
  | _ => True
  end.
Proof.
  intros Hprog. unfold lsh_launch, fork.
  assert (Hchild : forall v, env v = env w ->
            lsh_launch_as 0 args v = Image (hd "" args) v).
  { intros v Hv. unfold lsh_launch_as, bind, execvp. cbn [Z.eqb].
    rewrite Hv, Hprog. reflexivity. }
  destruct (forks w) as [|[|] f]; cbn [Z.ltb Z.compare].
  1, 2: rewrite Hchild by reflexivity.
  1, 2: apply (keeps_stdin_lsh_launch_parent _ args); [discriminate|].
  1, 2: reflexivity.
  apply (keeps_stdin_lsh_launch_parent _ args); [discriminate | reflexivity].
Qed.

Lemma keeps_stdin_lsh_help_loop names : keeps_stdin (lsh_help_loop names).
Proof.
  induction names as [|name names IH]; [apply keeps_stdin_ret|].
  cbn [lsh_help_loop]. keeps_stdin_step; [keeps_stdin_step | exact IH].
Qed.

Lemma keeps_stdin_lsh_cd args : keeps_stdin (lsh_cd args).
Proof.
  unfold lsh_cd. destruct (nth_error args 1) as [dir|];
    [|repeat keeps_stdin_step].
  keeps_stdin_step.
  - intros s w Hw. unfold chdir.
    destruct (existsb (String.eqb dir) (dirs (env w))); exact Hw.
  - keeps_stdin_step; [|keeps_stdin_step].
    destruct (negb (a =? 0)); keeps_stdin_step.
Qed.

Lemma keeps_stdin_lsh_help args : keeps_stdin (lsh_help args).
Proof.
  unfold lsh_help.
  do 3 (apply keeps_stdin_bind; [apply keeps_stdin_printf | intros _]).
  apply keeps_stdin_bind; [apply keeps_stdin_lsh_help_loop | intros _].
  apply keeps_stdin_bind; [apply keeps_stdin_printf | intros _].
  apply keeps_stdin_ret.
Qed.

(** The dispatcher takes nothing from the input for a command that is
    run without a child that ends through [exit]. *)
Lemma lsh_execute_launchable_stdin args w :
  launchable args w = true ->
  match lsh_execute args w with
  | Ret _ w' => stdin w' = stdin w
  | _ => True
  end.
Proof.
  destruct args as [|a rest]; [reflexivity|]. intros Hl.
  rewrite lsh_execute_cases. cbn [launchable existsb builtin_str] in Hl.
  destruct (String.eqb a "cd");
    [apply (keeps_stdin_lsh_cd (a :: rest) (stdin w) w eq_refl)|].
  destruct (String.eqb a "help");
    [apply (keeps_stdin_lsh_help (a :: rest) (stdin w) w eq_refl)|].
  destruct (String.eqb a "exit"); [reflexivity|].
  cbn [orb] in Hl.
  destruct (lookup a (programs (env w))) as [r|] eqn:Hprog; [|discriminate].
  apply (lsh_launch_found_stdin (a :: rest) w r Hprog).
Qed.

(** When the line reader returns, it has taken a line and its terminator
    from the input. *)
Lemma lsh_read_line_loop_consumes input :
  forall bufsize position buffer w b w',
    lsh_read_line_loop input bufsize position buffer w = Ret b w' ->
    (List.length (stdin w') < List.length input)%nat.
Proof.
  induction input as [|a input IH]; intros bufsize position buffer w b w' H;
    [discriminate|].
  cbn [lsh_read_line_loop] in H.
  rewrite int_of_char_not_EOF in H.
  destruct (int_of_char a =? int_of_char newline).
  - unfold store in H. destruct (position <? 0); [discriminate|].
    destruct (update buffer (Z.to_nat position) NUL); [|discriminate].
    inversion H; subst. simpl. lia.
  - revert H. unfold bind at 1, store.
    destruct (position <? 0); [discriminate|].
    destruct (update buffer (Z.to_nat position) (char_of_int (int_of_char a)))
      as [buffer'|]; [|discriminate].
    destruct (wrap_int (position + 1) >=? bufsize).
    + unfold bind at 1, realloc.
      destruct (allocate _ _) as [[|] v]; [|discriminate].
      intros H. apply IH in H. simpl. lia.
    + intros H. apply IH in H. simpl. lia.
Qed.

Lemma lsh_read_line_consumes w b w' :
  lsh_read_line w = Ret b w' ->
  (List.length (stdin w') < List.length (stdin w))%nat.
Proof.
  unfold lsh_read_line, bind, malloc.
  pose proof (allocate_stdin (1 * LSH_RL_BUFSIZE) w) as Hs.
  destruct (allocate (1 * LSH_RL_BUFSIZE) w) as [[|] v]; [|discriminate].
  simpl in Hs. intros H. apply lsh_read_line_loop_consumes in H.
  rewrite <- Hs. exact H.
Qed.

Lemma dispatched_consumes w args w' :
  dispatched w = Ret args w' ->
  (List.length (stdin w') < List.length (stdin w))%nat.
Proof.
  unfold dispatched, bind at 1, printf. unfold bind at 1.
  destruct (lsh_read_line (set_stdout (stdout w ++ [prompt]) w))
    as [line w1| | | |] eqn:E1; try discriminate.
  apply lsh_read_line_consumes in E1. cbn [stdin set_stdout] in E1.
  unfold bind.
  pose proof (keeps_stdin_lsh_split_line line (stdin w1) w1 eq_refl) as H2.
  destruct (lsh_split_line line w1) as [tokens w2| | | |]; try discriminate.
  intros H. inversion H; subst. cbn beta iota in H2. rewrite H2. exact E1.
Qed.

Lemma lsh_loop_body_dispatched w :
  lsh_loop_body w = bind dispatched lsh_execute w.
Proof.
  unfold lsh_loop_body, dispatched, bind, printf.
  destruct (lsh_read_line _) as [line w1| | | |]; try reflexivity.
  destruct (lsh_split_line line w1); reflexivity.
Qed.

(** On an input that ends, the loop ends, as long as its commands are
    builtins or programs that [execvp] finds: within one turn more than
    the input has characters, [lsh_loop] has returned, or the process has
    ended, or it waits for a child that never ends.  (A child that cannot
    [execvp] ends through [exit]; were the input a file that can be
    sought, this [exit] would set its offset back and the shell would
    read lines again: the bound is not stated for such a run.) *)
Theorem lsh_loop_ends (turns : nat) (w : World) :
  all_launchable turns w = true ->
  (List.length (stdin w) < turns)%nat -> lsh_loop turns w <> None.
Proof.
  revert w. induction turns as [|turns IH]; intros w Hall Hlen; [lia|].
  cbn [lsh_loop all_launchable] in *.
  rewrite lsh_loop_body_dispatched. unfold bind.
  destruct (dispatched w) as [args w1| | | |] eqn:E; try discriminate.
  apply dispatched_consumes in E.
  apply andb_prop in Hall. destruct Hall as [Hl Hrest].
  pose proof (lsh_execute_launchable_stdin args w1 Hl) as Hs.
  destruct (lsh_execute args w1) as [status w'| | | |]; try discriminate.
  destruct (status =? 0); [discriminate|].
  cbn beta iota in Hs. apply IH; [exact Hrest | rewrite Hs; lia].
Qed.

Lemma lsh_loop_ends_witness :
  lsh_loop 9 (sample_world ("ls" ++ LF ++ "exit" ++ LF)) <> None.
Proof.
  apply (lsh_loop_ends 9 (sample_world ("ls" ++ LF ++ "exit" ++ LF))).
  - vm_compute. reflexivity.
  - vm_compute. reflexivity.
Defined.

(** ** The white list *)









(** ** The check for a shell that runs *)

Lemma scan_name_named line name :
  has_name line = true -> scan_name line name = scan_name line "".
Proof.
  unfold has_name, scan_name.
  destruct (scanf_s (list_ascii_of_string line)) as [[tag r]|]; [|discriminate].
  destruct (scanf_s r) as [[word r']|]; [reflexivity | discriminate].
Qed.

Lemma lsh_processes_nonneg entries w : 0 <= lsh_processes entries w.
Proof.
  induction entries as [|d entries IH]; cbn [lsh_processes]; [lia|].
  destruct (get_pid d =? -1); [lia|].
  destruct (lookup_pid (get_pid d) (proc_status (env w))); [|lia].
  destruct (String.eqb (scan_name s "") "lsh"); lia.
Qed.

Lemma check_logon_loop_counts entries :
  forall name logon_count ip_addr w lf,
    all_named entries w = true ->
    clock (env w) <> EmptyString -> failed_log w = Some lf ->
    0 <= logon_count <= MAX_LOGIN ->
    check_logon_loop entries name logon_count ip_addr w
    = if logon_count + lsh_processes entries w <=? MAX_LOGIN
      then Ret 0 w else Ret 1 (full_login ip_addr lf w).
Proof.
  unfold MAX_LOGIN.
  induction entries as [|d entries IH];
    intros name c ip w lf Hnamed Hclock Hlog Hc.
  - cbn [check_logon_loop lsh_processes].
    destruct (Z.leb_spec (c + 0) 1); [reflexivity | lia].
  - cbn [check_logon_loop lsh_processes all_named] in *.
    apply andb_prop in Hnamed. destruct Hnamed as [Hd Hnamed].
    pose proof (lsh_processes_nonneg entries w) as Hpos.
    destruct (get_pid d =? -1).
    { rewrite (IH name c ip w lf) by assumption. reflexivity. }
    destruct (lookup_pid (get_pid d) (proc_status (env w))) as [line|].
    2:{ rewrite (IH name c ip w lf) by assumption. reflexivity. }
    rewrite (scan_name_named line name Hd), strcmp_eqb.
    destruct (String.eqb (scan_name line "") "lsh").
    + destruct (Z.eqb_spec (c + 1) (MAX_LOGIN + 1)) as [E|E];
        unfold MAX_LOGIN in E.
      * destruct (Z.leb_spec (c + (1 + lsh_processes entries w)) 1); [lia|].
        unfold full_login.
        unfold bind, printf, cur_time, chop_last, store_failed_log.
        cbn [env set_stdout failed_log].
        destruct (clock (env w)) eqn:Ec; [congruence|].
        cbn. rewrite Hlog. reflexivity.
      * rewrite (IH _ (c + 1) ip w lf) by (assumption || lia).
        replace (c + 1 + lsh_processes entries w)
          with (c + (1 + lsh_processes entries w)) by lia.
        reflexivity.
    + rewrite (IH _ c ip w lf) by assumption. reflexivity.
Qed.

(** [check_logon] answers 1, after it has written that the shell runs
    already and added a line to the failed log, when more than
    [MAX_LOGIN] of the processes of /proc are named lsh, the process that
    asks among them; otherwise it answers 0 and does nothing. *)
Theorem check_logon_counts (ip_addr : string) (w : World)
    (entries lf : list string) :
  proc (env w) = Some entries -> all_named entries w = true ->
  clock (env w) <> EmptyString -> failed_log w = Some lf ->
  check_logon ip_addr w
  = if lsh_processes entries w <=? MAX_LOGIN
    then Ret 0 w else Ret 1 (full_login ip_addr lf w).
Proof.
  intros Hproc Hnamed Hclock Hlog. unfold check_logon. rewrite Hproc.
  rewrite (check_logon_loop_counts entries _ 0 ip_addr w lf)
    by (assumption || (unfold MAX_LOGIN; lia)).
  reflexivity.
Qed.

Lemma check_logon_counts_witness :
  check_logon "10.0.0.7" (sample_world "") = Ret 0 (sample_world "").
Proof.
  apply (check_logon_counts "10.0.0.7" (sample_world "")
           ["1"; "self"; "812"; "4077"] []).
  - reflexivity.
  - reflexivity.
  - discriminate.
  - reflexivity.
Defined.


(** When /proc cannot be opened, [check_logon] answers -1, which [main]
    does not take for a refusal: the check is passed over and the login
    follows the white list. *)
Theorem main_checks_proc_unreadable (w : World) (s : string) :
  ssh_client (env w) = Some s -> proc (env w) = None ->
  (forall ip_addr, check_logon ip_addr w = Ret (-1) w)
  /\ main_checks w
     = (IP_result <- white_list (client_ip s w) ;;
        (if IP_result =? 1 then exit 0 else ret tt) ;;
        login (client_ip s w)) w.
Proof.
  intros Hs Hproc.
  assert (Hcheck : forall ip_addr, check_logon ip_addr w = Ret (-1) w)
    by (intros ip; unfold check_logon; rewrite Hproc; reflexivity).
  split; [exact Hcheck|].
  rewrite (main_checks_unfold w s Hs). unfold bind.
  destruct (white_list (client_ip s w) w) as [r w1| | | |] eqn:E;
    try reflexivity.
  destruct (white_list_returns _ _ _ _ E) as (lines & _ & [(-> & _ & ->)|(-> & _)]).
  - cbn [Z.eqb ret]. rewrite Hcheck. reflexivity.
  - reflexivity.
Qed.

Lemma main_checks_proc_unreadable_witness :
  main_checks (set_env (with_proc None sample_env)
                 (sample_world ("admin" ++ LF ++ "pw" ++ LF)))
  = (IP_result <- white_list "10.0.0.7" ;;
     (if IP_result =? 1 then exit 0 else ret tt) ;;
     login "10.0.0.7")
      (set_env (with_proc None sample_env)
         (sample_world ("admin" ++ LF ++ "pw" ++ LF))).
Proof.
  apply (main_checks_proc_unreadable
           (set_env (with_proc None sample_env)
              (sample_world ("admin" ++ LF ++ "pw" ++ LF)))
           "10.0.0.7 50514 22"); reflexivity.
Defined.

(** ** The login *)

Lemma signed_char_newline a :
  (signed_char (int_of_char (char_of_int (int_of_char a))) =? 10)
  = Ascii.eqb a newline.
Proof.
  rewrite char_of_int_of_char. pose proof (int_of_char_range a) as Hr.
  rewrite <- int_of_char_eqb. change (int_of_char newline) with 10.
  unfold signed_char.
  destruct (Z.ltb_spec (int_of_char a) 128).
  - rewrite Z.mod_small by lia.
    replace (int_of_char a + 128 - 128) with (int_of_char a) by lia.
    reflexivity.
  - replace (int_of_char a + 128) with (int_of_char a - 128 + 1 * 256) by lia.
    rewrite Z_mod_plus_full, Z.mod_small by lia.
    destruct (Z.eqb_spec (int_of_char a - 128 - 128) 10);
      destruct (Z.eqb_spec (int_of_char a) 10); try reflexivity; lia.
Qed.

(** The loop that reads the password, over characters that are no
    newline and that the turns left and the room in the array allow. *)
Lemma login_read_pw_chars pw :
  forall n pre free more w,
    ~ In newline pw ->
    (List.length pw <= List.length free)%nat ->
    stdin w = pw ++ more ->
    login_read_pw (List.length pw + n) (Z.of_nat (List.length pre))
      (pre ++ free) w
    = login_read_pw n (Z.of_nat (List.length (pre ++ pw)))
        ((pre ++ pw) ++ skipn (List.length pw) free) (set_stdin more w).
Proof.
  induction pw as [|a pw IH]; intros n pre free more w Hnl Hlen Hin.
  - cbn [List.length Nat.add skipn]. rewrite app_nil_r.
    cbn [app] in Hin. rewrite <- Hin. destruct w; reflexivity.
  - destruct free as [|y free]; [simpl in Hlen; lia|].
    cbn [List.length Nat.add login_read_pw]. unfold bind at 1, getch.
    rewrite Hin. cbn [app]. rewrite signed_char_newline.
    destruct (Ascii.eqb_spec a newline) as [->|_]; [simpl in Hnl; tauto|].
    unfold bind at 1. rewrite char_of_int_of_char, store_app.
    replace (Z.of_nat (List.length pre) + 1)
      with (Z.of_nat (List.length (pre ++ [a])))
      by (rewrite length_app; simpl; lia).
    replace (pre ++ a :: free) with ((pre ++ [a]) ++ free)
      by (rewrite <- app_assoc; reflexivity).
    rewrite (IH n (pre ++ [a]) free more (set_stdin (pw ++ more) w))
      by (simpl in *; tauto || lia || reflexivity).
    cbn [skipn]. rewrite <- !app_assoc. reflexivity.
Qed.

(** The password is read without echo up to the end of the line, which is
    taken from the input too, but at most eleven characters of it are:
    behind eleven characters the input stays as it is, the end of the line
    included, for the shell to read. *)
Theorem login_read_pw_reads (pw input_pw rest : list ascii) (w : World) :
  ~ In newline pw ->
  (11 <= List.length input_pw)%nat ->
  ((List.length pw <= 10)%nat -> stdin w = pw ++ newline :: rest ->
   login_read_pw 11 0 input_pw w
   = Ret (pw ++ skipn (List.length pw) input_pw) (set_stdin rest w))
  /\ (List.length pw = 11%nat -> stdin w = pw ++ rest ->
      login_read_pw 11 0 input_pw w
      = Ret (pw ++ skipn 11 input_pw) (set_stdin rest w)).
Proof.
  intros Hnl Hbuf. split.
  - intros Hlen Hin.
    replace 11%nat with (List.length pw + S (10 - List.length pw))%nat by lia.
    rewrite (login_read_pw_chars pw _ [] input_pw (newline :: rest) w)
      by (assumption || lia).
    cbn [login_read_pw app]. unfold bind, getch. cbn [stdin set_stdin].
    rewrite signed_char_newline, Ascii.eqb_refl. reflexivity.
  - intros Hlen Hin.
    replace 11%nat with (List.length pw + 0)%nat at 1 by lia.
    rewrite (login_read_pw_chars pw _ [] input_pw rest w)
      by (assumption || lia).
    cbn [login_read_pw app]. rewrite Hlen. reflexivity.
Qed.

Lemma login_read_pw_reads_witness :
  login_read_pw 11 0 (repeat NUL 2048)
    (sample_world ("abcdefghijk" ++ LF ++ "ls" ++ LF))
  = Ret (list_ascii_of_string "abcdefghijk" ++ skipn 11 (repeat NUL 2048))
      (set_stdin (list_ascii_of_string (LF ++ "ls" ++ LF))
         (sample_world ("abcdefghijk" ++ LF ++ "ls" ++ LF))).
Proof.
  destruct (login_read_pw_reads (list_ascii_of_string "abcdefghijk")
              (repeat NUL 2048) (list_ascii_of_string (LF ++ "ls" ++ LF))
              (sample_world ("abcdefghijk" ++ LF ++ "ls" ++ LF))) as [_ H].
  - simpl. intros K. repeat (destruct K as [K|K]; [discriminate K|]). exact K.
  - rewrite repeat_length. lia.
  - apply H; reflexivity.
Defined.

(** ** The status and the logs of the checks *)

Lemma exits_zero_ret {A} (a : A) : exits_zero (ret a).
Proof. intros w s w' H. discriminate H. Qed.

Lemma exits_zero_exit {A} : exits_zero (@exit A 0).
Proof. intros w s w' H. inversion H. reflexivity. Qed.

Lemma exits_zero_bind {A B} (m : Program A) (k : A -> Program B) :
  exits_zero m -> (forall a, exits_zero (k a)) -> exits_zero (bind m k).
Proof.
  intros Hm Hk w s w'. unfold bind. specialize (Hm w).
  destruct (m w) as [a v| | | |]; try discriminate.
  - apply Hk.
  - intros H. inversion H; subst. eapply Hm. reflexivity.
Qed.

Lemma exits_zero_printf s : exits_zero (printf s).
Proof. intros w s0 w' H. discriminate H. Qed.

Lemma exits_zero_chop_last s : exits_zero (chop_last s).
Proof. intros w s0 w' H. unfold chop_last in H. destruct s; discriminate H. Qed.

Lemma exits_zero_cur_time : exits_zero cur_time.
Proof. intros w. apply exits_zero_chop_last. Qed.

Lemma exits_zero_store_failed_log log : exits_zero (store_failed_log log).
Proof.
  intros w s w'. unfold store_failed_log.
  destruct (failed_log w); [discriminate|].
  apply (exits_zero_bind (printf log_error) (fun _ => exit 0));
    [apply exits_zero_printf | intros; apply exits_zero_exit].
Qed.

Lemma exits_zero_store_login_log log : exits_zero (store_login_log log).
Proof.
  intros w s w'. unfold store_login_log.
  destruct (login_log w); [discriminate|].
  apply (exits_zero_bind (printf log_error) (fun _ => exit 0));
    [apply exits_zero_printf | intros; apply exits_zero_exit].
Qed.

Lemma exits_zero_white_list_read lines : exits_zero (white_list_read lines).
Proof.
  induction lines as [|line lines IH]; [apply exits_zero_ret|].
  cbn [white_list_read]. apply exits_zero_bind; [apply exits_zero_chop_last|].
  intros a. apply exits_zero_bind; [exact IH|]. intros l. apply exits_zero_ret.
Qed.

Ltac exits_zero_step :=
  first
    [ apply exits_zero_ret
    | apply exits_zero_exit
    | apply exits_zero_cur_time
    | apply exits_zero_chop_last
    | apply exits_zero_store_failed_log
    | apply exits_zero_store_login_log
    | apply exits_zero_white_list_read
    | apply exits_zero_printf
    | apply exits_zero_bind; [|intros ?] ].

Lemma exits_zero_white_list ip_addr : exits_zero (white_list ip_addr).
Proof.
  intros w. unfold white_list. destruct (file_list (env w)) as [lines|].
  - revert w. change (exits_zero
      (list_ip <- white_list_read lines ;;
       if white_list_find list_ip ip_addr then ret 0
       else
         printf ("NOT ALLOWED IP" ++ LF)%string ;;
         now <- cur_time ;;
         store_failed_log (now ++ " NOT ALLOWED IP " ++ ip_addr ++ LF)%string ;;
         ret 1)).
    exits_zero_step; [exits_zero_step|].
    destruct (white_list_find a ip_addr); repeat exits_zero_step.
  - revert w. change (exits_zero
      (printf ("error! block all IP" ++ LF)%string ;; @exit Z 0)).
    repeat exits_zero_step.
Qed.

Lemma exits_zero_check_logon_loop entries :
  forall name logon_count ip_addr,
    exits_zero (check_logon_loop entries name logon_count ip_addr).
Proof.
  induction entries as [|d entries IH]; intros name n ip;
    [apply exits_zero_ret|].
  intros w. cbn [check_logon_loop].
  destruct (get_pid d =? -1); [apply IH|].
  destruct (lookup_pid (get_pid d) (proc_status (env w))); [|apply IH].
  destruct (strcmp (scan_name s name) "lsh" =? 0); [|apply IH].
  destruct (n + 1 =? MAX_LOGIN + 1); [|apply IH].
  revert w. change (exits_zero
    (printf already_running ;;
     now <- cur_time ;;
     store_failed_log (now ++ " FULL LOGIN " ++ ip ++ LF)%string ;;
     ret 1)).
  repeat exits_zero_step.
Qed.

Lemma exits_zero_check_logon ip_addr : exits_zero (check_logon ip_addr).
Proof.
  intros w. unfold check_logon. destruct (proc (env w)).
  - apply exits_zero_check_logon_loop.
  - discriminate.
Qed.

Lemma exits_zero_login_read_pw n :
  forall i input_pw, exits_zero (login_read_pw n i input_pw).
Proof.
  induction n as [|n IH]; intros i input_pw; [apply exits_zero_ret|].
  cbn [login_read_pw]. apply exits_zero_bind.
  - intros w s w'. unfold getch. destruct (stdin w); discriminate.
  - intros c.
    destruct (signed_char (int_of_char (char_of_int c)) =? 10);
      [apply exits_zero_ret|].
    apply exits_zero_bind; [|intros; apply IH].
    intros w s w'. unfold store. destruct (i <? 0); [discriminate|].
    destruct (update input_pw (Z.to_nat i) (char_of_int c)); discriminate.
Qed.

Lemma exits_zero_login ip_addr : exits_zero (login ip_addr).
Proof.
  intros w. unfold login. destruct (file_data (env w)) as [data|];
    [|discriminate].
  destruct (scan_account data w) as [data_id data_pw].
  set (id0 := string_of_list_ascii (c_str (stack (env w) "input_id"))).
  set (pw0 := stack (env w) "input_pw").
  set (enc0 := string_of_list_ascii (c_str (stack (env w) "enc_str_pw"))).
  clearbody id0 pw0 enc0. revert w.
  match goal with |- forall w s w', ?m w = Exit s w' -> s = 0 =>
    change (exits_zero m) end.
  exits_zero_step; [exits_zero_step|].
  exits_zero_step.
  { intros w s w'. unfold fgets_stdin. destruct (stdin w); [discriminate|].
    destruct (fgets_chars _ _). discriminate. }
  exits_zero_step; [exits_zero_step|].
  exits_zero_step; [exits_zero_step|].
  exits_zero_step; [apply exits_zero_login_read_pw|].
  cbn zeta.
  match goal with |- exits_zero (if ?c then _ else _) => destruct c end;
    repeat exits_zero_step.
Qed.

(** Whatever makes the checks of [main] end the process (an address that
    is not allowed, a shell that runs already, a login that fails, a file
    that cannot be opened), the status of the process is 0. *)
Theorem main_checks_exit_status (w : World) (status : Z) (w' : World) :
  main_checks w = Exit status w' -> status = 0.
Proof.
  revert w status w'. change (exits_zero main_checks).
  intros w. unfold main_checks. destruct (ssh_client (env w)) as [s|];
    [|discriminate].
  generalize (client_ip s w). intros ip. revert w.
  match goal with |- forall w s w', ?m w = Exit s w' -> s = 0 =>
    change (exits_zero m) end.
  exits_zero_step; [apply exits_zero_white_list|].
  exits_zero_step; [destruct (a =? 1); exits_zero_step|].
  exits_zero_step; [apply exits_zero_check_logon|].
  exits_zero_step; [destruct (a1 =? 1); exits_zero_step|].
  apply exits_zero_login.
Qed.

Lemma main_checks_exit_status_witness :
  exists w',
    main_checks (sample_world ("admin" ++ LF ++ "guess" ++ LF)) = Exit 0 w'.
Proof.
  destruct (main_checks (sample_world ("admin" ++ LF ++ "guess" ++ LF)))
    as [| status w'| | |] eqn:E; try (vm_compute in E; discriminate E).
  rewrite (main_checks_exit_status _ _ _ E). exists w'. reflexivity.
Defined.

Lemma keeps_logs_printf s : keeps_logs (printf s).
Proof. intros lf ll ls X w Hw. exact Hw. Qed.

Lemma keeps_logs_chop_last s : keeps_logs (chop_last s).
Proof. intros lf ll ls X w Hw. unfold chop_last. destruct s; [exact I | exact Hw]. Qed.

Lemma keeps_logs_cur_time : keeps_logs cur_time.
Proof. intros lf ll ls X w. apply keeps_logs_chop_last. Qed.

Lemma keeps_logs_fgets_stdin buf size : keeps_logs (fgets_stdin buf size).
Proof.
  intros lf ll ls X w Hw. unfold fgets_stdin. destruct (stdin w); [exact Hw|].
  destruct (fgets_chars _ _). exact Hw.
Qed.

Lemma keeps_logs_bind {A B} (m : Program A) (k : A -> Program B) :
  keeps_logs m -> (forall a, keeps_logs (k a)) -> keeps_logs (bind m k).
Proof.
  intros Hm Hk lf ll ls X. eapply triple_bind; [apply Hm | intros a; apply Hk].
Qed.

Lemma keeps_logs_login_read_pw n :
  forall i input_pw, keeps_logs (login_read_pw n i input_pw).
Proof.
  induction n as [|n IH]; intros i input_pw.
  - intros lf ll ls X w Hw. exact Hw.
  - cbn [login_read_pw]. apply keeps_logs_bind.
    + intros lf ll ls X w Hw. unfold getch. destruct (stdin w); exact Hw.
    + intros c.
      destruct (signed_char (int_of_char (char_of_int c)) =? 10).
      * intros lf ll ls X w Hw. exact Hw.
      * apply keeps_logs_bind; [|intros; apply IH].
        intros lf ll ls X w Hw. unfold store. destruct (i <? 0); [exact I|].
        destruct (update input_pw (Z.to_nat i) (char_of_int c));
          [exact Hw | exact I].
Qed.

Lemma white_list_read_result lines w :
  white_list_read lines w = Ret (map chop lines) w
  \/ white_list_read lines w = Fault w.
Proof.
  induction lines as [|line lines IH]; [left; reflexivity|].
  cbn [white_list_read map]. unfold bind, chop_last.
  destruct line; [right; reflexivity|].
  destruct IH as [-> | ->]; [left | right]; reflexivity.
Qed.

Lemma store_failed_log_logs log lf ll ls X :
  triple (logs lf ll ls) (store_failed_log log) (fun _ => refused lf ll ls) X.
Proof.
  intros w (Hf & Hl & Hs). unfold store_failed_log. rewrite Hf.
  split; [exact Hl|]. split; [exact Hs | exists log; reflexivity].
Qed.

Lemma store_login_log_logs log lf ll ls X :
  triple (logs lf ll ls) (store_login_log log) (fun _ => admitted lf ll ls) X.
Proof.
  intros w (Hf & Hl & Hs). unfold store_login_log. rewrite Hl.
  split; [exact Hf|]. split; [exact Hl|]. exists log.
  cbn [login_stream set_login_stream]. rewrite Hs. reflexivity.
Qed.

(** The three steps that refuse: a message, the time, a line of the
    failed log. *)
Lemma refuse_logs {A} msg (line : string -> string) (k : Program A)
    lf ll ls Q X :
  triple (refused lf ll ls) k Q X ->
  triple (logs lf ll ls)
    (printf msg ;; now <- cur_time ;; store_failed_log (line now) ;; k) Q X.
Proof.
  intros Hk.
  eapply triple_bind; [apply keeps_logs_printf | intros ?; cbn beta].
  eapply triple_bind; [apply keeps_logs_cur_time | intros now].
  eapply triple_bind; [apply store_failed_log_logs | intros ?; cbn beta]. exact Hk.
Qed.

Lemma white_list_logs ip_addr lf ll ls :
  triple (fun w => logs lf ll ls w /\ file_list (env w) <> None)
    (white_list ip_addr)
    (fun r w => (r = 0 /\ logs lf ll ls w) \/ (r = 1 /\ refused lf ll ls w))
    (fun _ _ => False).
Proof.
  intros w [Hlogs Hfile]. unfold white_list.
  destruct (file_list (env w)) as [lines|]; [|congruence].
  unfold bind at 1.
  destruct (white_list_read_result lines w) as [-> | ->]; [|exact I].
  destruct (white_list_find (map chop lines) ip_addr); [left; auto|].
  apply (refuse_logs ("NOT ALLOWED IP" ++ LF)%string
           (fun now => (now ++ " NOT ALLOWED IP " ++ ip_addr ++ LF)%string)
           (ret 1) lf ll ls); [|exact Hlogs].
  apply triple_ret. auto.
Qed.

Lemma check_logon_loop_logs entries :
  forall name logon_count ip_addr lf ll ls,
    triple (logs lf ll ls)
      (check_logon_loop entries name logon_count ip_addr)
      (fun r w => (r <> 1 /\ logs lf ll ls w) \/ (r = 1 /\ refused lf ll ls w))
      (fun _ _ => False).
Proof.
  induction entries as [|d entries IH]; intros name n ip lf ll ls w Hw.
  - left. split; [discriminate | exact Hw].
  - cbn [check_logon_loop].
    destruct (get_pid d =? -1); [apply IH, Hw|].
    destruct (lookup_pid (get_pid d) (proc_status (env w))); [|apply IH, Hw].
    destruct (strcmp (scan_name s name) "lsh" =? 0); [|apply IH, Hw].
    destruct (n + 1 =? MAX_LOGIN + 1); [|apply IH, Hw].
    apply (refuse_logs already_running
             (fun now => (now ++ " FULL LOGIN " ++ ip ++ LF)%string)
             (ret 1) lf ll ls); [|exact Hw].
    apply triple_ret. auto.
Qed.

Lemma check_logon_logs ip_addr lf ll ls :
  triple (logs lf ll ls) (check_logon ip_addr)
    (fun r w => (r <> 1 /\ logs lf ll ls w) \/ (r = 1 /\ refused lf ll ls w))
    (fun _ _ => False).
Proof.
  intros w Hw. unfold check_logon. destruct (proc (env w)).
  - apply check_logon_loop_logs, Hw.
  - left. split; [discriminate | exact Hw].
Qed.

Lemma login_logs ip_addr lf ll ls :
  triple (logs lf ll ls) (login ip_addr) (fun _ => admitted lf ll ls)
    (fun s w => s = 0 /\ refused lf ll ls w).
Proof.
  intros w Hw. unfold login. destruct (file_data (env w)) as [data|];
    [|exact I].
  destruct (scan_account data w) as [data_id data_pw].
  set (id0 := string_of_list_ascii (c_str (stack (env w) "input_id"))).
  set (pw0 := stack (env w) "input_pw").
  set (enc0 := string_of_list_ascii (c_str (stack (env w) "enc_str_pw"))).
  clearbody id0 pw0 enc0. revert w Hw.
  match goal with |- forall w, _ -> match ?m w with _ => _ end =>
    change (triple (logs lf ll ls) m (fun _ => admitted lf ll ls)
              (fun s w => s = 0 /\ refused lf ll ls w)) end.
  eapply triple_bind; [apply keeps_logs_printf | intros ?; cbn beta].
  eapply triple_bind; [apply keeps_logs_fgets_stdin | intros input_id].
  eapply triple_bind; [apply keeps_logs_chop_last | intros input_id'].
  eapply triple_bind; [apply keeps_logs_printf | intros ?; cbn beta].
  eapply triple_bind; [apply keeps_logs_login_read_pw | intros input_pw].
  cbn zeta.
  match goal with |- triple _ (if ?c then _ else _) _ _ => destruct c end.
  - eapply triple_bind; [apply keeps_logs_printf | intros ?; cbn beta].
    eapply triple_bind; [apply keeps_logs_cur_time | intros now].
    eapply triple_bind; [apply keeps_logs_printf | intros ?; cbn beta].
    apply store_login_log_logs.
  - apply (refuse_logs login_failed
             (fun now => (now ++ " Login failed at " ++ ip_addr ++ LF)%string)
             (exit 0) lf ll ls).
    apply triple_exit. auto.
Qed.

(** Every run of the checks of [main] that comes to an end leaves one
    line for a log, when the white list and the logs can be opened.  When
    the process ends, which it does with the status 0, it is a line of
    the failed log.  When the checks are passed and the loop may start,
    it is a line for the login log, which is not in the file: it waits in
    the stream, behind what the stream held, and the file is as it was. *)
Theorem main_checks_logged (w : World) (lf ll : list string) :
  failed_log w = Some lf -> login_log w = Some ll ->
  file_list (env w) <> None ->
  match main_checks w with
  | Ret _ w' => admitted lf ll (login_stream w) w'
  | Exit status w' => status = 0 /\ refused lf ll (login_stream w) w'
  | Hang _ | Fault _ | Image _ _ => True
  end.
Proof.
  intros Hf Hl Hfile. unfold main_checks.
  destruct (ssh_client (env w)) as [s|]; [|exact I].
  generalize (client_ip s w). intros ip.
  assert (Hpre : logs lf ll (login_stream w) w /\ file_list (env w) <> None)
    by (unfold logs; auto).
  generalize dependent (login_stream w). intros ls Hpre.
  clear Hf Hl Hfile. revert w Hpre.
  match goal with |- forall w, _ -> match ?m w with _ => _ end =>
    change (triple (fun w => logs lf ll ls w /\ file_list (env w) <> None) m
              (fun _ => admitted lf ll ls)
              (fun s w => s = 0 /\ refused lf ll ls w)) end.
  eapply triple_bind.
  { eapply triple_weaken; [apply (white_list_logs ip lf ll ls) | | |];
      [auto | intros ? ? H; exact H | intros ? ? []]. }
  intros r1. eapply (triple_bind _ _ _ (fun _ => logs lf ll ls)).
  { intros v [[-> Hv]|[-> Hv]]; cbn; auto. }
  intros ?; cbn beta. eapply triple_bind.
  { eapply triple_weaken; [apply (check_logon_logs ip lf ll ls) | | |];
      [auto | intros ? ? H; exact H | intros ? ? []]. }
  intros r2. eapply (triple_bind _ _ _ (fun _ => logs lf ll ls)).
  { intros v [[Hr Hv]|[-> Hv]]; cbn; auto.
    apply Z.eqb_neq in Hr. rewrite Hr. exact Hv. }
  intros ?; cbn beta. apply login_logs.
Qed.

Lemma main_checks_logged_witness :
  match main_checks (sample_world ("admin" ++ LF ++ "pw" ++ LF)) with
  | Ret _ w' => admitted [] [] [] w'
  | Exit status w' => status = 0 /\ refused [] [] [] w'
  | Hang _ | Fault _ | Image _ _ => True
  end.
Proof.
  apply (main_checks_logged (sample_world ("admin" ++ LF ++ "pw" ++ LF)) [] []).
  - reflexivity.
  - reflexivity.
  - discriminate.
Defined.





Lemma set_stdin_same w : set_stdin (stdin w) w = w.
Proof. destruct w; reflexivity. Qed.






(** ** Process ids *)

Lemma atoi_from_acc d :
  forall acc, atoi_from (Zpos acc) (digits d) = Zpos (Pos.of_uint_acc d acc).
Proof.
  unfold digits, atoi_from.
  induction d as [|d IH|d IH|d IH|d IH|d IH|d IH|d IH|d IH|d IH|d IH];
    intros acc; [reflexivity| ..];
    cbn [NilEmpty.string_of_uint list_ascii_of_string fold_left
         Pos.of_uint_acc];
    rewrite <- IH; f_equal;
    match goal with
    | |- context [int_of_char ?c] =>
        let v := eval vm_compute in (int_of_char c) in
        change (int_of_char c) with v
    end; lia.
Qed.

Lemma atoi_from_zero d : atoi_from 0 (digits d) = Z.of_N (Pos.of_uint d).
Proof.
  induction d as [|d IH|d IH|d IH|d IH|d IH|d IH|d IH|d IH|d IH|d IH];
    [reflexivity | exact IH | ..];
    cbn [Pos.of_uint Z.of_N]; rewrite <- atoi_from_acc; reflexivity.
Qed.

Lemma digits_are_digits d : forallb is_digit (digits d) = true.
Proof.
  unfold digits.
  induction d as [|d IH|d IH|d IH|d IH|d IH|d IH|d IH|d IH|d IH|d IH];
    [reflexivity| ..];
    cbn [NilEmpty.string_of_uint list_ascii_of_string forallb];
    rewrite IH; reflexivity.
Qed.

Lemma is_digit_value a :
  is_digit a = true -> 0 <= int_of_char a - 48 <= 9.
Proof.
  unfold is_digit. intros H. apply andb_prop in H. destruct H as [H1 H2].
  apply Z.leb_le in H1, H2.
  change (int_of_char "0") with 48 in H1.
  change (int_of_char "9") with 57 in H2. lia.
Qed.

(** As long as the number read is an [int], [atoi] does not wrap. *)
Lemma atoi_no_wrap l :
  forall n,
    0 <= n -> forallb is_digit l = true -> atoi_from n l <= INT_MAX ->
    n <= atoi_from n l
    /\ fold_left (fun n a => wrap_int (10 * n + (int_of_char a - 48))) l n
       = atoi_from n l.
Proof.
  induction l as [|a l IH]; intros n Hn Hd Hmax;
    [split; [unfold atoi_from; simpl; lia | reflexivity]|].
  change (atoi_from n (a :: l))
    with (atoi_from (10 * n + (int_of_char a - 48)) l) in *.
  cbn [fold_left forallb] in *. apply andb_prop in Hd. destruct Hd as [Ha Hl].
  pose proof (is_digit_value a Ha) as Hv.
  destruct (IH (10 * n + (int_of_char a - 48))) as [Hle Heq];
    [lia | exact Hl | exact Hmax |].
  split; [lia|].
  rewrite wrap_int_small by (unfold INT_MAX in *; lia). exact Heq.
Qed.

(** [get_pid] reads back the number that [%d] has printed for an [int],
    when it is a process id: a number from 0 to [INT_MAX]; what [%d]
    prints for a negative [int] is no process id. *)
Theorem get_pid_decimal (n : Z) :
  - 2 ^ 31 <= n <= INT_MAX ->
  get_pid (decimal n) = if n <? 0 then -1 else n.
Proof.
  intros [_ Hmax]. unfold get_pid, decimal, atoi.
  destruct n as [|p|p]; [reflexivity| |reflexivity].
  cbn [Z.to_int NilZero.string_of_int Z.ltb Z.compare].
  pose proof (DecimalPos.Unsigned.of_to p) as Hp.
  assert (Hs : NilZero.string_of_uint (Pos.to_uint p)
               = NilEmpty.string_of_uint (Pos.to_uint p)).
  { destruct (Pos.to_uint p); [discriminate Hp | reflexivity ..]. }
  rewrite Hs. fold (digits (Pos.to_uint p)).
  rewrite digits_are_digits.
  assert (Hv : atoi_from 0 (digits (Pos.to_uint p)) = Zpos p)
    by (rewrite atoi_from_zero, Hp; reflexivity).
  destruct (atoi_no_wrap (digits (Pos.to_uint p)) 0) as [_ Hw];
    [lia | apply digits_are_digits | rewrite Hv; exact Hmax |].
  rewrite Hw. exact Hv.
Qed.

Lemma get_pid_decimal_witness :
  get_pid (decimal 4077) = 4077 /\ get_pid (decimal (-1)) = -1.
Proof.
  split.
  - apply (get_pid_decimal 4077). unfold INT_MAX. lia.
  - apply (get_pid_decimal (-1)). unfold INT_MAX. lia.
Defined.

(** ** The line reader built with [LSH_USE_STD_GETLINE] *)

Lemma getline_chars_line l :
  forall more,
    ~ In newline l ->
    getline_chars (l ++ newline :: more) = (l ++ [newline], more).
Proof.
  induction l as [|a l IH]; intros more Hnl; [reflexivity|].
  cbn [getline_chars app].
  destruct (Ascii.eqb_spec a newline) as [->|_]; [simpl in Hnl; tauto|].
  rewrite IH by (simpl in Hnl; tauto). reflexivity.
Qed.

Lemma getline_chars_end l :
  ~ In newline l -> getline_chars l = (l, []).
Proof.
  induction l as [|a l IH]; intros Hnl; [reflexivity|].
  cbn [getline_chars].
  destruct (Ascii.eqb_spec a newline) as [->|_]; [simpl in Hnl; tauto|].
  rewrite IH by (simpl in Hnl; tauto). reflexivity.
Qed.

Lemma allocate_first n w :
  hd_error (heap w) <> Some false -> 0 <= n <= PTRDIFF_MAX ->
  allocate n w = (true, set_heap (tl (heap w)) w).
Proof.
  unfold allocate, to_size_t, PTRDIFF_MAX. intros Hh Hn.
  rewrite Z.mod_small by lia.
  destruct (Z.gtb_spec n 9223372036854775807) as [H|_]; [lia|].
  destruct (heap w) as [|[|] h]; simpl in *; congruence.
Qed.

Lemma getline_returns w l r :
  stdin w <> [] -> getline_chars (stdin w) = (l, r) ->
  hd_error (heap w) <> Some false ->
  Z.of_nat (List.length l) + 1 <= PTRDIFF_MAX ->
  getline w = Ret (Some (l ++ [NUL])) (set_stdin r (set_heap (tl (heap w)) w)).
Proof.
  intros Hne E Hheap Hlen. unfold getline.
  destruct (stdin w) as [|a input]; [congruence|]. rewrite E.
  rewrite allocate_first by (assumption || lia). reflexivity.
Qed.

(** A delimiter at the end of a line adds no token. *)
Lemma tokens_of_trailing d :
  delim d = true ->
  forall n s, (List.length s <= n)%nat -> tokens_of (s ++ [d]) = tokens_of s.
Proof.
  intros Hd. induction n as [|n IH]; intros s Hn.
  - destruct s; [|simpl in Hn; lia]. cbn [app].
    rewrite (tokens_of_blank [d]) by (simpl; rewrite Hd; reflexivity).
    rewrite (tokens_of_blank []) by reflexivity. reflexivity.
  - destruct (skip_delims_cases s) as [[_ Hb]|(ds & a & s' & E & Hds & Ha & _)].
    + rewrite !tokens_of_blank; [reflexivity | exact Hb |].
      rewrite forallb_app, Hb. simpl. rewrite Hd. reflexivity.
    + destruct (scan_token LSH_TOK_DELIM (a :: s')) as [t r] eqn:Es.
      destruct (scan_token_cases _ _ _ Es) as [Ht Hcase].
      assert (Hne : t <> []).
      { intros ->. destruct Hcase as [[Hc _]|(d' & Hd' & Hc)];
          [discriminate|]. simpl in Hc. inversion Hc; subst. congruence. }
      destruct Hcase as [[Hc ->]|(d' & Hd' & Hc)]; rewrite E, Hc.
      * rewrite <- app_assoc, tokens_of_next, tokens_of_last by assumption.
        rewrite (tokens_of_blank []); reflexivity.
      * rewrite <- !app_assoc. cbn [app].
        rewrite !tokens_of_next by assumption.
        change (r ++ [d]) with (r ++ [d]).
        rewrite (IH r); [reflexivity|].
        subst s. rewrite Hc in Hn. rewrite !length_app in Hn.
        simpl in Hn. lia.
Qed.

(** Built with [LSH_USE_STD_GETLINE], the line reader returns the line
    with its terminator, which is a delimiter of the tokenizer: the tokens
    of the line are the same in both builds. *)
Theorem lsh_read_line_getline_line (w : World) (l rest : list ascii) :
  stdin w = l ++ newline :: rest ->
  ~ In newline l -> ~ In NUL l ->
  hd_error (heap w) <> Some false ->
  Z.of_nat (List.length l) + 2 <= PTRDIFF_MAX ->
  lsh_read_line_getline w
  = Ret (l ++ [newline; NUL]) (set_stdin rest (set_heap (tl (heap w)) w))
  /\ c_str (l ++ [newline; NUL]) = l ++ [newline]
  /\ tokens_of (c_str (l ++ [newline; NUL])) = tokens_of l.
Proof.
  intros Hin Hnl Hz Hheap Hlen.
  assert (Hc : c_str (l ++ [newline; NUL]) = l ++ [newline]).
  { change (l ++ [newline; NUL]) with (l ++ [newline] ++ NUL :: []).
    rewrite app_assoc. apply c_str_app. intros H. apply in_app_or in H.
    destruct H as [H|[H|[]]]; [contradiction | discriminate H]. }
  split; [|split; [exact Hc|]].
  - unfold lsh_read_line_getline, bind.
    rewrite (getline_returns w (l ++ [newline]) rest).
    + rewrite <- app_assoc. reflexivity.
    + rewrite Hin. destruct l; discriminate.
    + rewrite Hin. apply getline_chars_line, Hnl.
    + exact Hheap.
    + rewrite length_app. simpl List.length. lia.
  - rewrite Hc. apply (tokens_of_trailing newline eq_refl (List.length l)).
    lia.
Qed.

Lemma lsh_read_line_getline_line_witness :
  lsh_read_line_getline (sample_world ("ls -l" ++ LF ++ "exit" ++ LF))
  = Ret (list_ascii_of_string "ls -l" ++ [newline; NUL])
      (set_stdin (list_ascii_of_string ("exit" ++ LF))
         (set_heap (tl (heap (sample_world ("ls -l" ++ LF ++ "exit" ++ LF))))
            (sample_world ("ls -l" ++ LF ++ "exit" ++ LF)))).
Proof.
  apply (lsh_read_line_getline_line
           (sample_world ("ls -l" ++ LF ++ "exit" ++ LF))
           (list_ascii_of_string "ls -l")
           (list_ascii_of_string ("exit" ++ LF))).
  - reflexivity.
  - simpl. intros K. repeat (destruct K as [K|K]; [discriminate K|]). exact K.
  - simpl. intros K. repeat (destruct K as [K|K]; [discriminate K|]). exact K.
  - discriminate.
  - vm_compute. discriminate.
Defined.

(** Built with [LSH_USE_STD_GETLINE], the line reader returns a last line
    that no newline ends, where the other build ends the process and drops
    it; the process ends with the status of success at the next call. *)
Theorem lsh_read_line_getline_last_line (w : World) (l : list ascii) :
  stdin w = l -> l <> [] -> ~ In newline l ->
  hd_error (heap w) <> Some false ->
  Z.of_nat (List.length l) + 1 <= PTRDIFF_MAX ->
  lsh_read_line_getline w
  = Ret (l ++ [NUL]) (set_stdin [] (set_heap (tl (heap w)) w))
  /\ lsh_read_line_getline (set_stdin [] (set_heap (tl (heap w)) w))
     = Exit EXIT_SUCCESS (set_stdin [] (set_heap (tl (heap w)) w)).
Proof.
  intros Hin Hne Hnl Hheap Hlen. split; [|reflexivity].
  unfold lsh_read_line_getline, bind.
  rewrite (getline_returns w l []); [reflexivity | | | exact Hheap | exact Hlen].
  - rewrite Hin. exact Hne.
  - rewrite Hin. apply getline_chars_end, Hnl.
Qed.

Lemma lsh_read_line_getline_last_line_witness :
  lsh_read_line_getline (sample_world "cd /tmp")
  = Ret (list_ascii_of_string "cd /tmp" ++ [NUL])
      (set_stdin [] (set_heap (tl (heap (sample_world "cd /tmp")))
                       (sample_world "cd /tmp"))).
Proof.
  apply (lsh_read_line_getline_last_line (sample_world "cd /tmp")
           (list_ascii_of_string "cd /tmp")).
  - reflexivity.
  - discriminate.
  - simpl. intros K. repeat (destruct K as [K|K]; [discriminate K|]). exact K.
  - discriminate.
  - vm_compute. discriminate.
Defined.

(** ** The stream of the login log *)

(** A child that cannot start its program ends through [exit], which
    writes what its copy of the stream of the login log holds to the
    file: the line of the login is in the file from then on.  The shell
    keeps its own copy, and writes it once more when it ends. *)
Theorem lsh_launch_flushes_login_log (args : list string) (w : World)
    (ll : list string) :
  hd_error (forks w) <> Some false ->
  lookup (hd "" args) (programs (env w)) = None ->
  login_log w = Some ll ->
  exists w',
    lsh_launch args w = Ret 1 w'
    /\ login_log w' = Some (ll ++ login_stream w)
    /\ login_stream w' = login_stream w
    /\ login_log (flush w') = Some ((ll ++ login_stream w) ++ login_stream w).
Proof.
  intros Hfork Hprog Hl. unfold lsh_launch. rewrite (fork_ok w Hfork).
  unfold lsh_launch_as, bind, execvp.
  cbn [Z.eqb Z.ltb Z.compare env set_next_pid set_forks]. rewrite Hprog.
  change (-1 =? -1) with true. cbn iota. unfold perror, fprintf_stderr.
  eexists. split; [reflexivity|].
  unfold after_child, exit, left_by, flush.
  cbn [login_log login_stream set_pending set_login_log set_login_stream
       set_stderr set_stdout set_errno set_next_pid set_forks].
  rewrite Hl.
  cbn [login_log login_stream set_pending set_login_log set_login_stream
       set_stderr set_stdout set_errno set_next_pid set_forks].
  repeat split.
Qed.

Lemma lsh_launch_flushes_login_log_witness :
  exists w',
    lsh_launch ["nosuch"]
      (set_login_stream ["Login at 10.0.0.7"] (sample_world "")) = Ret 1 w'
    /\ login_log w' = Some ["Login at 10.0.0.7"]
    /\ login_stream w' = ["Login at 10.0.0.7"]
    /\ login_log (flush w') = Some ["Login at 10.0.0.7"; "Login at 10.0.0.7"].
Proof.
  apply (lsh_launch_flushes_login_log ["nosuch"]
           (set_login_stream ["Login at 10.0.0.7"] (sample_world "")) []).
  - discriminate.
  - reflexivity.
  - reflexivity.
Defined.

(** A login, a command that is not found, and [exit]: when [main]
    returns, the file of the login log has the line of the login once,
    from the child, and the end of the process writes it once more. *)
Example main_login_line_twice :
  exists w' line,
    main 2 (sample_world ("admin" ++ LF ++ "pw" ++ LF
                          ++ "nosuch" ++ LF ++ "exit" ++ LF))
    = Some (Ret EXIT_SUCCESS w')
    /\ login_stream w' = [line]
    /\ login_log w' = Some [line]
    /\ login_log (flush w') = Some [line; line].
Proof. eexists _, _. split; [vm_compute; reflexivity|]. repeat split. Qed.
